(** * pcfg_cracker: the grammar engine, the ranked queue and the scorer's
      multiword training, embedded from the Python sources.

    Sources embedded here:
    - [python_pcfg_cracker/pcfg_manager/core_grammar.py]  (class [PcfgClass])
    - [python_pcfg_cracker/pcfg_manager/priority_queue.py] (classes
      [QueueItem], [PcfgQueue])
    - [lib_scorer/pcfg_grammar.py] ([PcfgGrammar.__init__],
      [PcfgGrammar.create_multiword_detector], [PcfgGrammar.parse])

    Modelling conventions.
    - Python floats are modelled by exact rationals [Q]; the float
      comparisons [<], [<=], [==] become [Qlt], [Qle], [Qeq] (decided by
      [Qlt_le_dec], [Qle_bool], [Qeq_bool]).
    - A Python exception is the outcome [Raise e]; a loop or recursion that
      has no structural bound is given fuel, and running out of it is the
      separate outcome [Diverge].
    - A parse tree [[g, r, [children]]] is the inductive [node]; a Python
      reference into a parse tree that is edited in place is modelled by the
      path (list of child indices) from the root of the edited tree.
    - A Python string is a [string], one [ascii] for each character;
      [str.upper] is embedded for the ASCII range only ([char_upper]). *)

From Stdlib Require Import ZArith QArith Lqa Lia String Ascii List Bool.
From Stdlib Require Import Sorting.Sorted Permutation.
From stdpp Require Import base list.
Import ListNotations.

Local Open Scope nat_scope.
Set Warnings "-register-all".

(** ** Outcomes of fallible code *)

Inductive exn : Type :=
| IndexError      (* list index out of range, pop from an empty heap *)
| TypeError       (* [list + str] and the like *)
| RecursionError  (* unbounded recursion on an empty list *)
| AttributeError  (* a method that the value's type does not have *)
| GrammarException (* the bare [raise Exception] of [expand_terminals] *)
| BadReference.   (* a path that does not resolve: never produced by Python,
                     kept apart so that the model cannot hide it *)

Inductive result (A : Type) : Type :=
| Ok (a : A)
| Raise (e : exn)
| Diverge.
Arguments Ok {A} a.
Arguments Raise {A} e.
Arguments Diverge {A}.

Definition rbind {A B} (m : result A) (k : A -> result B) : result B :=
  match m with
  | Ok a => k a
  | Raise e => Raise e
  | Diverge => Diverge
  end.

Declare Scope res_scope.
Delimit Scope res_scope with res.
Notation "x <- m ;; k" := (rbind m (fun x => k))
  (at level 100, m at next level, right associativity) : res_scope.

(** Python's [l[i]] for a non-negative index. *)
Definition py_index {A} (l : list A) (i : nat) : result A :=
  match l !! i with
  | Some a => Ok a
  | None => Raise IndexError
  end.

(** ** The grammar (core_grammar.py, header comment) *)

Record replacement : Type := mkRepl {
  is_terminal : bool;
  prob : Q;
  function : string;
  values : list string;
  pos : list nat }.

Record nonterminal : Type := mkNT {
  name : string;
  type : string;
  replacements : list replacement }.

Definition grammar := list nonterminal.

(** [self.grammar[g]['replacements'][r]] *)
Definition repl_at (gr : grammar) (g r : nat) : result replacement :=
  (nt <- py_index gr g ;;
   py_index (replacements nt) r)%res.

(** ** Parse trees [[g, r, [children]]] *)

Inductive node : Type :=
| Node (g r : nat) (children : list node).

Definition node_g (n : node) : nat := match n with Node g _ _ => g end.
Definition node_r (n : node) : nat := match n with Node _ r _ => r end.
Definition node_children (n : node) : list node :=
  match n with Node _ _ cs => cs end.

(** Python's structural [==] on nested lists of ints. *)
Fixpoint node_eqb (a b : node) {struct a} : bool :=
  match a, b with
  | Node g r cs, Node g' r' cs' =>
      Nat.eqb g g' && Nat.eqb r r' &&
      (fix list_eqb (l : list node) (l' : list node) {struct l} : bool :=
         match l, l' with
         | [], [] => true
         | x :: t, x' :: t' => node_eqb x x' && list_eqb t t'
         | _, _ => false
         end) cs cs'
  end.

(** Number of nodes of a tree (used only to bound loops). *)
Fixpoint node_size (n : node) : nat :=
  match n with
  | Node _ _ cs => S (list_sum (map node_size cs))
  end.

(** ** PcfgClass.start_index (core_grammar.py 78-93)

    [self.grammar[-1]] is the last element; the fallback loop tests the same
    last element at every index. *)
Definition for_first {A} (xs : list A) (test : A -> bool) : option A :=
  List.find test xs.

Definition start_index (gr : grammar) : Z :=
  if Nat.eqb (length gr) 0 then (-1)%Z
  else
    match last gr with
    | None => (-1)%Z
    | Some lastnt =>
        if String.eqb (type lastnt) "START" then (Z.of_nat (length gr) - 1)%Z
        else
          match for_first (seq 0 (length gr))
                  (fun index => String.eqb (type lastnt) "START") with
          | Some index => Z.of_nat index
          | None => (-1)%Z
          end
    end.

(** ** PcfgClass.find_probability (core_grammar.py 175-182) *)
Fixpoint find_probability (gr : grammar) (pt : node) {struct pt} : result Q :=
  match pt with
  | Node g r cs =>
      (rep <- repl_at gr g r ;;
       (fix loop (l : list node) (current_prob : Q) {struct l} : result Q :=
          match l with
          | [] => Ok current_prob
          | c :: t =>
              child_prob <- find_probability gr c ;;
              loop t (current_prob * child_prob)%Q
          end) cs (prob rep))%res
  end.

(** ** PcfgClass.find_is_terminal (core_grammar.py 188-196) *)
Fixpoint find_is_terminal (gr : grammar) (pt : node) {struct pt} : result bool :=
  match pt with
  | Node g r cs =>
      match cs with
      | [] =>
          (rep <- repl_at gr g r ;;
           Ok (if is_terminal rep then true else false))%res
      | _ =>
          (fix loop (l : list node) {struct l} : result bool :=
             match l with
             | [] => Ok true
             | c :: t =>
                 (b <- find_is_terminal gr c ;;
                  if b then loop t else Ok false)%res
             end) cs
      end
  end.

(** ** PcfgClass.copy_node (core_grammar.py 205-226): a deep copy; on the
    immutable [node] it rebuilds the same value. *)
Fixpoint copy_node (pt : node) : node :=
  match pt with
  | Node g r cs => Node g r (map copy_node cs)
  end.

(** ** PcfgClass.find_children (core_grammar.py 232-266) *)
Fixpoint find_children (gr : grammar) (pt : node) {struct pt}
  : result (list node) :=
  match pt with
  | Node g r cs =>
      if Nat.eqb (length cs) 0 then
        (nt <- py_index gr g ;;
         let numReplacements := length (replacements nt) in
         let ret_list :=
           if Nat.ltb (r + 1) numReplacements
           then [Node g (r + 1) (map copy_node cs)] else [] in
         rep0 <- py_index (replacements nt) 0 ;;
         if negb (is_terminal rep0) then
           rep <- py_index (replacements nt) r ;;
           let new_expansion := map (fun x => Node x 0 []) (pos rep) in
           Ok (ret_list ++ [Node g r new_expansion])
         else Ok ret_list)%res
      else
        (fix loop (before after : list node) {struct after}
           : result (list node) :=
           match after with
           | [] => Ok []
           | c :: t =>
               (temp_list <- find_children gr c ;;
                more <- loop (before ++ [c]) t ;;
                Ok (map (fun y => Node g r (map copy_node before ++ y
                                              :: map copy_node t))
                        temp_list ++ more))%res
           end) [] cs
  end.

(** ** PcfgClass.findMyParents (core_grammar.py 271-298) *)
Fixpoint findMyParents (pt : node) {struct pt} : list node :=
  match pt with
  | Node g r cs =>
      if Nat.eqb (length cs) 0 then
        if negb (Nat.eqb r 0) then [Node g (r - 1) (map copy_node cs)] else []
      else
        let from_children :=
          (fix loop (before after : list node) {struct after} : list node :=
             match after with
             | [] => []
             | c :: t =>
                 map (fun y => Node g r (map copy_node before ++ y
                                           :: map copy_node t))
                     (findMyParents c)
                 ++ loop (before ++ [c]) t
             end) [] cs in
        if Nat.eqb (length from_children) 0
        then [Node g r []]
        else from_children
  end.

(** ** In-place editing of a parse tree

    [deadbeat_dad] edits the tree it was given and undoes every edit.  The
    edited object is the state of a small state-and-exception monad; a
    reference [cur_node] into it is a path. *)

Definition SM (S A : Type) : Type := S -> result A * S.

Definition sret {S A} (a : A) : SM S A := fun s => (Ok a, s).
Definition sraise {S A} (e : exn) : SM S A := fun s => (Raise e, s).
Definition sdiverge {S A} : SM S A := fun s => (Diverge, s).
Definition sbind {S A B} (m : SM S A) (k : A -> SM S B) : SM S B :=
  fun s =>
    match m s with
    | (Ok a, s') => k a s'
    | (Raise e, s') => (Raise e, s')
    | (Diverge, s') => (Diverge, s')
    end.
Definition sget {S} : SM S S := fun s => (Ok s, s).
Definition slift {S A} (m : result A) : SM S A := fun s => (m, s).

Declare Scope sm_scope.
Delimit Scope sm_scope with sm.
Notation "x <- m ;; k" := (sbind m (fun x => k))
  (at level 100, m at next level, right associativity) : sm_scope.
Notation "m ;; k" := (sbind m (fun _ => k))
  (at level 100, right associativity) : sm_scope.

Definition path := list nat.

Fixpoint get_at (p : path) (t : node) {struct p} : option node :=
  match p with
  | [] => Some t
  | i :: p' =>
      match node_children t !! i with
      | Some c => get_at p' c
      | None => None
      end
  end.

Fixpoint update_at (p : path) (f : node -> node) (t : node) {struct p}
  : option node :=
  match p with
  | [] => Some (f t)
  | i :: p' =>
      match t with
      | Node g r cs =>
          match cs !! i with
          | Some c =>
              match update_at p' f c with
              | Some c' => Some (Node g r (<[i:=c']> cs))
              | None => None
              end
          | None => None
          end
      end
  end.

(** reading [cur_node] *)
Definition read (p : path) : SM node node :=
  fun t => match get_at p t with
           | Some n => (Ok n, t)
           | None => (Raise BadReference, t)
           end.

Definition modify (p : path) (f : node -> node) : SM node unit :=
  fun t => match update_at p f t with
           | Some t' => (Ok tt, t')
           | None => (Raise BadReference, t)
           end.

(** [cur_node[1] = cur_node[1] + 1] and [cur_node[1] = cur_node[1] - 1] *)
Definition incr_node (n : node) : node :=
  Node (node_g n) (node_r n + 1) (node_children n).
Definition decr_node (n : node) : node :=
  Node (node_g n) (node_r n - 1) (node_children n).
Definition incr_r (p : path) : SM node unit := modify p incr_node.
Definition decr_r (p : path) : SM node unit := modify p decr_node.
(** [cur_node[2] = cs] *)
Definition with_children (cs : list node) (n : node) : node :=
  Node (node_g n) (node_r n) cs.
Definition set_children (p : path) (cs : list node) : SM node unit :=
  modify p (with_children cs).

(** [self.find_probability(child)] where [child] is the edited tree *)
Definition root_probability (gr : grammar) : SM node Q :=
  fun t => (find_probability gr t, t).

(** ** PcfgClass.dd_is_my_child (core_grammar.py 388-440)

    [cur_parse_tree] is the work stack, its top at the head of the list
    ([pop(-1)] takes the head, [append] conses).  [childs_parent] is the
    out-parameter list; it is returned with the boolean.  [child] is the
    edited tree itself, so [self.find_probability(child)] and
    [self.copy_node(child)] read the state. *)

(** the [elif ... == ...: if not childs_parent: childs_parent.append(...)] *)
Definition note_tie (current_parent_prob previous_parent_prob : Q)
    (childs_parent : list node) : SM node (list node) :=
  if Qeq_bool current_parent_prob previous_parent_prob then
    match childs_parent with
    | [] => (child <- sget ;; sret [copy_node child])%sm
    | _ => sret childs_parent
    end
  else sret childs_parent.

(** the [for x in range(0,len(cur_node[2]))] loop of the else branch *)
Definition scan_children (p : path) (cs : list node) (stack : list path)
  : bool * list path :=
  fold_left
    (fun (acc : bool * list path) (x : nat) =>
       let '(empty_list_parent, st) := acc in
       let empty_list_parent' :=
         match cs !! x with
         | Some c => if negb (Nat.eqb (node_r c) 0) then false
                     else empty_list_parent
         | None => empty_list_parent
         end in
       (empty_list_parent', (p ++ [x]) :: st))
    (seq 0 (length cs)) (true, stack).

Fixpoint dd_loop (gr : grammar) (fuel : nat) (cur_parse_tree : list path)
    (previous_parent_prob : Q) (childs_parent : list node) {struct fuel}
  : SM node (bool * list node) :=
  match cur_parse_tree with
  | [] => sret (true, childs_parent)
  | p :: rest =>
      match fuel with
      | O => sdiverge
      | S fuel' =>
          (cur_node <- read p ;;
           if Nat.eqb (length (node_children cur_node)) 0 then
             if negb (Nat.eqb (node_r cur_node) 0) then
               decr_r p ;;
               current_parent_prob <- root_probability gr ;;
               if Qlt_le_dec current_parent_prob previous_parent_prob then
                 incr_r p ;;
                 sret (false, childs_parent)
               else
                 childs_parent' <- note_tie current_parent_prob
                                     previous_parent_prob childs_parent ;;
                 incr_r p ;;
                 dd_loop gr fuel' rest previous_parent_prob childs_parent'
             else
               dd_loop gr fuel' rest previous_parent_prob childs_parent
           else
             let '(empty_list_parent, stack') :=
               scan_children p (node_children cur_node) rest in
             if empty_list_parent then
               let prev_replacements := node_children cur_node in
               set_children p [] ;;
               current_parent_prob <- root_probability gr ;;
               if Qlt_le_dec current_parent_prob previous_parent_prob then
                 set_children p prev_replacements ;;
                 sret (false, childs_parent)
               else
                 childs_parent' <- note_tie current_parent_prob
                                     previous_parent_prob childs_parent ;;
                 set_children p prev_replacements ;;
                 dd_loop gr fuel' stack' previous_parent_prob childs_parent'
             else
               dd_loop gr fuel' stack' previous_parent_prob childs_parent)%sm
      end
  end.

(** The loop pops one node of [child] per iteration, so the number of nodes
    of [child] bounds it (see [dd_is_my_child_refines]). *)
Definition dd_is_my_child (gr : grammar) (previous_parent_prob : Q)
    (childs_parent : list node) : SM node (bool * list node) :=
  (child <- sget ;;
   dd_loop gr (node_size child) [[]] previous_parent_prob childs_parent)%sm.

(** ** PcfgClass.find_children_dd (core_grammar.py 337-381)

    [parent] is the edited tree (the state), [cur_node] a path into it, and
    [my_children_list] is threaded through and returned. *)

(** [if parent == childs_parent[0]: <edit>; append(copy_node(parent)); <undo>] *)
Definition emit_if_mine (childs_parent : list node) (edit undo : SM node unit)
    (my_children_list : list node) : SM node (list node) :=
  (parent <- sget ;;
   match childs_parent with
   | [] => sraise IndexError
   | cp0 :: _ =>
       if node_eqb parent cp0 then
         edit ;;
         child <- sget ;;
         undo ;;
         sret (my_children_list ++ [copy_node child])
       else sret my_children_list
   end)%sm.

Fixpoint find_children_dd (gr : grammar) (fuel : nat) (cur_node : path)
    (parent_prob : Q) (my_children_list : list node) {struct fuel}
  : SM node (list node) :=
  match fuel with
  | O => sdiverge
  | S fuel' =>
      (n <- read cur_node ;;
       if Nat.eqb (length (node_children n)) 0 then
         nt <- slift (py_index gr (node_g n)) ;;
         let numReplacements := length (replacements nt) in
         l1 <- (if Nat.ltb (node_r n + 1) numReplacements then
                  incr_r cur_node ;;
                  is_mine <- dd_is_my_child gr parent_prob [] ;;
                  decr_r cur_node ;;
                  if fst is_mine then
                    emit_if_mine (snd is_mine) (incr_r cur_node)
                      (decr_r cur_node) my_children_list
                  else sret my_children_list
                else sret my_children_list) ;;
         rep0 <- slift (py_index (replacements nt) 0) ;;
         if negb (is_terminal rep0) then
           n' <- read cur_node ;;
           rep <- slift (py_index (replacements nt) (node_r n')) ;;
           let new_expansion := map (fun x => Node x 0 []) (pos rep) in
           set_children cur_node new_expansion ;;
           is_mine <- dd_is_my_child gr parent_prob [] ;;
           set_children cur_node [] ;;
           if fst is_mine then
             emit_if_mine (snd is_mine) (set_children cur_node new_expansion)
               (set_children cur_node []) l1
           else sret l1
         else sret l1
       else
         (fix loop (xs : list nat) (acc : list node) {struct xs}
            : SM node (list node) :=
            match xs with
            | [] => sret acc
            | x :: xs' =>
                acc' <- find_children_dd gr fuel' (cur_node ++ [x])
                          parent_prob acc ;;
                loop xs' acc'
            end) (seq 0 (length (node_children n))) my_children_list)%sm
  end.

(** ** PcfgClass.deadbeat_dad (core_grammar.py 320-328)

    The recursion of [find_children_dd] descends one level per call, so the
    number of nodes of [pt] bounds its depth. *)
Definition deadbeat_dad (gr : grammar) (pt : node) (parent_prob : option Q)
  : result (list node) * node :=
  match (match parent_prob with
         | None => find_probability gr pt
         | Some p => Ok p
         end) with
  | Ok parent_prob' =>
      find_children_dd gr (node_size pt) [] parent_prob' [] pt
  | Raise e => (Raise e, pt)
  | Diverge => (Diverge, pt)
  end.

(** ** A functional description of the deadbeat-dad walk

    The definitions of this section do not edit anything; the lemmas below
    show that the in-place code computes them and leaves the tree as it
    found it. *)

(** The order in which [dd_is_my_child] pops the nodes below [n] (itself at
    path [p]): the node, then its children from the last to the first, each
    followed by its own descendants. *)
Fixpoint visit_order (n : node) (p : path) {struct n} : list path :=
  match n with
  | Node _ _ cs =>
      p :: concat (rev ((fix go (i : nat) (l : list node) {struct l}
                           : list (list path) :=
                           match l with
                           | [] => []
                           | c :: l' => visit_order c (p ++ [i]) :: go (S i) l'
                           end) 0 cs))
  end.

Fixpoint visit_list (p : path) (i : nat) (l : list node) {struct l}
  : list (list path) :=
  match l with
  | [] => []
  | c :: l' => visit_order c (p ++ [i]) :: visit_list p (S i) l'
  end.

(** the paths of the children [i .. i+k-1] of the node at [p] *)
Definition child_paths (p : path) (i k : nat) : list path :=
  map (fun x => p ++ [x]) (seq i k).

(** What the nodes on the work stack still have to visit. *)
Definition visits (t : node) (p : path) : list path :=
  match get_at p t with
  | Some n => visit_order n p
  | None => []
  end.
Definition stack_visits (t : node) (stack : list path) : list path :=
  concat (map (visits t) stack).

(** The candidate parent that the node at path [p] of [t] contributes: the
    decrement of a childless node with [r <> 0], or the collapse of a node
    all of whose direct children have [r = 0]. *)
Definition probe (t : node) (p : path) : option node :=
  match get_at p t with
  | Some n =>
      if Nat.eqb (length (node_children n)) 0 then
        if negb (Nat.eqb (node_r n) 0) then update_at p decr_node t else None
      else
        if forallb (fun c => Nat.eqb (node_r c) 0) (node_children n)
        then update_at p (with_children []) t else None
  | None => None
  end.

(** The candidate parents of [c] in the order [dd_is_my_child] meets them. *)
Definition dd_candidates (c : node) : list node :=
  omap (probe c) (visit_order c []).

Definition note_tie_pure (current_parent_prob previous_parent_prob : Q)
    (q : node) (childs_parent : list node) : list node :=
  if Qeq_bool current_parent_prob previous_parent_prob then
    match childs_parent with
    | [] => [copy_node q]
    | _ => childs_parent
    end
  else childs_parent.

Fixpoint dd_scan (gr : grammar) (cands : list node)
    (previous_parent_prob : Q) (childs_parent : list node) {struct cands}
  : result (bool * list node) :=
  match cands with
  | [] => Ok (true, childs_parent)
  | q :: cands' =>
      (current_parent_prob <- find_probability gr q ;;
       if Qlt_le_dec current_parent_prob previous_parent_prob
       then Ok (false, childs_parent)
       else dd_scan gr cands' previous_parent_prob
              (note_tie_pure current_parent_prob previous_parent_prob q
                 childs_parent))%res
  end.

Definition emit_if_mine_pure (parent child : node) (childs_parent : list node)
    (my_children_list : list node) : result (list node) :=
  match childs_parent with
  | [] => Raise IndexError
  | cp0 :: _ =>
      if node_eqb parent cp0 then Ok (my_children_list ++ [copy_node child])
      else Ok my_children_list
  end.

(** One candidate edit: the edited tree [child] is emitted when the scan of
    its candidate parents succeeds and names [parent] first. *)
Definition try_edit (gr : grammar) (parent : node) (child : option node)
    (parent_prob : Q) (my_children_list : list node) : result (list node) :=
  match child with
  | None => Raise BadReference
  | Some c =>
      (is_mine <- dd_scan gr (dd_candidates c) parent_prob [] ;;
       if fst is_mine
       then emit_if_mine_pure parent c (snd is_mine) my_children_list
       else Ok my_children_list)%res
  end.

Fixpoint dd_children_at (gr : grammar) (t : node) (parent_prob : Q)
    (n : node) (p : path) (my_children_list : list node) {struct n}
  : result (list node) :=
  match n with
  | Node g r cs =>
      if Nat.eqb (length cs) 0 then
        (nt <- py_index gr g ;;
         let numReplacements := length (replacements nt) in
         l1 <- (if Nat.ltb (r + 1) numReplacements
                then try_edit gr t (update_at p incr_node t) parent_prob
                       my_children_list
                else Ok my_children_list) ;;
         rep0 <- py_index (replacements nt) 0 ;;
         if negb (is_terminal rep0) then
           rep <- py_index (replacements nt) r ;;
           let new_expansion := map (fun x => Node x 0 []) (pos rep) in
           try_edit gr t (update_at p (with_children new_expansion) t)
             parent_prob l1
         else Ok l1)%res
      else
        (fix loop (i : nat) (l : list node) (acc : list node) {struct l}
           : result (list node) :=
           match l with
           | [] => Ok acc
           | c :: l' =>
               (acc' <- dd_children_at gr t parent_prob c (p ++ [i]) acc ;;
                loop (S i) l' acc')%res
           end) 0 cs my_children_list
  end.

(** [refines m t r]: run on the tree [t], the in-place computation [m] has
    the outcome [r], and when it returns normally the tree is [t] again. *)
Definition refines {A} (m : SM node A) (t : node) (r : result A) : Prop :=
  exists t', m t = (r, t') /\ (forall v, r = Ok v -> t' = t).

(** [c] is emitted for the parent [t]: the scan of the candidate parents of
    [c] succeeds and names [t] first. *)
Definition emitted (gr : grammar) (t : node) (pp : Q) (c : node) : Prop :=
  exists rest, dd_scan gr (dd_candidates c) pp [] = Ok (true, t :: rest).

(** [deadbeat_dad] without the editing. *)
Definition deadbeat_dad_pure (gr : grammar) (pt : node)
    (parent_prob : option Q) : result (list node) :=
  (parent_prob' <- match parent_prob with
                   | None => find_probability gr pt
                   | Some p => Ok p
                   end ;;
   dd_children_at gr pt parent_prob' pt [] [])%res.

(** ** Python's [<] on parse trees (lexicographic on nested lists) *)
Fixpoint node_compare (a b : node) {struct a} : comparison :=
  match a, b with
  | Node g r cs, Node g' r' cs' =>
      match Nat.compare g g' with
      | Eq =>
          match Nat.compare r r' with
          | Eq =>
              (fix list_compare (l l' : list node) {struct l} : comparison :=
                 match l, l' with
                 | [], [] => Eq
                 | [], _ :: _ => Lt
                 | _ :: _, [] => Gt
                 | x :: t, x' :: t' =>
                     match node_compare x x' with
                     | Eq => list_compare t t'
                     | c => c
                     end
                 end) cs cs'
          | c => c
          end
      | c => c
      end
  end.

(** ** The grammar invariants of the data model, as a checker *)
Fixpoint non_increasing (l : list Q) : bool :=
  match l with
  | a :: ((b :: _) as t) => Qle_bool b a && non_increasing t
  | _ => true
  end.

Definition replacement_ok (gr : grammar) (rep : replacement) : bool :=
  negb (Qle_bool (prob rep) 0) && Qle_bool (prob rep) 1 &&
  (is_terminal rep || negb (Nat.eqb (length (pos rep)) 0)) &&
  forallb (fun x => Nat.ltb x (length gr)) (pos rep).

Definition grammar_ok (gr : grammar) : bool :=
  Nat.eqb (length (List.filter (fun nt => String.eqb (type nt) "START") gr)) 1 &&
  forallb (fun nt =>
             non_increasing (map prob (replacements nt)) &&
             forallb (replacement_ok gr) (replacements nt)) gr.

(** ** Sample grammars (START comes last, where [start_index] finds it)

    [s1_grammar]: START -> L3 -> Cap3, every step the only replacement of its
    non-terminal. *)
Definition s1_grammar : grammar :=
  [ mkNT "Cap3" "Cap"
      [mkRepl true (6 # 10) "Capitalization" ["ULL"%string] []];
    mkNT "L3" "L" [mkRepl false 1 "Shadow" ["cat"%string] [0]];
    mkNT "START" "START" [mkRepl false 1 "Transparent" [] [1]] ].

(** [tie_grammar]: START -> A B, with A and B each offering probabilities
    1/2 and 1/4. *)
Definition tie_grammar : grammar :=
  [ mkNT "A" "A" [mkRepl true (1 # 2) "Copy" ["a"%string] [];
                  mkRepl true (1 # 4) "Copy" ["b"%string] []];
    mkNT "B" "B" [mkRepl true (1 # 2) "Copy" ["c"%string] [];
                  mkRepl true (1 # 4) "Copy" ["d"%string] []];
    mkNT "START" "START" [mkRepl false 1 "Transparent" [] [0; 1]] ].

(** The tie-break as the specification words it: a parent that emits a
    child is lexicographically no greater than any parent of that child
    with the same probability. *)
Definition tie_break_is_lexicographic : Prop :=
  forall (gr : grammar) (p c q : node) (children : list node) (pp pq : Q),
    grammar_ok gr = true ->
    fst (deadbeat_dad gr p None) = Ok children ->
    In c children ->
    In q (findMyParents c) ->
    find_probability gr p = Ok pp ->
    find_probability gr q = Ok pq ->
    (pq == pp)%Q ->
    node_compare p q <> Gt.

(** ** The terminal expander (core_grammar.py 100-169)

    [expand_terminals] and [expand_final_string] are dynamically typed and
    pass lists by reference.  A value is a string or a reference to a list;
    the lists live in a store:
    - [RDefault] is the one list object created for the default argument
      [working_value=[]] of [expand_terminals], shared by every call that
      does not pass [working_value];
    - [RValues g r] is the list [grammar[g]['replacements'][r]['values']];
      what [append] has added to it is kept in [appended];
    - [RFresh n] is the [n]-th list created at run time. *)

Inductive lref : Type :=
| RDefault
| RValues (g r : nat)
| RFresh (n : nat).

Inductive pyval : Type :=
| VStr (s : string)
| VList (l : lref).

Record store : Type := mkStore {
  default_arg : list pyval;
  appended : list (nat * nat * pyval);
  heap : list (list pyval) }.

Definition empty_store : store := mkStore [] [] [].

Definition appended_to (st : store) (g r : nat) : list pyval :=
  map snd (List.filter (fun e => Nat.eqb (fst (fst e)) g && Nat.eqb (snd (fst e)) r)
             (appended st)).

Definition contents (gr : grammar) (l : lref) : SM store (list pyval) :=
  fun st =>
    match l with
    | RDefault => (Ok (default_arg st), st)
    | RValues g r =>
        ((rep <- repl_at gr g r ;;
          Ok (map VStr (values rep) ++ appended_to st g r))%res, st)
    | RFresh n =>
        (match heap st !! n with
         | Some c => Ok c
         | None => Raise BadReference
         end, st)
    end.

(** [l.append(v)] *)
Definition append_to (l : lref) (v : pyval) : SM store unit :=
  fun st =>
    match l with
    | RDefault =>
        (Ok tt, mkStore (default_arg st ++ [v]) (appended st) (heap st))
    | RValues g r =>
        (Ok tt, mkStore (default_arg st) (appended st ++ [(g, r, v)]) (heap st))
    | RFresh n =>
        match heap st !! n with
        | Some c =>
            (Ok tt, mkStore (default_arg st) (appended st)
                      (<[n := c ++ [v]]> (heap st)))
        | None => (Raise BadReference, st)
        end
    end.

(** a new list object *)
Definition alloc (c : list pyval) : SM store lref :=
  fun st =>
    (Ok (RFresh (length (heap st))),
     mkStore (default_arg st) (appended st) (heap st ++ [c])).

(** [c.upper()] for a character [c] of the ASCII range: the letters a-z go
    to A-Z, every other ASCII character is left as it is.  Python's
    [str.upper] also changes letters outside ASCII, and may give more than
    one character for one; [char_upper] does not embed that part, so the
    statements about upper-casing are made for strings that are
    [ascii_only]. *)
Definition char_upper (c : ascii) : ascii :=
  let n := nat_of_ascii c in
  if Nat.leb 97 n && Nat.leb n 122 then ascii_of_nat (n - 32) else c.

Fixpoint str_upper (s : string) : string :=
  match s with
  | EmptyString => EmptyString
  | String c s' => String (char_upper c) (str_upper s')
  end.

(** a character of the ASCII range, code below 128 *)
Definition is_ascii (c : ascii) : bool := Nat.ltb (nat_of_ascii c) 128.

(** a string all of whose characters are ASCII *)
Fixpoint ascii_only (s : string) : bool :=
  match s with
  | EmptyString => true
  | String c s' => is_ascii c && ascii_only s'
  end.

Fixpoint chars (s : string) : list string :=
  match s with
  | EmptyString => []
  | String c s' => String c EmptyString :: chars s'
  end.

(** iteration, [len], [v[i]], [v[1:]], [a + b], [v.upper()], [v == 'U'] *)
Definition py_iter (gr : grammar) (v : pyval) : SM store (list pyval) :=
  match v with
  | VStr s => sret (map VStr (chars s))
  | VList l => contents gr l
  end.

Definition py_len (gr : grammar) (v : pyval) : SM store nat :=
  (c <- py_iter gr v ;; sret (length c))%sm.

Definition py_getitem (gr : grammar) (v : pyval) (i : nat) : SM store pyval :=
  (c <- py_iter gr v ;; slift (py_index c i))%sm.

Definition py_slice_from_1 (gr : grammar) (v : pyval) : SM store pyval :=
  match v with
  | VStr s => sret (VStr (match s with
                           | EmptyString => EmptyString
                           | String _ s' => s'
                           end))
  | VList l => (c <- contents gr l ;; l' <- alloc (tail c) ;; sret (VList l'))%sm
  end.

Definition py_add (gr : grammar) (a b : pyval) : SM store pyval :=
  match a, b with
  | VStr s, VStr s' => sret (VStr (s ++ s'))
  | VList l, VList l' =>
      (c <- contents gr l ;; c' <- contents gr l' ;;
       l'' <- alloc (c ++ c') ;; sret (VList l''))%sm
  | _, _ => sraise TypeError
  end.

Definition py_upper (v : pyval) : SM store pyval :=
  match v with
  | VStr s => sret (VStr (str_upper s))
  | VList _ => sraise AttributeError
  end.

Definition py_is_U (v : pyval) : bool :=
  match v with
  | VStr s => String.eqb s "U"
  | VList _ => false
  end.

(** [for x in xs: body] threading a local variable *)
Fixpoint sfold {S A B} (xs : list A) (acc : B) (body : B -> A -> SM S B)
  : SM S B :=
  match xs with
  | [] => sret acc
  | x :: xs' => (acc' <- body acc x ;; sfold xs' acc' body)%sm
  end.

Definition sfor {S A} (xs : list A) (body : A -> SM S unit) : SM S unit :=
  sfold xs tt (fun _ x => body x).

(** the body of the loop over [letterPos] of the Capitalization branch *)
Definition capitalize_letter (gr : grammar) (rule word : pyval)
  : pyval -> nat -> SM store pyval :=
  fun temp_word letterPos =>
    (m <- py_getitem gr rule letterPos ;;
     c <- py_getitem gr word letterPos ;;
     if py_is_U m then
       u <- py_upper c ;;
       py_add gr temp_word u
     else py_add gr temp_word c)%sm.

(** the body of the two outer loops: builds [temp_word] from [rule] and
    [word] *)
Definition capitalize_word (gr : grammar) (rule word : pyval)
  : SM store pyval :=
  (n <- py_len gr word ;;
   sfold (seq 0 n) (VStr EmptyString) (capitalize_letter gr rule word))%sm.

Fixpoint expand_terminals (gr : grammar) (cur_section : node)
    (working_value : lref) {struct cur_section} : SM store lref :=
  match cur_section with
  | Node g r cs =>
      (cur_dic <- slift (repl_at gr g r) ;;
       if String.eqb (function cur_dic) "Copy" then
         sret (RValues g r)
       else if String.eqb (function cur_dic) "Shadow" then
         match cs with
         | c :: _ => expand_terminals gr c (RValues g r)
         | [] => sraise IndexError
         end
       else if String.eqb (function cur_dic) "Capitalization" then
         temp_combo <- alloc [] ;;
         rules <- contents gr (RValues g r) ;;
         sfor rules (fun rule =>
           words <- contents gr working_value ;;
           sfor words (fun word =>
             temp_word <- capitalize_word gr rule word ;;
             append_to temp_combo temp_word)) ;;
         sret temp_combo
       else if String.eqb (function cur_dic) "Transparent" then
         (fix loop (l : list node) {struct l} : SM store unit :=
            match l with
            | [] => sret tt
            | rule :: l' =>
                sub <- expand_terminals gr rule RDefault ;;
                append_to working_value (VList sub) ;;
                loop l'
            end) cs ;;
         sret working_value
       else sraise GrammarException)%sm
  end.

(** [expand_final_string] (core_grammar.py 115-125).  On an empty sequence
    [guess_combos[1:]] is empty again and the recursion does not end (CPython
    stops it with RecursionError); otherwise each call shortens the
    sequence, so its length bounds the recursion. *)
Fixpoint expand_final_string (gr : grammar) (fuel : nat) (guess_combos : pyval)
    {struct fuel} : SM store pyval :=
  (n <- py_len gr guess_combos ;;
   if Nat.eqb n 1 then py_getitem gr guess_combos 0
   else if Nat.eqb n 0 then sraise RecursionError
   else
     match fuel with
     | O => sdiverge
     | S fuel' =>
         ret_strings <- alloc [] ;;
         rest <- py_slice_from_1 gr guess_combos ;;
         recursiveStrings <- expand_final_string gr fuel' rest ;;
         first <- py_getitem gr guess_combos 0 ;;
         fronts <- py_iter gr first ;;
         sfor fronts (fun frontString =>
           backs <- py_iter gr recursiveStrings ;;
           sfor backs (fun back_string =>
             joined <- py_add gr frontString back_string ;;
             append_to ret_strings joined)) ;;
         sret (VList ret_strings)
     end)%sm.

(** [list_terminals] (core_grammar.py 100-107) *)
Definition list_terminals (gr : grammar) (pre_terminal : node)
  : SM store pyval :=
  (working_value <- alloc [] ;;
   guess_combos <- expand_terminals gr pre_terminal working_value ;;
   n <- py_len gr (VList guess_combos) ;;
   expand_final_string gr n (VList guess_combos))%sm.

(** Reading a value out of the store, as [print] would show it. *)
Inductive pytree : Type :=
| TStr (s : string)
| TList (l : list pytree)
| TDeep.

Fixpoint show (gr : grammar) (depth : nat) (st : store) (v : pyval) : pytree :=
  match v with
  | VStr s => TStr s
  | VList l =>
      match depth with
      | O => TDeep
      | S d =>
          match fst (contents gr l st) with
          | Ok c => TList (map (show gr d st) c)
          | _ => TDeep
          end
      end
  end.

(** the outcome of a run and what its result shows *)
Definition shown (gr : grammar) (run : result pyval * store) : result pytree :=
  match run with
  | (Ok v, st) => Ok (show gr 8 st v)
  | (Raise e, _) => Raise e
  | (Diverge, _) => Diverge
  end.

(** the store once a list [temp] has been created in it *)
Definition with_temp (st : store) (temp : list pyval) : store :=
  mkStore (default_arg st) (appended st) (heap st ++ [temp]).

(** ** The Capitalization rule, functionally

    [apply_mask rule word]: position [i] of [word] is uppercased when
    position [i] of [rule] is ['U'].  (Where the rule is shorter than the
    word the code has already failed; the last equation is never used
    there.) *)
Fixpoint apply_mask (rule word : string) {struct word} : string :=
  match word with
  | EmptyString => EmptyString
  | String c word' =>
      match rule with
      | String m rule' =>
          String (if Ascii.eqb m "U" then char_upper c else c)
                 (apply_mask rule' word')
      | EmptyString => String c (apply_mask EmptyString word')
      end
  end.

(** The Capitalization rule as the specification words it: a mask and a
    word are combined only when their lengths agree, other pairs are
    skipped. *)
Definition matching_pairs (masks words : list string) : list string :=
  flat_map (fun m =>
    flat_map (fun w => if Nat.eqb (String.length m) (String.length w)
                       then [apply_mask m w] else []) words) masks.

Definition capitalization_skips_length_mismatches : Prop :=
  forall (gr : grammar) (g r : nat) (cs : list node) (working_value : lref)
         (st : store) (rep : replacement) (words : list string),
    repl_at gr g r = Ok rep ->
    function rep = "Capitalization"%string ->
    appended_to st g r = [] ->
    fst (contents gr working_value st) = Ok (map VStr words) ->
    exists l st',
      expand_terminals gr (Node g r cs) working_value st = (Ok l, st') /\
      fst (contents gr l st')
      = Ok (map VStr (matching_pairs (values rep) words)).

(** a Capitalization whose mask is shorter than the word it is applied to *)
Definition short_mask_grammar : grammar :=
  [ mkNT "Cap" "Cap" [mkRepl true 1 "Capitalization" ["UL"%string] []];
    mkNT "L3" "L" [mkRepl false 1 "Shadow" ["cat"%string] [0]];
    mkNT "START" "START" [mkRepl false 1 "Transparent" [] [1]] ].

(** [flat_grammar]: START -> L D, both Copy.
    [nested_grammar]: START -> X D or START -> X, where X -> L is
    Transparent too. *)
Definition flat_grammar : grammar :=
  [ mkNT "L" "L" [mkRepl true (1 # 2) "Copy" ["cat"%string; "dog"%string] []];
    mkNT "D" "D" [mkRepl true (1 # 2) "Copy" ["1"%string; "2"%string] []];
    mkNT "START" "START" [mkRepl false 1 "Transparent" [] [0; 1]] ].

Definition nested_grammar : grammar :=
  [ mkNT "L" "L" [mkRepl true (1 # 2) "Copy" ["cat"%string; "dog"%string] []];
    mkNT "D" "D" [mkRepl true (1 # 2) "Copy" ["1"%string; "2"%string] []];
    mkNT "X" "X" [mkRepl false 1 "Transparent" [] [0]];
    mkNT "START" "START" [mkRepl false (1 # 2) "Transparent" [] [2; 1];
                          mkRepl false (1 # 2) "Transparent" [] [2]] ].

(** a grammar whose START is its first non-terminal *)
Definition start_first_grammar : grammar :=
  [ mkNT "START" "START" [mkRepl false 1 "Transparent" [] [1]];
    mkNT "D" "D" [mkRepl true 1 "Copy" ["1"%string] []] ].

(** ** The ranked queue (priority_queue.py)

    [RetType] (pcfg_manager/ret_types.py) is an enumeration of status
    codes; the four members used here are declared. *)
Inductive RetType : Type :=
| STATUS_OK
| QUEUE_EMPTY
| QUEUE_FULL_ERROR
| GRAMMAR_ERROR.

Record QueueItem : Type := mkItem {
  item_is_terminal : bool;
  probability : Q;
  parse_tree : node }.

(** [QueueItem.__lt__]: [self.probability > other.probability] *)
Definition item_lt (self other : QueueItem) : bool :=
  if Qlt_le_dec (probability other) (probability self) then true else false.

(** ** heapq

    [heapq] belongs to the Python library and is modelled by its contract
    over a plain list: [heappush] adds the item, [heappop] removes and
    returns an item that no other item of the heap precedes under
    [__lt__] (here the first such item of the list; the library does not
    say which of several equal items comes out). *)
Definition heappush (h : list QueueItem) (x : QueueItem) : list QueueItem :=
  h ++ [x].

Fixpoint heappop (h : list QueueItem) : option (QueueItem * list QueueItem) :=
  match h with
  | [] => None
  | x :: t =>
      match heappop t with
      | None => Some (x, [])
      | Some (y, t') =>
          if item_lt y x then Some (y, x :: t') else Some (x, t)
      end
  end.

Record PcfgQueue : Type := mkQueue {
  p_queue : list QueueItem;
  max_probability : Q;
  min_probability : Q;
  max_queue_size : Z;
  reduction_size : Z }.

(** [PcfgQueue.__init__] *)
Definition new_queue : PcfgQueue :=
  mkQueue [] 1 0 500000 (500000 / 4).

Definition set_p_queue (h : list QueueItem) : SM PcfgQueue unit :=
  fun q => (Ok tt, mkQueue h (max_probability q) (min_probability q)
                     (max_queue_size q) (reduction_size q)).
Definition set_max_probability (p : Q) : SM PcfgQueue unit :=
  fun q => (Ok tt, mkQueue (p_queue q) p (min_probability q)
                     (max_queue_size q) (reduction_size q)).
Definition set_min_probability (p : Q) : SM PcfgQueue unit :=
  fun q => (Ok tt, mkQueue (p_queue q) (max_probability q) p
                     (max_queue_size q) (reduction_size q)).

(** [heapq.heappush(self.p_queue, item)] and [heapq.heappop(self.p_queue)] *)
Definition push_self (x : QueueItem) : SM PcfgQueue unit :=
  (q <- sget ;; set_p_queue (heappush (p_queue q) x))%sm.

Definition pop_self : SM PcfgQueue QueueItem :=
  (q <- sget ;;
   match heappop (p_queue q) with
   | Some (x, h) => (set_p_queue h ;; sret x)
   | None => sraise IndexError
   end)%sm.

(** ** PcfgQueue.initialize (priority_queue.py 108-117) *)
Definition initialize (gr : grammar) : SM PcfgQueue RetType :=
  let index := start_index gr in
  if Z.eqb index (-1) then sret GRAMMAR_ERROR
  else
    let tree := Node (Z.to_nat index) 0 [] in
    (p <- slift (find_probability gr tree) ;;
     push_self (mkItem false p tree) ;;
     sret STATUS_OK)%sm.

(** ** PcfgQueue.trim_queue (priority_queue.py 124-151) *)

(** the [while item.probability == self.min_probability] loop; every
    iteration pops, so the length of the queue bounds it *)
Fixpoint trim_ties (fuel : nat) (item : QueueItem) (keep_list : list QueueItem)
    {struct fuel} : SM PcfgQueue (list QueueItem) :=
  match fuel with
  | O => sdiverge
  | S fuel' =>
      (q <- sget ;;
       if Qeq_bool (probability item) (min_probability q) then
         item' <- pop_self ;;
         trim_ties fuel' item' (heappush keep_list item)
       else sret keep_list)%sm
  end.

Fixpoint trim_loop (indices : list nat) (keep_list : list QueueItem)
    {struct indices} : SM PcfgQueue (list QueueItem) :=
  match indices with
  | [] => sret keep_list
  | index :: rest =>
      (item <- pop_self ;;
       let keep1 := heappush keep_list item in
       q <- sget ;;
       if Z.eqb (Z.of_nat index) (max_queue_size q - reduction_size q - 1) then
         set_min_probability (probability item) ;;
         item' <- pop_self ;;
         q' <- sget ;;
         keep2 <- trim_ties (S (length (p_queue q'))) item' keep1 ;;
         trim_loop rest keep2
       else trim_loop rest keep1)%sm
  end.

Definition trim_queue : SM PcfgQueue RetType :=
  (q <- sget ;;
   let orig_size := length (p_queue q) in
   keep_list <- trim_loop
                  (seq 0 (Z.to_nat (max_queue_size q - reduction_size q))) [] ;;
   set_p_queue keep_list ;;
   if Nat.eqb orig_size (length keep_list)
   then sret QUEUE_FULL_ERROR
   else sret STATUS_OK)%sm.

(** ** PcfgQueue.find_my_children (priority_queue.py 216-233) *)
Fixpoint probabilities (gr : grammar) (l : list node)
  : result (list (node * Q)) :=
  match l with
  | [] => Ok []
  | parent :: l' =>
      (p <- find_probability gr parent ;;
       rest <- probabilities gr l' ;;
       Ok ((parent, p) :: rest))%res
  end.

Definition lowest_index (prob_list : list (node * Q)) (lowest_prob : Q) : nat :=
  fold_left
    (fun parent_index index =>
       match prob_list !! index with
       | Some (_, p) => if Qlt_le_dec p lowest_prob then index else parent_index
       | None => parent_index
       end)
    (seq 1 (length prob_list - 1)) 0.

Fixpoint find_my_children (gr : grammar) (q_item : QueueItem)
    (children_list : list node) : result (list node) :=
  match children_list with
  | [] => Ok []
  | child :: rest =>
      (prob_list <- probabilities gr (findMyParents child) ;;
       first <- py_index prob_list 0 ;;
       let parent_index := lowest_index prob_list (snd first) in
       chosen <- py_index prob_list parent_index ;;
       more <- find_my_children gr q_item rest ;;
       if node_eqb (fst chosen) (parse_tree q_item)
       then Ok (child :: more) else Ok more)%res
  end.

(** ** PcfgQueue.rebuild_from_max (priority_queue.py 188-209) *)
Fixpoint some_parent_below (gr : grammar) (max_prob : Q) (l : list node)
  : result bool :=
  match l with
  | [] => Ok false
  | parent :: l' =>
      (p <- find_probability gr parent ;;
       if Qle_bool p max_prob then Ok true
       else some_parent_below gr max_prob l')%res
  end.

Fixpoint queue_items (gr : grammar) (l : list node) : result (list QueueItem) :=
  match l with
  | [] => Ok []
  | child :: l' =>
      (t <- find_is_terminal gr child ;;
       p <- find_probability gr child ;;
       rest <- queue_items gr l' ;;
       Ok (mkItem t p child :: rest))%res
  end.

Definition rebuild_from_max (gr : grammar) (q_item : QueueItem)
  : SM PcfgQueue (list QueueItem) :=
  (q <- sget ;;
   if Qle_bool (probability q_item) (max_probability q) then
     covered <- slift (some_parent_below gr (max_probability q)
                         (findMyParents (parse_tree q_item))) ;;
     if (covered : bool) then sret []
     else if Qle_bool (min_probability q) (probability q_item)
          then push_self q_item ;; sret []
          else sret []
   else
     slift (children_list <- find_children gr (parse_tree q_item) ;;
            my_children_list <- find_my_children gr q_item children_list ;;
            queue_items gr my_children_list)%res)%sm.

(** the trim that the loops perform when the queue has grown too large;
    the status returned by [trim_queue] is not looked at *)
Definition trim_if_too_large : SM PcfgQueue bool :=
  (q <- sget ;;
   if Z.ltb (max_queue_size q) (Z.of_nat (length (p_queue q)))
   then (trim_queue ;; sret true)
   else sret false)%sm.

(** ** PcfgQueue.rebuild_queue (priority_queue.py 158-181)

    The work list can grow without bound, so the loop takes fuel. *)
Fixpoint rebuild_loop (gr : grammar) (fuel : nat)
    (rebuild_list : list QueueItem) {struct fuel} : SM PcfgQueue unit :=
  match rebuild_list with
  | [] => sret tt
  | q_item :: rest =>
      match fuel with
      | O => sdiverge
      | S fuel' =>
          (ret_list <- rebuild_from_max gr q_item ;;
           trim_if_too_large ;;
           rebuild_loop gr fuel' (rest ++ ret_list))%sm
      end
  end.

Definition rebuild_queue (gr : grammar) (fuel : nat) : SM PcfgQueue RetType :=
  (set_p_queue [] ;;
   set_min_probability 0 ;;
   let index := start_index gr in
   if Z.eqb index (-1) then sret GRAMMAR_ERROR
   else
     rebuild_loop gr fuel [mkItem false 1 (Node (Z.to_nat index) 0 [])] ;;
     sret STATUS_OK)%sm.

(** ** PcfgQueue.deadbeat_dad (priority_queue.py 291-304), here
    [queue_deadbeat_dad], the name [deadbeat_dad] being taken by the method
    of [PcfgClass]

    [pcfg.deadbeat_dad] works on [queue_item.parse_tree] in place; the item
    handed back carries the tree as the call left it. *)
Fixpoint push_children (gr : grammar) (queue_item : QueueItem)
    (my_children_list : list node) : SM PcfgQueue unit :=
  match my_children_list with
  | [] => sret tt
  | child :: rest =>
      (t <- slift (find_is_terminal gr child) ;;
       p <- slift (find_probability gr child) ;;
       let child_node := mkItem t p child in
       q <- sget ;;
       (if Qle_bool (probability child_node) (probability queue_item) then
          if Qle_bool (min_probability q) (probability child_node)
          then push_self child_node
          else sret tt
        else sret tt) ;;
       push_children gr queue_item rest)%sm
  end.

Definition queue_deadbeat_dad (gr : grammar) (queue_item : QueueItem)
  : SM PcfgQueue QueueItem :=
  let '(children, tree) :=
    deadbeat_dad gr (parse_tree queue_item) (Some (probability queue_item)) in
  (my_children_list <- slift children ;;
   push_children gr queue_item my_children_list ;;
   sret (mkItem (item_is_terminal queue_item) (probability queue_item) tree))%sm.

(** ** PcfgQueue.next_function (priority_queue.py 239-272)

    One pass through the body of [while True] either finds the queue
    exhausted or pops an item; [trimmed] tells whether the pass trimmed the
    queue. *)
Inductive iteration : Type :=
| Exhausted
| Popped (queue_item : QueueItem) (trimmed : bool).

(** the [while len(self.p_queue) == 0] loop; false when the grammar is
    exhausted *)
Fixpoint refill (gr : grammar) (fuel : nat) {struct fuel} : SM PcfgQueue bool :=
  (q <- sget ;;
   if Nat.eqb (length (p_queue q)) 0 then
     if negb (Qeq_bool (min_probability q) 0) then
       match fuel with
       | O => sdiverge
       | S fuel' => rebuild_queue gr fuel' ;; refill gr fuel'
       end
     else sret false
   else sret true)%sm.

Definition pump_iteration (gr : grammar) (fuel : nat)
  : SM PcfgQueue iteration :=
  (nonempty <- refill gr fuel ;;
   if (nonempty : bool) then
     queue_item <- pop_self ;;
     set_max_probability (probability queue_item) ;;
     queue_item' <- queue_deadbeat_dad gr queue_item ;;
     trimmed <- trim_if_too_large ;;
     sret (Popped queue_item' trimmed)
   else sret Exhausted)%sm.

Fixpoint next_function (gr : grammar) (fuel : nat)
    (queue_item_list : list QueueItem) {struct fuel}
  : SM PcfgQueue (RetType * list QueueItem) :=
  match fuel with
  | O => sdiverge
  | S fuel' =>
      (it <- pump_iteration gr fuel' ;;
       match it with
       | Exhausted => sret (QUEUE_EMPTY, queue_item_list)
       | Popped queue_item _ =>
           if item_is_terminal queue_item
           then sret (STATUS_OK, queue_item_list ++ [queue_item])
           else next_function gr fuel' queue_item_list
       end)%sm
  end.

(** ** Reasoning about runs

    [ensures m s P]: if [m], run from [s], returns normally, its value and
    final state satisfy [P].  [preserves m I]: whatever its outcome, [m]
    keeps the state inside [I]. *)
Definition ensures {S A} (m : SM S A) (s : S) (P : A -> S -> Prop) : Prop :=
  forall a s', m s = (Ok a, s') -> P a s'.

Definition preserves {S A} (m : SM S A) (I : S -> Prop) : Prop :=
  forall s, I s -> I (snd (m s)).

(** the size parameters of a queue are never assigned after [__init__] *)
Definition same_params (q q' : PcfgQueue) : Prop :=
  max_queue_size q' = max_queue_size q /\
  reduction_size q' = reduction_size q.

(** a queue of three derivations of the same probability, with room for
    two *)
Definition tied_queue : PcfgQueue :=
  mkQueue [mkItem true (1 # 2) (Node 0 0 []);
           mkItem true (1 # 2) (Node 0 1 []);
           mkItem true (1 # 2) (Node 0 2 [])] 1 0 2 1.

(** every item of the queue is at most [m], the value of
    [max_probability] *)
Definition bounded_above (m : Q) (q : PcfgQueue) : Prop :=
  max_probability q = m /\
  forall x, In x (p_queue q) -> (probability x <= m)%Q.

(** every item of the queue is at least [min_probability] *)
Definition bounded_below (q : PcfgQueue) : Prop :=
  forall x, In x (p_queue q) -> (min_probability q <= probability x)%Q.

(** [trim_grammar]: START -> A B C, each with two replacements. *)
Definition trim_grammar : grammar :=
  [ mkNT "A" "A" [mkRepl true (1 # 2) "Copy" ["a"%string] [];
                  mkRepl true (1 # 3) "Copy" ["b"%string] []];
    mkNT "B" "B" [mkRepl true (1 # 2) "Copy" ["c"%string] [];
                  mkRepl true (1 # 4) "Copy" ["d"%string] []];
    mkNT "C" "C" [mkRepl true (1 # 2) "Copy" ["e"%string] [];
                  mkRepl true (1 # 5) "Copy" ["f"%string] []];
    mkNT "START" "START" [mkRepl false 1 "Transparent" [] [0; 1; 2]] ].

(** [even_grammar]: START -> A B C, the two replacements of each being
    equally probable. *)
Definition even_grammar : grammar :=
  [ mkNT "A" "A" [mkRepl true (1 # 2) "Copy" ["a"%string] [];
                  mkRepl true (1 # 2) "Copy" ["b"%string] []];
    mkNT "B" "B" [mkRepl true (1 # 2) "Copy" ["c"%string] [];
                  mkRepl true (1 # 2) "Copy" ["d"%string] []];
    mkNT "C" "C" [mkRepl true (1 # 2) "Copy" ["e"%string] [];
                  mkRepl true (1 # 2) "Copy" ["f"%string] []];
    mkNT "START" "START" [mkRepl false 1 "Transparent" [] [0; 1; 2]] ].

(** a queue that trims as soon as it holds three items *)
Definition small_queue : PcfgQueue := mkQueue [] 1 0 2 1.

(** [k] successive calls of [next_function]; the list collects what they
    hand back *)
Fixpoint pump (gr : grammar) (fuel : nat) (k : nat)
    (emitted : list QueueItem) {struct k}
  : SM PcfgQueue (list QueueItem) :=
  match k with
  | O => sret emitted
  | S k' =>
      (r <- next_function gr fuel [] ;;
       pump gr fuel k' (emitted ++ snd r))%sm
  end.


(** ** Runs of the guess pump

    A run is a sequence of passes through the body of [next_function]'s
    loop, each recorded with the state it leaves. *)
Inductive pump_steps (gr : grammar)
  : PcfgQueue -> list (iteration * PcfgQueue) -> Prop :=
| steps_done q : pump_steps gr q []
| steps_pass q fuel it q' rest :
    pump_iteration gr fuel q = (Ok it, q') ->
    pump_steps gr q' rest ->
    pump_steps gr q ((it, q') :: rest).

Definition popped (its : list (iteration * PcfgQueue)) : list QueueItem :=
  flat_map (fun s => match fst s with
                     | Popped x _ => [x]
                     | Exhausted => []
                     end) its.

Definition trimmed_in (its : list (iteration * PcfgQueue)) : bool :=
  existsb (fun s => match fst s with
                    | Popped _ t => t
                    | Exhausted => false
                    end) its.

(** each element is at least the next one *)
Definition non_increasing_seq (l : list Q) : Prop :=
  Sorted (fun a b => (b <= a)%Q) l.

(** every replacement probability is at most 1 *)
Definition probabilities_at_most_one (gr : grammar) : Prop :=
  forall nt rep, In nt gr -> In rep (replacements nt) -> (prob rep <= 1)%Q.

(** the invariant of a run in which nothing has been trimmed *)
Definition untrimmed (q : PcfgQueue) : Prop :=
  bounded_above (max_probability q) q /\ Qeq_bool (min_probability q) 0 = true.

(** a queue as [__init__] leaves it, whatever sizes are then configured *)
Definition fresh_queue (q : PcfgQueue) : Prop :=
  p_queue q = [] /\ max_probability q = 1%Q /\ min_probability q = 0%Q.

(** the first [n] passes from [q], as far as they return *)
Fixpoint run_steps (gr : grammar) (fuel n : nat) (q : PcfgQueue)
  : list (iteration * PcfgQueue) :=
  match n with
  | O => []
  | S n' =>
      match pump_iteration gr fuel q with
      | (Ok it, q') => (it, q') :: run_steps gr fuel n' q'
      | _ => []
      end
  end.

(** the state a run ends in *)
Fixpoint final_state (q : PcfgQueue) (its : list (iteration * PcfgQueue))
  : PcfgQueue :=
  match its with
  | [] => q
  | s :: rest => final_state (snd s) rest
  end.

(** ** The scorer's multiword training (lib_scorer/pcfg_grammar.py 61-90)

    A [Counter] is its items in insertion order; [count_alpha] maps a
    length to the counter of the alpha strings of that length.  The class
    [MultiWordDetector] (lib_trainer) is outside these sources: the detector
    is represented by the words passed to its [train] method, in order. *)
Definition Counter := list (string * Q).

(** [Counter.most_common()]: the items sorted by count, largest first,
    equal counts in insertion order (a stable sort) *)
Fixpoint insert_by_count (x : string * Q) (l : list (string * Q))
  : list (string * Q) :=
  match l with
  | [] => [x]
  | y :: l' =>
      if Qlt_le_dec (snd x) (snd y) then y :: insert_by_count x l'
      else x :: l
  end.

Definition most_common (c : Counter) : list (string * Q) :=
  fold_right insert_by_count [] c.

(** the loop over [prob_list] *)
Fixpoint train_above_skipped (prob_list : list (string * Q)) (skipped : nat)
    (prev_prob : Q) : list string :=
  match prob_list with
  | [] => []
  | item :: rest =>
      if Nat.ltb skipped 5 then
        if Qlt_le_dec prev_prob (snd item)
        then train_above_skipped rest (skipped + 1) (snd item)
        else train_above_skipped rest skipped prev_prob
      else fst item :: train_above_skipped rest skipped prev_prob
  end.

Definition create_multiword_detector (count_alpha : list (nat * Counter))
  : list string :=
  let min_len := 4 in
  flat_map (fun kv =>
              if Nat.leb min_len (fst kv)
              then train_above_skipped (rev (most_common (snd kv))) 0 0
              else [])
           count_alpha.

(** six alpha strings of length 4 whose counts form five tiers *)
Definition five_tier_alpha : list (nat * Counter) :=
  [ (4, [ ("aaaa"%string, 1%Q); ("bbbb"%string, 2%Q); ("cccc"%string, 3%Q);
          ("dddd"%string, 4%Q); ("eeee"%string, 5%Q); ("ffff"%string, 5%Q) ]) ].

(** ** Induction on parse trees, through the lists of children *)
Section NodeInduction.
Variable P : node -> Prop.
Hypothesis step : forall g r cs, Forall P cs -> P (Node g r cs).

Fixpoint node_ind' (n : node) : P n :=
  match n with
  | Node g r cs =>
      step g r cs
        ((fix all (l : list node) : Forall P l :=
            match l with
            | [] => @Stdlib.Lists.List.Forall_nil _ P
            | c :: l' =>
                @Stdlib.Lists.List.Forall_cons _ P c l' (node_ind' c) (all l')
            end) cs)
  end.
End NodeInduction.

(** an outcome that is a value or an IndexError *)
Definition plain {A} (m : result A) : Prop :=
  match m with
  | Ok _ => True
  | Raise IndexError => True
  | _ => False
  end.


(** ** Well-formed trees and grammars, for the successor function

    [tree_ok gr pt]: every node of [pt] names an existing replacement.
    [expandable_ok gr]: every index in a [pos] list names a non-terminal that
    has a first replacement, and where the first replacement of a
    non-terminal is not terminal (the test [find_children_dd] makes before
    it expands) each of its replacements has a non-empty [pos]. *)
Fixpoint tree_ok (gr : grammar) (pt : node) {struct pt} : bool :=
  match pt with
  | Node g r cs =>
      match repl_at gr g r with
      | Ok _ =>
          (fix all (l : list node) {struct l} : bool :=
             match l with
             | [] => true
             | c :: l' => tree_ok gr c && all l'
             end) cs
      | _ => false
      end
  end.

Definition expandable_ok (gr : grammar) : Prop :=
  forall nt rep0 rep,
    In nt gr ->
    replacements nt !! 0 = Some rep0 ->
    In rep (replacements nt) ->
    (forall x, In x (pos rep) -> exists rep', repl_at gr x 0 = Ok rep') /\
    (is_terminal rep0 = false -> pos rep <> []).

(** the inner loop of [findMyParents], named *)
Fixpoint parents_from_children (g r : nat) (before after : list node)
    {struct after} : list node :=
  match after with
  | [] => []
  | c :: t =>
      map (fun y => Node g r (map copy_node before ++ y :: map copy_node t))
          (findMyParents c)
      ++ parents_from_children g r (before ++ [c]) t
  end.

(** ** Named loops of [find_probability] and [find_children] *)

(** the loop of [find_probability] over the children of a node *)
Fixpoint children_probability (gr : grammar) (l : list node)
    (current_prob : Q) {struct l} : result Q :=
  match l with
  | [] => Ok current_prob
  | c :: t =>
      (child_prob <- find_probability gr c ;;
       children_probability gr t (current_prob * child_prob)%Q)%res
  end.

(** the loop of [find_children] over the children of a node *)
Fixpoint children_of_children (gr : grammar) (g r : nat)
    (before after : list node) {struct after} : result (list node) :=
  match after with
  | [] => Ok []
  | c :: t =>
      (temp_list <- find_children gr c ;;
       more <- children_of_children gr g r (before ++ [c]) t ;;
       Ok (map (fun y => Node g r (map copy_node before ++ y
                                     :: map copy_node t))
               temp_list ++ more))%res
  end.

(** every replacement probability lies in [0, 1] *)
Definition probabilities_in_unit_interval (gr : grammar) : Prop :=
  forall nt rep, In nt gr -> In rep (replacements nt) ->
                 (0 <= prob rep <= 1)%Q.

(** the replacements of every non-terminal are listed by non-increasing
    probability *)
Definition replacements_descend (gr : grammar) : Prop :=
  forall nt, In nt gr -> non_increasing (map prob (replacements nt)) = true.

(** ** The expander on lists of strings

    [combinations [ws1; ...; wsk]]: every string of [ws1] followed by every
    combination of the remaining lists, the first list varying slowest. *)
Fixpoint combinations (l : list (list string)) : list string :=
  match l with
  | [] => []
  | ws :: rest =>
      match rest with
      | [] => ws
      | _ :: _ =>
          flat_map (fun front =>
                      map (fun back => (front ++ back)%string)
                          (combinations rest)) ws
      end
  end.

(** a reference that the store can resolve *)
Definition allocated (st : store) (l : lref) : Prop :=
  match l with
  | RFresh n => n < length (heap st)
  | _ => True
  end.

(** [st'] has the lists of [st], unchanged, and possibly new ones *)
Definition extends (st st' : store) : Prop :=
  default_arg st' = default_arg st /\
  appended st' = appended st /\
  exists more, heap st' = heap st ++ more.

(** [st'] has the lists of [st], unchanged but for the run-time list [k],
    and possibly new ones *)
Definition keeps (k : nat) (st st' : store) : Prop :=
  default_arg st' = default_arg st /\
  appended st' = appended st /\
  length (heap st) <= length (heap st') /\
  forall n, n <> k -> n < length (heap st) -> heap st' !! n = heap st !! n.

(** the store with the run-time list [n] replaced *)
Definition set_heap (st : store) (n : nat) (c : list pyval) : store :=
  mkStore (default_arg st) (appended st) (<[n := c]> (heap st)).

(** the sections [expand_terminals] turns into a list of strings without
    reading [working_value]: a Copy, or a Shadow of ASCII words over a
    Capitalization none of whose masks is shorter than a word *)
Inductive simple_section (gr : grammar) : node -> list string -> Prop :=
| section_copy g r cs rep :
    repl_at gr g r = Ok rep ->
    function rep = "Copy"%string ->
    simple_section gr (Node g r cs) (values rep)
| section_shadow g r cs rep g' r' cs' rep' :
    repl_at gr g r = Ok rep ->
    function rep = "Shadow"%string ->
    repl_at gr g' r' = Ok rep' ->
    function rep' = "Capitalization"%string ->
    (forall m w, In m (values rep') -> In w (values rep) ->
                 String.length w <= String.length m) ->
    forallb ascii_only (values rep) = true ->
    simple_section gr (Node g r (Node g' r' cs' :: cs))
      (flat_map (fun m => map (apply_mask m) (values rep)) (values rep')).

(** [cap_digit_grammar]: START -> L3 D, where L3 -> Cap3 is a Shadow over a
    Capitalization and D is a Copy. *)
Definition cap_digit_grammar : grammar :=
  [ mkNT "Cap3" "Cap"
      [mkRepl true 1 "Capitalization" ["ULL"%string; "LLL"%string] []];
    mkNT "L3" "L" [mkRepl false 1 "Shadow" ["cat"%string; "dog"%string] [0]];
    mkNT "D" "D" [mkRepl true 1 "Copy" ["1"%string; "2"%string] []];
    mkNT "START" "START" [mkRepl false 1 "Transparent" [] [1; 2]] ].

(** ** The other comparisons of [QueueItem] (priority_queue.py 51-64) *)

(** [__le__]: [self.probability >= other.probability] *)
Definition item_le (self other : QueueItem) : bool :=
  Qle_bool (probability other) (probability self).
(** [__eq__]: [self.probability == other.probability] *)
Definition item_eq (self other : QueueItem) : bool :=
  Qeq_bool (probability self) (probability other).
(** [__ne__]: [self.probability != other.probability] *)
Definition item_ne (self other : QueueItem) : bool :=
  negb (Qeq_bool (probability self) (probability other)).
(** [__gt__]: [self.probability < other.probability] *)
Definition item_gt (self other : QueueItem) : bool :=
  if Qlt_le_dec (probability self) (probability other) then true else false.
(** [__ge__]: [self.probability <= other.probability] *)
Definition item_ge (self other : QueueItem) : bool :=
  Qle_bool (probability self) (probability other).

(** ** The scorer's grammar and [parse] (lib_scorer/pcfg_grammar.py 35-56,
    103-183)

    The counters of [PcfgGrammar.__init__]; a table keyed by length is its
    items in insertion order, as [count_alpha] above. *)
Record PcfgGrammar : Type := mkPcfgGrammar {
  encoding : option string;
  count_keyboard : list (nat * Counter);
  count_emails : Counter;
  count_email_providers : Counter;
  count_website_urls : Counter;
  count_website_hosts : Counter;
  count_website_prefixes : Counter;
  count_years : Counter;
  count_context_sensitive : Counter;
  count_alpha : list (nat * Counter);
  count_alpha_masks : list (nat * Counter);
  count_digits : list (nat * Counter);
  count_other : list (nat * Counter);
  count_base_structures : Counter;
  count_raw_base_structures : Counter }.

(** [PcfgGrammar.__init__] *)
Definition new_PcfgGrammar : PcfgGrammar :=
  mkPcfgGrammar None [] [] [] [] [] [] [] [] [] [] [] [] [] [].

(** [counter[item]]: a [Counter] answers 0 for a key it does not hold *)
Definition counter_get (c : Counter) (item : string) : Q :=
  match List.find (fun kv => String.eqb (fst kv) item) c with
  | Some kv => snd kv
  | None => 0
  end.

(** [table[len(item)][item]]: [None] stands for the KeyError of a length
    that the table does not hold *)
Definition by_length (table : list (nat * Counter)) (item : string)
  : option Q :=
  match List.find (fun kv => Nat.eqb (fst kv) (String.length item)) table with
  | Some kv => Some (counter_get (snd kv) item)
  | None => None
  end.

(** [for item in items: cur_prob *= lookup(item)] *)
Fixpoint multiply_all (lookup : string -> option Q) (items : list string)
    (cur_prob : Q) {struct items} : option Q :=
  match items with
  | [] => Some cur_prob
  | item :: rest =>
      match lookup item with
      | Some v => multiply_all lookup rest (cur_prob * v)%Q
      | None => None
      end
  end.

(** the body of the [try] of [parse]; [None] is the KeyError that the
    [except] clause catches *)
Definition transition_probability (self : PcfgGrammar)
    (found_walks found_years found_context_sensitive_strings
     found_alpha_strings found_mask_list found_digit_strings
     found_other_strings : list string) (base_structure : string)
  : option Q :=
  match multiply_all (by_length (count_keyboard self)) found_walks 1 with
  | None => None
  | Some p1 =>
  match multiply_all (fun item => Some (counter_get (count_years self) item))
          found_years p1 with
  | None => None
  | Some p2 =>
  match multiply_all
          (fun item => Some (counter_get (count_context_sensitive self) item))
          found_context_sensitive_strings p2 with
  | None => None
  | Some p3 =>
  match multiply_all (by_length (count_alpha self)) found_alpha_strings p3 with
  | None => None
  | Some p4 =>
  match multiply_all (by_length (count_alpha_masks self)) found_mask_list
          p4 with
  | None => None
  | Some p5 =>
  match multiply_all (by_length (count_digits self)) found_digit_strings
          p5 with
  | None => None
  | Some p6 =>
  match multiply_all (by_length (count_other self)) found_other_strings
          p6 with
  | None => None
  | Some p7 =>
      Some (p7 * counter_get (count_base_structures self) base_structure)%Q
  end end end end end end end.

(** The detectors of [lib_trainer] are outside these sources.  [parse] is
    embedded over arbitrary detectors: each takes the section list (which
    it may rewrite in place, hence returns) and yields what it found.  The
    attribute [multiword_detector] exists only once
    [create_multiword_detector] has run. *)
Section Scorer.
Variable section_list : Type.
Variable MultiWordDetector : Type.
Variable detect_keyboard_walk : string -> section_list * list string.
Variable email_detection
  : section_list -> section_list * (list string * list string).
Variable website_detection
  : section_list -> section_list * (list string * list string * list string).
Variable year_detection : section_list -> section_list * list string.
Variable context_sensitive_detection
  : section_list -> section_list * list string.
Variable alpha_detection
  : section_list -> MultiWordDetector ->
    section_list * (list string * list string).
Variable digit_detection : section_list -> section_list * list string.
Variable other_detection : section_list -> section_list * list string.
Variable base_structure_creation
  : section_list -> section_list * (bool * string).

(** what the first three detectors find in a password *)
Definition found_emails (password : string) : list string :=
  fst (snd (email_detection (fst (detect_keyboard_walk password)))).
Definition found_urls (password : string) : list string :=
  fst (fst (snd (website_detection
                   (fst (email_detection
                           (fst (detect_keyboard_walk password))))))).

Definition parse (self : PcfgGrammar)
    (multiword_detector : option MultiWordDetector) (password : string)
  : result (string * string * Q) :=
  let '(sections0, found_walks) := detect_keyboard_walk password in
  let '(sections1, (found_emails, found_providers)) :=
    email_detection sections0 in
  let '(sections2, (found_urls, found_hosts, found_prefixes)) :=
    website_detection sections1 in
  let category :=
    match found_emails with
    | _ :: _ => "e"%string
    | [] => match found_urls with
            | _ :: _ => "w"%string
            | [] => "o"%string
            end
    end in
  if String.eqb category "e" || String.eqb category "w"
  then Ok (password, category, 0%Q)
  else
    let '(sections3, found_years) := year_detection sections2 in
    let '(sections4, found_context_sensitive_strings) :=
      context_sensitive_detection sections3 in
    match multiword_detector with
    | None => Raise AttributeError
    | Some detector =>
        let '(sections5, (found_alpha_strings, found_mask_list)) :=
          alpha_detection sections4 detector in
        let '(sections6, found_digit_strings) := digit_detection sections5 in
        let '(sections7, found_other_strings) := other_detection sections6 in
        let '(sections8, (is_supported, base_structure)) :=
          base_structure_creation sections7 in
        if negb is_supported then Ok (password, "o"%string, 0%Q)
        else
          let cur_prob :=
            match transition_probability self found_walks found_years
                    found_context_sensitive_strings found_alpha_strings
                    found_mask_list found_digit_strings found_other_strings
                    base_structure with
            | Some p => p
            | None => 0%Q
            end in
          let category := if negb (Qeq_bool cur_prob 0) then "p"%string
                          else category in
          Ok (password, category, cur_prob)
    end.
End Scorer.

(** stand-ins for the detectors, to run [parse] on an example: the whole
    password is one alpha string, nothing else is found, and the base
    structure is its length class *)
Definition toy_walk (password : string) : list string * list string :=
  ([password], []).
Definition toy_none2 (sections : list string)
  : list string * (list string * list string) :=
  (sections, ([], [])).
Definition toy_none3 (sections : list string)
  : list string * (list string * list string * list string) :=
  (sections, ([], [], [])).
Definition toy_none (sections : list string) : list string * list string :=
  (sections, []).
Definition toy_alpha (sections : list string) (detector : unit)
  : list string * (list string * list string) :=
  (sections, (sections, [])).
Definition toy_base (sections : list string) : list string * (bool * string) :=
  (sections, (true, "A"%string)).

(** a scorer grammar that knows the alpha string cat and the base
    structure A *)
Definition toy_PcfgGrammar : PcfgGrammar :=
  mkPcfgGrammar None [] [] [] [] [] [] [] []
    [(3, [("cat"%string, 1 # 2)])] [] [] []
    [("A"%string, 1 # 2)] [].

(** * Proofs: parse trees and paths *)


Lemma copy_node_id (n : node) : copy_node n = n.
Proof.
  induction n as [g r cs IH] using node_ind'.
  simpl. f_equal.
  induction IH as [|c l Hc _ IHl]; simpl; [reflexivity|].
  now rewrite Hc, IHl.
Qed.

Lemma map_copy_node_id (l : list node) : map copy_node l = l.
Proof. induction l; simpl; [reflexivity|]. now rewrite copy_node_id, IHl. Qed.

Lemma node_eqb_refl (n : node) : node_eqb n n = true.
Proof.
  induction n as [g r cs IH] using node_ind'.
  simpl. rewrite !Nat.eqb_refl. simpl.
  induction IH as [|c l Hc _ IHl]; [reflexivity|].
  now rewrite Hc, IHl.
Qed.

Lemma node_eqb_eq (a b : node) : node_eqb a b = true -> a = b.
Proof.
  revert b. induction a as [g r cs IH] using node_ind'.
  intros [g' r' cs']. simpl. intros H.
  apply andb_prop in H as [H Hcs]. apply andb_prop in H as [Hg Hr].
  apply Nat.eqb_eq in Hg, Hr. subst. f_equal.
  revert cs' Hcs.
  induction IH as [|c l Hc _ IHl]; intros [|c' l'] H; try discriminate.
  - reflexivity.
  - apply andb_prop in H as [H1 H2]. f_equal; [now apply Hc | now apply IHl].
Qed.

(** ** Paths *)

Lemma get_at_app (p q : path) (t : node) :
  get_at (p ++ q) t = match get_at p t with
                      | Some n => get_at q n
                      | None => None
                      end.
Proof.
  revert t. induction p as [|i p IH]; intros t; simpl; [reflexivity|].
  destruct (node_children t !! i); [apply IH | reflexivity].
Qed.

Lemma get_at_snoc (p : path) (x : nat) (t n : node) :
  get_at p t = Some n -> get_at (p ++ [x]) t = node_children n !! x.
Proof.
  intros H. rewrite get_at_app, H. simpl.
  destruct (node_children n !! x); reflexivity.
Qed.

Lemma update_at_some (p : path) (f : node -> node) (t n : node) :
  get_at p t = Some n -> exists t', update_at p f t = Some t'.
Proof.
  revert t. induction p as [|i p IH]; intros t H; simpl in *.
  - eauto.
  - destruct t as [g r cs]. simpl in H.
    destruct (cs !! i) as [c|]; [|discriminate].
    destruct (IH _ H) as [c' ->]. eauto.
Qed.

Lemma get_at_update_at (p : path) (f : node -> node) (t t' n : node) :
  get_at p t = Some n -> update_at p f t = Some t' ->
  get_at p t' = Some (f n).
Proof.
  revert t t'. induction p as [|i p IH]; intros t t' H U; simpl in *.
  - congruence.
  - destruct t as [g r cs]. simpl in H.
    destruct (cs !! i) as [c|] eqn:E; [|discriminate].
    destruct (update_at p f c) as [c'|] eqn:Ec; [|discriminate].
    injection U as <-. simpl.
    rewrite list_lookup_insert_eq by (eapply lookup_lt_Some; eauto).
    eauto.
Qed.

Lemma update_at_twice (p : path) (f h : node -> node) (t t1 : node) :
  update_at p f t = Some t1 ->
  update_at p h t1 = update_at p (fun n => h (f n)) t.
Proof.
  revert t t1. induction p as [|i p IH]; intros t t1 U; simpl in *.
  - congruence.
  - destruct t as [g r cs].
    destruct (cs !! i) as [c|] eqn:E; [|discriminate].
    destruct (update_at p f c) as [c'|] eqn:Ec; [|discriminate].
    injection U as <-.
    rewrite list_lookup_insert_eq by (eapply lookup_lt_Some; eauto).
    rewrite (IH _ _ Ec).
    destruct (update_at p (fun n => h (f n)) c); [|reflexivity].
    now rewrite list_insert_insert_eq.
Qed.

Lemma update_at_fix (p : path) (f : node -> node) (t n : node) :
  get_at p t = Some n -> f n = n -> update_at p f t = Some t.
Proof.
  revert t. induction p as [|i p IH]; intros t H Hf; simpl in *.
  - congruence.
  - destruct t as [g r cs]. simpl in H.
    destruct (cs !! i) as [c|] eqn:E; [|discriminate].
    rewrite (IH _ H Hf). now rewrite list_insert_id.
Qed.

(** an edit followed by its undo *)
Lemma update_at_undo (p : path) (f h : node -> node) (t t1 n : node) :
  get_at p t = Some n -> update_at p f t = Some t1 -> h (f n) = n ->
  update_at p h t1 = Some t.
Proof.
  intros H U E. rewrite (update_at_twice _ _ _ _ _ U).
  now apply update_at_fix with (n := n).
Qed.

(** ** [find_probability] raises nothing but [IndexError] *)

Lemma plain_py_index {A} (l : list A) i : plain (py_index l i).
Proof. unfold py_index. destruct (l !! i); exact I. Qed.

Lemma plain_bind {A B} (m : result A) (k : A -> result B) :
  plain m -> (forall a, m = Ok a -> plain (k a)) -> plain (rbind m k).
Proof. destruct m as [a|e|]; simpl; intros H K; [now apply K | exact H | exact H]. Qed.

Lemma plain_repl_at gr g r : plain (repl_at gr g r).
Proof.
  unfold repl_at. apply plain_bind; [apply plain_py_index|].
  intros; apply plain_py_index.
Qed.

Lemma plain_find_probability gr (t : node) : plain (find_probability gr t).
Proof.
  induction t as [g r cs IH] using node_ind'. simpl.
  apply plain_bind; [apply plain_repl_at|]. intros rep _.
  generalize (prob rep).
  induction IH as [|c l Hc _ IHl]; intros q; [exact I|].
  apply plain_bind; [exact Hc|]. intros; apply IHl.
Qed.

(** * Proofs: the in-place deadbeat-dad code computes the functional walk *)

Lemma sbind_ok {S A B} (m : SM S A) (k : A -> SM S B) s a s' :
  m s = (Ok a, s') -> sbind m k s = k a s'.
Proof. unfold sbind. now intros ->. Qed.

Lemma sbind_raise {S A B} (m : SM S A) (k : A -> SM S B) s e s' :
  m s = (Raise e, s') -> sbind m k s = (Raise e, s').
Proof. unfold sbind. now intros ->. Qed.

Lemma sbind_diverge {S A B} (m : SM S A) (k : A -> SM S B) s s' :
  m s = (Diverge, s') -> sbind m k s = (Diverge, s').
Proof. unfold sbind. now intros ->. Qed.

Lemma read_ok p t n : get_at p t = Some n -> read p t = (Ok n, t).
Proof. unfold read. now intros ->. Qed.

Lemma modify_ok p f t t' : update_at p f t = Some t' -> modify p f t = (Ok tt, t').
Proof. unfold modify. now intros ->. Qed.

Lemma visit_order_eq g r cs p :
  visit_order (Node g r cs) p = p :: concat (rev (visit_list p 0 cs)).
Proof.
  simpl. do 3 f_equal. generalize 0.
  induction cs as [|c l IH]; intros i; simpl; [reflexivity|].
  now rewrite IH.
Qed.

Lemma visit_order_length (n : node) (p : path) :
  length (visit_order n p) = node_size n.
Proof.
  revert p. induction n as [g r cs IH] using node_ind'. intros p.
  rewrite visit_order_eq. simpl. f_equal.
  generalize 0. induction IH as [|c l Hc _ IHl]; intros i; simpl; [reflexivity|].
  rewrite concat_app, length_app. simpl. rewrite app_nil_r, Hc, IHl. lia.
Qed.

Lemma visits_child_paths t p n (l : list node) i :
  get_at p t = Some n ->
  (forall j, l !! j = node_children n !! (i + j)) ->
  map (visits t) (child_paths p i (length l)) = visit_list p i l.
Proof.
  intros Hp. revert i. induction l as [|c l IH]; intros i Hl; [reflexivity|].
  simpl. f_equal.
  - unfold visits. rewrite (get_at_snoc _ _ _ _ Hp).
    specialize (Hl 0). rewrite Nat.add_0_r in Hl. now rewrite <- Hl.
  - apply IH. intros j. specialize (Hl (S j)). simpl in Hl.
    now rewrite Hl, Nat.add_succ_r.
Qed.

Lemma stack_visits_children t p g r cs rest :
  get_at p t = Some (Node g r cs) ->
  stack_visits t (p :: rest)
  = p :: stack_visits t (rev (child_paths p 0 (length cs)) ++ rest).
Proof.
  intros Hp. unfold stack_visits. simpl. unfold visits at 1. rewrite Hp.
  rewrite visit_order_eq. simpl. f_equal.
  rewrite map_app, concat_app, map_rev. f_equal.
  now rewrite (visits_child_paths t p _ cs 0 Hp).
Qed.

Lemma child_paths_valid t p n i k :
  get_at p t = Some n -> i + k <= length (node_children n) ->
  Forall (fun q => is_Some (get_at q t)) (child_paths p i k).
Proof.
  intros Hp. revert i. induction k as [|k IH]; intros i Hk; simpl.
  - constructor.
  - constructor; [|apply IH; lia].
    rewrite (get_at_snoc _ _ _ _ Hp). apply lookup_lt_is_Some. lia.
Qed.

Lemma scan_children_fold (p : path) (cs : list node) xs b st :
  fold_left
    (fun (acc : bool * list path) (x : nat) =>
       let '(empty_list_parent, st) := acc in
       let empty_list_parent' :=
         match cs !! x with
         | Some c => if negb (Nat.eqb (node_r c) 0) then false
                     else empty_list_parent
         | None => empty_list_parent
         end in
       (empty_list_parent', (p ++ [x]) :: st)) xs (b, st)
  = (b && forallb (fun x => match cs !! x with
                            | Some c => Nat.eqb (node_r c) 0
                            | None => true
                            end) xs,
     rev (map (fun x => p ++ [x]) xs) ++ st).
Proof.
  revert b st. induction xs as [|x xs IH]; intros b st; simpl.
  - now rewrite andb_true_r.
  - rewrite IH. f_equal.
    + destruct (cs !! x) as [c|]; [|reflexivity].
      destruct (Nat.eqb (node_r c) 0); simpl; [reflexivity|].
      now rewrite andb_false_r.
    + now rewrite <- app_assoc.
Qed.

Lemma forallb_lookup_seq (cs l : list node) i :
  (forall j, l !! j = cs !! (i + j)) ->
  forallb (fun x => match cs !! x with
                    | Some c => Nat.eqb (node_r c) 0
                    | None => true
                    end) (seq i (length l))
  = forallb (fun c => Nat.eqb (node_r c) 0) l.
Proof.
  revert i. induction l as [|c l IH]; intros i Hl; [reflexivity|].
  simpl. f_equal.
  - specialize (Hl 0). rewrite Nat.add_0_r in Hl. now rewrite <- Hl.
  - apply IH. intros j. specialize (Hl (S j)). simpl in Hl.
    now rewrite Hl, Nat.add_succ_r.
Qed.

Lemma scan_children_eq (p : path) (cs : list node) rest :
  scan_children p cs rest
  = (forallb (fun c => Nat.eqb (node_r c) 0) cs,
     rev (child_paths p 0 (length cs)) ++ rest).
Proof.
  unfold scan_children. rewrite scan_children_fold. simpl.
  now rewrite (forallb_lookup_seq cs cs 0).
Qed.

Lemma omap_cons_eq {A B} (f : A -> option B) (x : A) (l : list A) :
  omap f (x :: l) = match f x with
                    | Some y => y :: omap f l
                    | None => omap f l
                    end.
Proof. reflexivity. Qed.

Lemma visits_nonempty t p : is_Some (get_at p t) -> 0 < length (visits t p).
Proof.
  intros [n Hn]. unfold visits. rewrite Hn, visit_order_length.
  destruct n; simpl; lia.
Qed.

Lemma note_tie_eq cpp ppp cp t :
  note_tie cpp ppp cp t = (Ok (note_tie_pure cpp ppp t cp), t).
Proof.
  unfold note_tie, note_tie_pure.
  destruct (Qeq_bool cpp ppp); [|reflexivity].
  destruct cp; reflexivity.
Qed.

(** One probe: edit, evaluate, undo.  [t1] is the edited tree, [k] the rest
    of the loop, which is run on the restored tree. *)
Lemma probe_step gr ppp cp t t1 p (undo : node -> node)
      (k : list node -> SM node (bool * list node)) :
  update_at p undo t1 = Some t ->
  (current_parent_prob <- root_probability gr ;;
   if Qlt_le_dec current_parent_prob ppp then
     modify p undo ;; sret (false, cp)
   else
     childs_parent' <- note_tie current_parent_prob ppp cp ;;
     modify p undo ;;
     k childs_parent')%sm t1
  = match find_probability gr t1 with
    | Ok cpp =>
        if Qlt_le_dec cpp ppp then (Ok (false, cp), t)
        else k (note_tie_pure cpp ppp t1 cp) t
    | Raise e => (Raise e, t1)
    | Diverge => (Diverge, t1)
    end.
Proof.
  intros U. unfold sbind at 1. unfold root_probability.
  destruct (find_probability gr t1) as [cpp|e|]; [|reflexivity|reflexivity].
  destruct (Qlt_le_dec cpp ppp).
  - rewrite (sbind_ok _ _ _ _ _ (modify_ok _ _ _ _ U)). reflexivity.
  - rewrite (sbind_ok _ _ _ _ _ (note_tie_eq _ _ _ _)).
    rewrite (sbind_ok _ _ _ _ _ (modify_ok _ _ _ _ U)). reflexivity.
Qed.

Lemma dd_loop_spec gr ppp :
  forall fuel stack cp t,
    Forall (fun p => is_Some (get_at p t)) stack ->
    length (stack_visits t stack) <= fuel ->
    exists t',
      dd_loop gr fuel stack ppp cp t
      = (dd_scan gr (omap (probe t) (stack_visits t stack)) ppp cp, t')
      /\ (forall v, dd_scan gr (omap (probe t) (stack_visits t stack)) ppp cp
                    = Ok v -> t' = t).
Proof.
  induction fuel as [|fuel IH]; intros stack cp t Hv Hf.
  - destruct stack as [|p rest].
    + exists t. split; [reflexivity|auto].
    + exfalso. inversion Hv as [|? ? Hp _]; subst.
      apply visits_nonempty in Hp. unfold stack_visits in Hf. simpl in Hf.
      rewrite length_app in Hf. lia.
  - destruct stack as [|p rest].
    + exists t. split; [reflexivity|auto].
    + inversion Hv as [|? ? Hp Hrest]; subst.
      destruct Hp as [n Hn].
      cbn [dd_loop]. rewrite (sbind_ok _ _ _ _ _ (read_ok _ _ _ Hn)).
      destruct n as [g r cs]. cbn [node_children node_r].
      destruct (Nat.eqb (length cs) 0) eqn:Elen.
      * (* a childless node *)
        apply Nat.eqb_eq in Elen. apply length_zero_iff_nil in Elen. subst cs.
        assert (Hsv : stack_visits t (p :: rest) = p :: stack_visits t rest).
        { unfold stack_visits. simpl. unfold visits at 1. now rewrite Hn. }
        rewrite Hsv in *. simpl in Hf.
        rewrite !omap_cons_eq.
        assert (Hpr : probe t p = if negb (Nat.eqb r 0)
                                  then update_at p decr_node t else None).
        { unfold probe. now rewrite Hn. }
        rewrite Hpr. clear Hpr.
        destruct (negb (Nat.eqb r 0)) eqn:Er.
        -- destruct (update_at_some p decr_node _ _ Hn) as [t1 Ht1].
           rewrite Ht1.
           assert (U : update_at p incr_node t1 = Some t).
           { eapply update_at_undo; eauto. unfold incr_node, decr_node. simpl.
             apply negb_true_iff, Nat.eqb_neq in Er. f_equal. lia. }
           unfold decr_r. rewrite (sbind_ok _ _ _ _ _ (modify_ok _ _ _ _ Ht1)).
           unfold incr_r.
           rewrite (probe_step gr ppp cp t t1 p _
                      (fun c => dd_loop gr fuel rest ppp c) U).
           cbn [dd_scan]. destruct (find_probability gr t1) as [cpp|e|]; simpl.
           ++ destruct (Qlt_le_dec cpp ppp).
              ** exists t. split; [reflexivity|auto].
              ** apply IH; [assumption|lia].
           ++ exists t1. split; [reflexivity|discriminate].
           ++ exists t1. split; [reflexivity|discriminate].
        -- apply IH; [assumption|lia].
      * (* a node with children *)
        rewrite scan_children_eq.
        rewrite (stack_visits_children _ _ _ _ _ rest Hn) in *. simpl in Hf.
        set (stack' := rev (child_paths p 0 (length cs)) ++ rest) in *.
        assert (Hv' : Forall (fun q => is_Some (get_at q t)) stack').
        { apply Forall_app. split; [|assumption].
          apply Forall_rev. eapply child_paths_valid; eauto. }
        rewrite !omap_cons_eq.
        assert (Hpr : probe t p
                      = if forallb (fun c => Nat.eqb (node_r c) 0) cs
                        then update_at p (with_children []) t else None).
        { unfold probe. rewrite Hn. cbn [node_children]. now rewrite Elen. }
        rewrite Hpr. clear Hpr.
        destruct (forallb (fun c => Nat.eqb (node_r c) 0) cs) eqn:Eall.
        -- destruct (update_at_some p (with_children []) _ _ Hn) as [t1 Ht1].
           rewrite Ht1.
           assert (U : update_at p (with_children cs) t1 = Some t).
           { eapply update_at_undo; eauto. }
           unfold set_children.
           rewrite (sbind_ok _ _ _ _ _ (modify_ok _ _ _ _ Ht1)).
           rewrite (probe_step gr ppp cp t t1 p _
                      (fun c => dd_loop gr fuel stack' ppp c) U).
           cbn [dd_scan]. destruct (find_probability gr t1) as [cpp|e|]; simpl.
           ++ destruct (Qlt_le_dec cpp ppp).
              ** exists t. split; [reflexivity|auto].
              ** apply IH; [assumption|lia].
           ++ exists t1. split; [reflexivity|discriminate].
           ++ exists t1. split; [reflexivity|discriminate].
        -- apply IH; [assumption|lia].
Qed.

(** * Proofs: [find_children_dd] and [deadbeat_dad] *)

Lemma refines_ret {A} (a : A) t : refines (sret a) t (Ok a).
Proof. exists t. split; [reflexivity|auto]. Qed.

Lemma refines_slift {A} (r : result A) t : refines (slift r) t r.
Proof. exists t. split; [reflexivity|auto]. Qed.

Lemma refines_bind {A B} (m : SM node A) (k : A -> SM node B) t r k' :
  refines m t r ->
  (forall a, r = Ok a -> refines (k a) t (k' a)) ->
  refines (sbind m k) t (rbind r k').
Proof.
  intros (t' & Hm & Ht') Hk. destruct r as [a|e|]; simpl.
  - specialize (Hk a eq_refl). unfold refines in *.
    rewrite (sbind_ok _ _ _ _ _ Hm). now rewrite (Ht' a eq_refl).
  - exists t'. rewrite (sbind_raise _ _ _ _ _ Hm). split; [reflexivity|discriminate].
  - exists t'. rewrite (sbind_diverge _ _ _ _ Hm). split; [reflexivity|discriminate].
Qed.

Lemma dd_is_my_child_refines gr ppp cp t :
  refines (dd_is_my_child gr ppp cp) t (dd_scan gr (dd_candidates t) ppp cp).
Proof.
  unfold dd_is_my_child, refines.
  rewrite (sbind_ok sget _ t t t eq_refl).
  destruct (dd_loop_spec gr ppp (node_size t) [[]] cp t) as (t' & H1 & H2).
  - constructor; [|constructor]. simpl. eauto.
  - unfold stack_visits, visits. simpl. rewrite app_nil_r.
    now rewrite visit_order_length.
  - assert (E : stack_visits t [[]] = visit_order t []).
    { unfold stack_visits, visits. simpl. now rewrite app_nil_r. }
    rewrite E in *. exists t'. split; assumption.
Qed.

Lemma emit_if_mine_refines t c p edit undo cp acc :
  update_at p edit t = Some c -> update_at p undo c = Some t ->
  refines (emit_if_mine cp (modify p edit) (modify p undo) acc) t
          (emit_if_mine_pure t c cp acc).
Proof.
  intros He Hu. unfold emit_if_mine, emit_if_mine_pure, refines.
  rewrite (sbind_ok sget _ t t t eq_refl).
  destruct cp as [|cp0 cp].
  - exists t. split; [reflexivity|discriminate].
  - destruct (node_eqb t cp0).
    + rewrite (sbind_ok _ _ _ _ _ (modify_ok _ _ _ _ He)).
      rewrite (sbind_ok sget _ c c c eq_refl).
      rewrite (sbind_ok _ _ _ _ _ (modify_ok _ _ _ _ Hu)).
      exists t. split; [reflexivity|auto].
    + exists t. split; [reflexivity|auto].
Qed.

(** One candidate edit, tried in place and undone. *)
Lemma try_edit_refines gr pp t p n edit undo acc :
  get_at p t = Some n -> undo (edit n) = n ->
  refines
    (modify p edit ;;
     is_mine <- dd_is_my_child gr pp [] ;;
     modify p undo ;;
     if fst is_mine
     then emit_if_mine (snd is_mine) (modify p edit) (modify p undo) acc
     else sret acc)%sm
    t (try_edit gr t (update_at p edit t) pp acc).
Proof.
  intros Hn Hun.
  destruct (update_at_some p edit _ _ Hn) as [c Hc]. rewrite Hc.
  pose proof (update_at_undo _ _ _ _ _ _ Hn Hc Hun) as Hu.
  unfold refines. rewrite (sbind_ok _ _ _ _ _ (modify_ok _ _ _ _ Hc)).
  destruct (dd_is_my_child_refines gr pp [] c) as (c' & H1 & H2).
  unfold try_edit.
  destruct (dd_scan gr (dd_candidates c) pp []) as [v|e|]; simpl.
  - rewrite (sbind_ok _ _ _ _ _ H1). rewrite (H2 v eq_refl).
    rewrite (sbind_ok _ _ _ _ _ (modify_ok _ _ _ _ Hu)).
    destruct (fst v).
    + now apply emit_if_mine_refines.
    + exists t. split; [reflexivity|auto].
  - rewrite (sbind_raise _ _ _ _ _ H1). exists c'. split; [reflexivity|discriminate].
  - rewrite (sbind_diverge _ _ _ _ H1). exists c'. split; [reflexivity|discriminate].
Qed.

Lemma find_children_dd_refines gr pp :
  forall n fuel p acc t,
    get_at p t = Some n -> node_size n <= fuel ->
    refines (find_children_dd gr fuel p pp acc) t
            (dd_children_at gr t pp n p acc).
Proof.
  induction n as [g r cs IH] using node_ind'.
  intros fuel p acc t Hn Hf.
  destruct fuel as [|fuel]; [simpl in Hf; lia|].
  cbn [find_children_dd dd_children_at].
  unfold refines. rewrite (sbind_ok _ _ _ _ _ (read_ok _ _ _ Hn)).
  cbn [node_children node_g node_r].
  destruct (Nat.eqb (length cs) 0) eqn:Elen.
  - apply Nat.eqb_eq, length_zero_iff_nil in Elen. subst cs.
    apply refines_bind; [apply refines_slift|]. intros nt _.
    apply refines_bind.
    { destruct (Nat.ltb (r + 1) (length (replacements nt))).
      - unfold incr_r, decr_r.
        apply (try_edit_refines gr pp t p _ incr_node decr_node acc Hn).
        unfold incr_node, decr_node. simpl. f_equal. lia.
      - apply refines_ret. }
    intros l1 _.
    apply refines_bind; [apply refines_slift|]. intros rep0 _.
    destruct (negb (is_terminal rep0)); [|apply refines_ret].
    unfold refines. rewrite (sbind_ok _ _ _ _ _ (read_ok _ _ _ Hn)).
    cbn [node_r].
    apply refines_bind; [apply refines_slift|]. intros rep _.
    unfold set_children.
    apply (try_edit_refines gr pp t p _ (with_children _) (with_children [])
             l1 Hn).
    reflexivity.
  - (* recursion into the children *)
    assert (Hgen : forall l i acc0,
               (forall j, l !! j = cs !! (i + j)) ->
               refines
                 ((fix loop (xs : list nat) (acc : list node) {struct xs}
                     : SM node (list node) :=
                     match xs with
                     | [] => sret acc
                     | x :: xs' =>
                         (acc' <- find_children_dd gr fuel (p ++ [x]) pp acc ;;
                          loop xs' acc')%sm
                     end) (seq i (length l)) acc0)
                 t
                 ((fix loop (i : nat) (l : list node) (acc : list node)
                     {struct l} : result (list node) :=
                     match l with
                     | [] => Ok acc
                     | c :: l' =>
                         (acc' <- dd_children_at gr t pp c (p ++ [i]) acc ;;
                          loop (S i) l' acc')%res
                     end) i l acc0)).
    { intros l. induction l as [|c l IHl]; intros i acc0 Hl.
      - apply refines_ret.
      - cbn [length seq]. apply refines_bind.
        + assert (Hc : cs !! i = Some c).
          { specialize (Hl 0). rewrite Nat.add_0_r in Hl. now rewrite <- Hl. }
          apply (Forall_lookup_1 _ _ _ _ IH Hc).
          * rewrite (get_at_snoc _ _ _ _ Hn). exact Hc.
          * simpl in Hf.
            assert (node_size c <= list_sum (map node_size cs)); [|lia].
            clear -Hc. revert i Hc. induction cs as [|c0 cs IHcs]; intros i Hc.
            -- discriminate.
            -- destruct i; simpl in *.
               ++ injection Hc as ->. lia.
               ++ specialize (IHcs _ Hc). lia.
        + intros acc' _. apply IHl. intros j. specialize (Hl (S j)).
          simpl in Hl. now rewrite Hl, Nat.add_succ_r. }
    apply (Hgen cs 0 acc). intros j. reflexivity.
Qed.

(** * Theorems on the deadbeat-dad successor function *)

Lemma deadbeat_dad_refines gr pt parent_prob :
  exists pt',
    deadbeat_dad gr pt parent_prob = (deadbeat_dad_pure gr pt parent_prob, pt')
    /\ (forall v, deadbeat_dad_pure gr pt parent_prob = Ok v -> pt' = pt).
Proof.
  unfold deadbeat_dad, deadbeat_dad_pure.
  destruct (match parent_prob with
            | Some p => Ok p
            | None => find_probability gr pt
            end) as [pp|e|]; simpl.
  - apply (find_children_dd_refines gr pp pt (node_size pt) [] [] pt);
      [reflexivity|lia].
  - exists pt. split; [reflexivity|discriminate].
  - exists pt. split; [reflexivity|discriminate].
Qed.

(** ** No divergence: the fuel given to the loops is enough *)

Lemma plain_dd_scan gr cands pp cp : plain (dd_scan gr cands pp cp).
Proof.
  revert cp. induction cands as [|q cands IH]; intros cp; simpl; [exact I|].
  apply plain_bind; [apply plain_find_probability|]. intros cpp _.
  destruct (Qlt_le_dec cpp pp); [exact I|apply IH].
Qed.

Lemma plain_try_edit gr t c pp acc : plain (try_edit gr t (Some c) pp acc).
Proof.
  unfold try_edit. apply plain_bind; [apply plain_dd_scan|]. intros v _.
  destruct (fst v); [|exact I].
  unfold emit_if_mine_pure. destruct (snd v); [exact I|].
  destruct (node_eqb t n); exact I.
Qed.

Lemma plain_dd_children_at gr t pp :
  forall n p acc, get_at p t = Some n -> plain (dd_children_at gr t pp n p acc).
Proof.
  induction n as [g r cs IH] using node_ind'. intros p acc Hn.
  cbn [dd_children_at].
  destruct (Nat.eqb (length cs) 0) eqn:Elen.
  - apply plain_bind; [apply plain_py_index|]. intros nt _.
    apply plain_bind.
    { destruct (Nat.ltb (r + 1) (length (replacements nt))); [|exact I].
      destruct (update_at_some p incr_node _ _ Hn) as [c ->].
      apply plain_try_edit. }
    intros l1 _. apply plain_bind; [apply plain_py_index|]. intros rep0 _.
    destruct (negb (is_terminal rep0)); [|exact I].
    apply plain_bind; [apply plain_py_index|]. intros rep _.
    destruct (update_at_some p (with_children (map (fun x => Node x 0 []) (pos rep)))
                _ _ Hn) as [c ->].
    apply plain_try_edit.
  - assert (Hgen : forall l i acc0,
               (forall j, l !! j = cs !! (i + j)) ->
               plain ((fix loop (i : nat) (l : list node) (acc : list node)
                         {struct l} : result (list node) :=
                         match l with
                         | [] => Ok acc
                         | c :: l' =>
                             (acc' <- dd_children_at gr t pp c (p ++ [i]) acc ;;
                              loop (S i) l' acc')%res
                         end) i l acc0)).
    { intros l. induction l as [|c l IHl]; intros i acc0 Hl; [exact I|].
      apply plain_bind.
      - assert (Hc : cs !! i = Some c).
        { specialize (Hl 0). rewrite Nat.add_0_r in Hl. now rewrite <- Hl. }
        apply (Forall_lookup_1 _ _ _ _ IH Hc).
        rewrite (get_at_snoc _ _ _ _ Hn). exact Hc.
      - intros acc' _. apply IHl. intros j. specialize (Hl (S j)).
        simpl in Hl. now rewrite Hl, Nat.add_succ_r. }
    apply (Hgen cs 0 acc). intros j. reflexivity.
Qed.

Lemma plain_deadbeat_dad_pure gr pt parent_prob :
  plain (deadbeat_dad_pure gr pt parent_prob).
Proof.
  unfold deadbeat_dad_pure. apply plain_bind.
  - destruct parent_prob; [exact I|apply plain_find_probability].
  - intros pp _. now apply plain_dd_children_at.
Qed.

(** ** What a successful scan of the candidate parents means *)

Lemma dd_scan_keeps gr cands pp cp0 cp b cp' :
  dd_scan gr cands pp (cp0 :: cp) = Ok (b, cp') -> cp' = cp0 :: cp.
Proof.
  revert cp0 cp. induction cands as [|q cands IH]; intros cp0 cp H; simpl in H.
  - congruence.
  - destruct (find_probability gr q) as [cpp|e|]; simpl in H; try discriminate.
    destruct (Qlt_le_dec cpp pp); [congruence|].
    unfold note_tie_pure in H. destruct (Qeq_bool cpp pp); eauto.
Qed.

Lemma dd_scan_all_ge gr cands pp cp cp' :
  dd_scan gr cands pp cp = Ok (true, cp') ->
  forall q, In q cands ->
            exists pq, find_probability gr q = Ok pq /\ (pp <= pq)%Q.
Proof.
  revert cp. induction cands as [|q0 cands IH]; intros cp H q Hq; simpl in *.
  - contradiction.
  - destruct (find_probability gr q0) as [cpp|e|] eqn:E; simpl in H;
      try discriminate.
    destruct (Qlt_le_dec cpp pp) as [|Hge]; [discriminate|].
    destruct Hq as [<-|Hq]; [eauto|]. eapply IH; eauto.
Qed.

Lemma dd_scan_first_tie gr cands pp cp0 rest :
  dd_scan gr cands pp [] = Ok (true, cp0 :: rest) ->
  exists pre post pq,
    cands = pre ++ cp0 :: post /\ rest = [] /\
    find_probability gr cp0 = Ok pq /\ (pq == pp)%Q /\
    forall q, In q pre ->
              exists pq', find_probability gr q = Ok pq' /\ ~ (pq' == pp)%Q.
Proof.
  induction cands as [|q0 cands IH]; intros H; simpl in H.
  - discriminate.
  - destruct (find_probability gr q0) as [cpp|e|] eqn:E; simpl in H;
      try discriminate.
    destruct (Qlt_le_dec cpp pp) as [|Hge]; [discriminate|].
    unfold note_tie_pure in H. destruct (Qeq_bool cpp pp) eqn:Etie.
    + apply dd_scan_keeps in H. injection H as -> ->.
      rewrite copy_node_id in *.
      exists [], cands, cpp. repeat split; auto.
      * now apply Qeq_bool_iff.
      * intros q [].
    + destruct (IH H) as (pre & post & pq & -> & -> & Hp & Hpq & Hpre).
      exists (q0 :: pre), post, pq. repeat split; auto.
      intros q [<-|Hq]; [|auto].
      exists cpp. split; [assumption|].
      intros Heq. apply Qeq_bool_iff in Heq. congruence.
Qed.

Lemma try_edit_emits gr t oc pp acc l :
  try_edit gr t oc pp acc = Ok l ->
  l = acc \/ exists c, oc = Some c /\ l = acc ++ [c] /\ emitted gr t pp c.
Proof.
  unfold try_edit. destruct oc as [c|]; [|discriminate].
  destruct (dd_scan gr (dd_candidates c) pp []) as [[b cp]|e|] eqn:E; simpl;
    try discriminate.
  destruct b; [|intros [= <-]; now left].
  unfold emit_if_mine_pure. destruct cp as [|cp0 cp]; [discriminate|].
  destruct (node_eqb t cp0) eqn:Eeq; intros [= <-]; [|now left].
  apply node_eqb_eq in Eeq. subst cp0. right. exists c.
  rewrite copy_node_id. repeat split. now exists cp.
Qed.

Lemma dd_children_at_emits gr t pp :
  forall n p acc l,
    dd_children_at gr t pp n p acc = Ok l ->
    exists extra, l = acc ++ extra /\ Forall (emitted gr t pp) extra.
Proof.
  induction n as [g r cs IH] using node_ind'. intros p acc l.
  cbn [dd_children_at].
  destruct (Nat.eqb (length cs) 0) eqn:Elen.
  - destruct (py_index gr g) as [nt|e|]; simpl; try discriminate.
    set (first := if Nat.ltb (r + 1) (length (replacements nt)) then _ else _).
    destruct first as [l1|e|] eqn:E1; simpl; try discriminate.
    assert (H1 : exists extra, l1 = acc ++ extra /\ Forall (emitted gr t pp) extra).
    { subst first. destruct (Nat.ltb (r + 1) (length (replacements nt))).
      - apply try_edit_emits in E1 as [->|(c & _ & -> & Hc)].
        + exists []. now rewrite app_nil_r.
        + exists [c]. split; [reflexivity|]. now constructor.
      - injection E1 as <-. exists []. now rewrite app_nil_r. }
    destruct H1 as (ex1 & -> & Hex1).
    destruct (py_index (replacements nt) 0) as [rep0|e|]; simpl; try discriminate.
    destruct (negb (is_terminal rep0)).
    + destruct (py_index (replacements nt) r) as [rep|e|]; simpl; try discriminate.
      intros H. apply try_edit_emits in H as [->|(c & _ & -> & Hc)].
      * eauto.
      * exists (ex1 ++ [c]). rewrite app_assoc. split; [reflexivity|].
        apply Forall_app. split; [assumption|]. now constructor.
    + intros [= <-]. eauto.
  - assert (Hgen : forall l0 i acc0 l1,
               Forall (fun c => forall p acc l,
                           dd_children_at gr t pp c p acc = Ok l ->
                           exists extra, l = acc ++ extra /\
                                         Forall (emitted gr t pp) extra) l0 ->
               (fix loop (i : nat) (l : list node) (acc : list node)
                  {struct l} : result (list node) :=
                  match l with
                  | [] => Ok acc
                  | c :: l' =>
                      (acc' <- dd_children_at gr t pp c (p ++ [i]) acc ;;
                       loop (S i) l' acc')%res
                  end) i l0 acc0 = Ok l1 ->
               exists extra, l1 = acc0 ++ extra /\
                             Forall (emitted gr t pp) extra).
    { intros l0. induction l0 as [|c l0 IHl]; intros i acc0 l1 Hall H.
      - injection H as <-. exists []. now rewrite app_nil_r.
      - inversion Hall as [|? ? Hc Hall']; subst.
        destruct (dd_children_at gr t pp c (p ++ [i]) acc0) as [acc'|e|] eqn:E;
          simpl in H; try discriminate.
        apply Hc in E as (ex1 & -> & Hex1).
        apply IHl in H as (ex2 & -> & Hex2); [|assumption].
        exists (ex1 ++ ex2). rewrite app_assoc. split; [reflexivity|].
        apply Forall_app. now split. }
    apply Hgen. exact IH.
Qed.

(** * Claims on [start_index] and on the terminal expander *)

Lemma start_index_last_only (gr : grammar) :
  start_index gr
  = match last gr with
    | Some nt => if String.eqb (type nt) "START"
                 then (Z.of_nat (length gr) - 1)%Z else (-1)%Z
    | None => (-1)%Z
    end.
Proof.
  unfold start_index.
  destruct gr as [|nt0 gr']; [reflexivity|].
  cbn [length Nat.eqb].
  destruct (last (nt0 :: gr')) as [nt|]; [|reflexivity].
  destruct (String.eqb (type nt) "START"); [reflexivity|].
  assert (H : forall xs : list nat, for_first xs (fun _ => false) = None).
  { induction xs as [|x xs IH]; [reflexivity|exact IH]. }
  now rewrite H.
Qed.

(** C7 fails on the code.  [start_first_grammar] has exactly one START
    non-terminal, at index 0, and [start_index] returns -1: the fallback
    loop tests the last non-terminal again at every index. *)
Theorem start_index_misses_start_that_is_not_last :
  grammar_ok start_first_grammar = true /\
  map type start_first_grammar = ["START"%string; "D"%string] /\
  start_index start_first_grammar = (-1)%Z.
Proof. vm_compute. repeat split; reflexivity. Qed.

(** C8 fails on the code.  On [flat_grammar] (one Transparent node over
    two Copy children) [list_terminals] yields the Cartesian concatenation
    in child order.  On [nested_grammar], with a Transparent node below the
    Transparent root: the derivation START -> (X -> L) D raises TypeError
    instead of yielding cat1 cat2 dog1 dog2; and the derivation
    START -> (X -> L) yields a list holding the list of words, which grows
    at the second call because the nested node appends to the shared default
    argument of [expand_terminals]. *)
Theorem list_terminals_breaks_below_a_nested_transparent :
  shown flat_grammar
    (list_terminals flat_grammar (Node 2 0 [Node 0 0 []; Node 1 0 []])
       empty_store)
  = Ok (TList [TStr "cat1"; TStr "cat2"; TStr "dog1"; TStr "dog2"]) /\
  grammar_ok nested_grammar = true /\
  find_is_terminal nested_grammar
    (Node 3 0 [Node 2 0 [Node 0 0 []]; Node 1 0 []]) = Ok true /\
  shown nested_grammar
    (list_terminals nested_grammar
       (Node 3 0 [Node 2 0 [Node 0 0 []]; Node 1 0 []]) empty_store)
  = Raise TypeError /\
  let pt := Node 3 1 [Node 2 0 [Node 0 0 []]] in
  let first_call := list_terminals nested_grammar pt empty_store in
  let second_call := list_terminals nested_grammar pt (snd first_call) in
  find_is_terminal nested_grammar pt = Ok true /\
  shown nested_grammar first_call
  = Ok (TList [TList [TStr "cat"; TStr "dog"]]) /\
  shown nested_grammar second_call
  = Ok (TList [TList [TStr "cat"; TStr "dog"];
               TList [TStr "cat"; TStr "dog"]]).
Proof. vm_compute. repeat split; reflexivity. Qed.

(** * The Capitalization branch of [expand_terminals] *)

Lemma sfold_ext {S A B} (xs : list A) (f h : B -> A -> SM S B) (acc : B) s :
  (forall a x s', In x xs -> f a x s' = h a x s') ->
  sfold xs acc f s = sfold xs acc h s.
Proof.
  revert acc s. induction xs as [|x xs IH]; intros acc s E; simpl; [reflexivity|].
  unfold sbind. rewrite (E acc x s) by (left; reflexivity).
  destruct (h acc x s) as [[a|e|] s']; try reflexivity.
  apply IH. intros; apply E. now right.
Qed.

Lemma sfold_map {S A A' B} (g : A' -> A) (xs : list A')
      (f : B -> A -> SM S B) (acc : B) s :
  sfold (map g xs) acc f s = sfold xs acc (fun a x => f a (g x)) s.
Proof.
  revert acc s. induction xs as [|x xs IH]; intros acc s; simpl; [reflexivity|].
  unfold sbind. destruct (f acc (g x) s) as [[a|e|] s']; try reflexivity.
  apply IH.
Qed.

Lemma py_getitem_str_0 gr c s st :
  py_getitem gr (VStr (String c s)) 0 st = (Ok (VStr (String c EmptyString)), st).
Proof. reflexivity. Qed.

Lemma py_getitem_str_S gr c s i st :
  py_getitem gr (VStr (String c s)) (S i) st = py_getitem gr (VStr s) i st.
Proof. reflexivity. Qed.

Lemma append_empty_r (s : string) : (s ++ "")%string = s.
Proof. induction s; simpl; [reflexivity|]. now f_equal. Qed.

Lemma append_assoc_1 (s : string) (c : ascii) (s' : string) :
  ((s ++ String c "") ++ s')%string = (s ++ String c s')%string.
Proof. induction s; simpl; [reflexivity|]. now f_equal. Qed.

Lemma cap_loop gr st :
  forall word rule acc,
    String.length word <= String.length rule ->
    sfold (seq 0 (String.length word)) (VStr acc)
          (capitalize_letter gr (VStr rule) (VStr word)) st
    = (Ok (VStr (acc ++ apply_mask rule word)), st).
Proof.
  induction word as [|c word IH]; intros rule acc Hlen.
  - simpl. unfold sret. now rewrite append_empty_r.
  - destruct rule as [|m rule]; [simpl in Hlen; lia|].
    cbn [String.length seq sfold].
    assert (Hstep : capitalize_letter gr (VStr (String m rule)) (VStr (String c word))
                      (VStr acc) 0 st
                    = (Ok (VStr (acc ++ String (if Ascii.eqb m "U"
                                                then char_upper c else c)
                                          EmptyString)), st)).
    { unfold capitalize_letter.
      rewrite (sbind_ok _ _ _ _ _ (py_getitem_str_0 gr m rule st)).
      rewrite (sbind_ok _ _ _ _ _ (py_getitem_str_0 gr c word st)).
      unfold py_is_U. cbn [String.eqb].
      destruct (Ascii.eqb m "U"); reflexivity. }
    rewrite (sbind_ok _ _ _ _ _ Hstep).
    rewrite <- seq_shift, sfold_map.
    rewrite (sfold_ext _ _ (capitalize_letter gr (VStr rule) (VStr word))).
    + rewrite IH by (simpl in Hlen; lia).
      cbn [apply_mask]. now rewrite append_assoc_1.
    + intros a x s' _. reflexivity.
Qed.

Lemma chars_length (s : string) : length (chars s) = String.length s.
Proof. induction s; simpl; [reflexivity|]. now f_equal. Qed.

Lemma capitalize_word_str gr rule word st :
  String.length word <= String.length rule ->
  capitalize_word gr (VStr rule) (VStr word) st
  = (Ok (VStr (apply_mask rule word)), st).
Proof.
  intros Hlen. unfold capitalize_word.
  assert (Hn : py_len gr (VStr word) st = (Ok (String.length word), st)).
  { unfold py_len, py_iter, sbind, sret. now rewrite length_map, chars_length. }
  rewrite (sbind_ok _ _ _ _ _ Hn).
  exact (cap_loop gr st word rule EmptyString Hlen).
Qed.

(** a mask shorter than the word: the index into the mask goes out of
    bounds *)
Lemma capitalize_word_short_mask :
  fst (capitalize_word [] (VStr "UL") (VStr "cat") empty_store)
  = Raise IndexError.
Proof. vm_compute. reflexivity. Qed.

(** position by position *)
Lemma apply_mask_length rule word :
  String.length (apply_mask rule word) = String.length word.
Proof.
  revert rule. induction word as [|c word IH]; intros rule; [reflexivity|].
  destruct rule; simpl; now rewrite IH.
Qed.

Lemma apply_mask_get rule word i c m :
  String.get i word = Some c -> String.get i rule = Some m ->
  String.get i (apply_mask rule word)
  = Some (if Ascii.eqb m "U" then char_upper c else c).
Proof.
  revert rule i. induction word as [|c0 word IH]; intros rule i Hw Hr.
  - discriminate.
  - destruct rule as [|m0 rule]; [discriminate|].
    destruct i as [|i]; simpl in *.
    + now injection Hw as ->; injection Hr as ->.
    + now apply IH.
Qed.

(** ** The store during the Capitalization loops: only the new list
    [temp_combo] changes *)

Lemma contents_with_temp gr l st c temp :
  fst (contents gr l st) = Ok c ->
  contents gr l (with_temp st temp) = (Ok c, with_temp st temp).
Proof.
  destruct l as [|g r|n]; simpl.
  - now intros ->.
  - unfold appended_to. simpl. now intros ->.
  - destruct (heap st !! n) as [c'|] eqn:E; [|discriminate].
    intros [= <-]. now rewrite (lookup_app_l_Some _ _ _ _ E).
Qed.

Lemma append_to_temp st temp v :
  append_to (RFresh (length (heap st))) v (with_temp st temp)
  = (Ok tt, with_temp st (temp ++ [v])).
Proof.
  unfold append_to, with_temp. simpl.
  rewrite list_lookup_middle by reflexivity.
  f_equal. f_equal.
  rewrite <- (Nat.add_0_r (length (heap st))) at 1.
  now rewrite insert_app_r.
Qed.

Lemma words_loop gr st m :
  forall (words : list string) temp,
    (forall w, In w words -> String.length w <= String.length m) ->
    sfor (map VStr words)
      (fun word =>
         (temp_word <- capitalize_word gr (VStr m) word ;;
          append_to (RFresh (length (heap st))) temp_word)%sm)
      (with_temp st temp)
    = (Ok tt, with_temp st (temp ++ map VStr (map (apply_mask m) words))).
Proof.
  unfold sfor.
  induction words as [|w words IH]; intros temp Hlen; simpl.
  - now rewrite app_nil_r.
  - assert (Hstep :
      (temp_word <- capitalize_word gr (VStr m) (VStr w) ;;
       append_to (RFresh (length (heap st))) temp_word)%sm (with_temp st temp)
      = (Ok tt, with_temp st (temp ++ [VStr (apply_mask m w)]))).
    { rewrite (sbind_ok _ _ _ _ _
                 (capitalize_word_str gr m w (with_temp st temp)
                    (Hlen w (or_introl eq_refl)))).
      apply append_to_temp. }
    rewrite (sbind_ok _ _ _ _ _ Hstep).
    rewrite IH by (intros; apply Hlen; now right).
    now rewrite <- app_assoc.
Qed.

Lemma rules_loop gr st working_value (words : list string) :
  fst (contents gr working_value st) = Ok (map VStr words) ->
  forall (masks : list string) temp,
    (forall m w, In m masks -> In w words ->
                 String.length w <= String.length m) ->
    sfor (map VStr masks)
      (fun rule =>
         (ws <- contents gr working_value ;;
          sfor ws (fun word =>
            temp_word <- capitalize_word gr rule word ;;
            append_to (RFresh (length (heap st))) temp_word))%sm)
      (with_temp st temp)
    = (Ok tt,
       with_temp st
         (temp ++ map VStr (flat_map (fun m => map (apply_mask m) words) masks))).
Proof.
  intros Hw. unfold sfor at 1.
  induction masks as [|m masks IH]; intros temp Hlen; simpl.
  - now rewrite app_nil_r.
  - assert (Hstep :
      (ws <- contents gr working_value ;;
       sfor ws (fun word =>
         temp_word <- capitalize_word gr (VStr m) word ;;
         append_to (RFresh (length (heap st))) temp_word))%sm
        (with_temp st temp)
      = (Ok tt, with_temp st (temp ++ map VStr (map (apply_mask m) words)))).
    { rewrite (sbind_ok _ _ _ _ _ (contents_with_temp gr _ st _ temp Hw)).
      apply words_loop. intros; apply Hlen; [now left|assumption]. }
    rewrite (sbind_ok _ _ _ _ _ Hstep).
    rewrite IH by (intros; apply Hlen; [now right|assumption]).
    now rewrite map_app, app_assoc.
Qed.

(** C9 (as amended).  In the Capitalization branch of [expand_terminals],
    when the words are ASCII strings and no mask is shorter than a word (in
    particular when their lengths agree), every mask is applied to every
    word, masks in the outer loop: the result is a new list holding
    [apply_mask m w] for each pair, and position [i] of [apply_mask m w] is
    the upper case of position [i] of [w] exactly when position [i] of [m]
    is ['U'].  No error is raised and no pair is skipped. *)
Theorem capitalization_applies_every_mask_to_every_word
    gr g r cs working_value st rep (words : list string) :
  repl_at gr g r = Ok rep ->
  function rep = "Capitalization"%string ->
  appended_to st g r = [] ->
  fst (contents gr working_value st) = Ok (map VStr words) ->
  forallb ascii_only words = true ->
  (forall m w, In m (values rep) -> In w words ->
               String.length w <= String.length m) ->
  expand_terminals gr (Node g r cs) working_value st
  = (Ok (RFresh (length (heap st))),
     mkStore (default_arg st) (appended st)
       (heap st ++ [map VStr (flat_map (fun m => map (apply_mask m) words)
                                (values rep))]))
  /\ forall m w, In m (values rep) -> In w words ->
       String.length (apply_mask m w) = String.length w /\
       forall i c u, String.get i w = Some c -> String.get i m = Some u ->
         String.get i (apply_mask m w)
         = Some (if Ascii.eqb u "U" then char_upper c else c).
Proof.
  intros Hrep Hfun Happ Hw _ Hlen. split.
  - cbn [expand_terminals]. unfold slift at 1.
    rewrite (sbind_ok (fun s => (repl_at gr g r, s)) _ st rep st)
      by now rewrite Hrep.
    rewrite Hfun. cbn [String.eqb Ascii.eqb Bool.eqb andb].
    rewrite (sbind_ok (alloc []) _ st (RFresh (length (heap st)))
               (with_temp st []) eq_refl).
    assert (Hrules : contents gr (RValues g r) (with_temp st [])
                     = (Ok (map VStr (values rep)), with_temp st [])).
    { simpl. rewrite Hrep. simpl. unfold appended_to in *. simpl.
      now rewrite Happ, app_nil_r. }
    rewrite (sbind_ok _ _ _ _ _ Hrules).
    rewrite (sbind_ok _ _ _ _ _
               (rules_loop gr st working_value words Hw (values rep) [] Hlen)).
    reflexivity.
  - intros m w Hm Hwd. split; [apply apply_mask_length|].
    intros i c u Hc Hu. now apply apply_mask_get.
Qed.

Lemma capitalization_applies_every_mask_to_every_word_witness :
  expand_terminals s1_grammar (Node 0 0 []) (RValues 1 0) empty_store
  = (Ok (RFresh 0), mkStore [] [] [[VStr "Cat"]]).
Proof.
  refine (proj1 (capitalization_applies_every_mask_to_every_word
                   s1_grammar 0 0 [] (RValues 1 0) empty_store
                   (mkRepl true (6 # 10) "Capitalization" ["ULL"%string] [])
                   ["cat"%string] eq_refl eq_refl eq_refl eq_refl eq_refl
                   _)).
  intros m w [<-|[]] [<-|[]]. simpl. lia.
Defined.

(** C9, as the specification words it, fails: in [short_mask_grammar] the
    mask UL is applied to the word cat; the pair is not skipped, the index
    into the mask runs out of bounds at the third letter and IndexError is
    raised. *)
Lemma capitalization_indexes_past_a_short_mask :
  ~ capitalization_skips_length_mismatches.
Proof.
  intros H.
  destruct (H short_mask_grammar 0 0 [] (RValues 1 0) empty_store
              (mkRepl true 1 "Capitalization" ["UL"%string] [])
              ["cat"%string] eq_refl eq_refl eq_refl eq_refl)
    as (l & st' & Hrun & _).
  vm_compute in Hrun. discriminate Hrun.
Qed.

(** * The ranked queue: heap contract and [trim_queue] *)

Lemma ensures_bind {S A B} (m : SM S A) (k : A -> SM S B) s
      (Q : A -> S -> Prop) (P : B -> S -> Prop) :
  ensures m s Q ->
  (forall a s', Q a s' -> ensures (k a) s' P) ->
  ensures (sbind m k) s P.
Proof.
  intros Hm Hk b s2 H. unfold sbind in H.
  destruct (m s) as [[a|e|] s1] eqn:E; try discriminate.
  exact (Hk a s1 (Hm a s1 E) b s2 H).
Qed.

Lemma ensures_ret {S A} (a : A) (s : S) (P : A -> S -> Prop) :
  P a s -> ensures (sret a) s P.
Proof. intros H a' s' [= <- <-]. exact H. Qed.

Lemma ensures_weaken {S A} (m : SM S A) s (P Q : A -> S -> Prop) :
  ensures m s P -> (forall a s', P a s' -> Q a s') -> ensures m s Q.
Proof. intros H HPQ a s' E. apply HPQ, H, E. Qed.

Lemma preserves_bind {S A B} (m : SM S A) (k : A -> SM S B) (I : S -> Prop) :
  preserves m I -> (forall a, preserves (k a) I) -> preserves (sbind m k) I.
Proof.
  intros Hm Hk s Hs. unfold sbind. specialize (Hm s Hs).
  destruct (m s) as [[a|e|] s1]; simpl in *; [now apply Hk|assumption|assumption].
Qed.

Lemma preserves_ret {S A} (a : A) (I : S -> Prop) : preserves (sret a) I.
Proof. intros s Hs. exact Hs. Qed.

Lemma preserves_slift {S A} (r : result A) (I : S -> Prop) :
  preserves (slift r) I.
Proof. intros s Hs. exact Hs. Qed.

Lemma preserves_sraise {S A} e (I : S -> Prop) : preserves (@sraise S A e) I.
Proof. intros s Hs. exact Hs. Qed.

Lemma preserves_sdiverge {S A} (I : S -> Prop) : preserves (@sdiverge S A) I.
Proof. intros s Hs. exact Hs. Qed.

(** ** heappop *)

Lemma item_lt_true y x : item_lt y x = true -> (probability x < probability y)%Q.
Proof. unfold item_lt. destruct (Qlt_le_dec _ _); [auto|discriminate]. Qed.

Lemma item_lt_false y x : item_lt y x = false -> (probability y <= probability x)%Q.
Proof. unfold item_lt. destruct (Qlt_le_dec _ _); [discriminate|auto]. Qed.

Lemma heappop_none h : heappop h = None -> h = [].
Proof.
  destruct h as [|a h]; [reflexivity|]. simpl.
  destruct (heappop h) as [[y t]|]; [|discriminate].
  destruct (item_lt y a); discriminate.
Qed.

Lemma heappop_perm h x t : heappop h = Some (x, t) -> Permutation h (x :: t).
Proof.
  revert x t. induction h as [|a h IH]; intros x t H; simpl in H; [discriminate|].
  destruct (heappop h) as [[y t']|] eqn:E.
  - specialize (IH y t' eq_refl).
    destruct (item_lt y a); injection H as <- <-.
    + rewrite IH. apply perm_swap.
    + reflexivity.
  - injection H as <- <-. apply heappop_none in E. now subst.
Qed.

Lemma heappop_max h x t :
  heappop h = Some (x, t) ->
  forall y, In y h -> (probability y <= probability x)%Q.
Proof.
  revert x t. induction h as [|a h IH]; intros x t H; simpl in H; [discriminate|].
  destruct (heappop h) as [[y t']|] eqn:E.
  - specialize (IH y t' eq_refl).
    destruct (item_lt y a) eqn:Elt; injection H as <- <-.
    + apply item_lt_true in Elt.
      intros z [<-|Hz]; [now apply Qlt_le_weak|auto].
    + apply item_lt_false in Elt.
      intros z [<-|Hz]; [apply Qle_refl|].
      eapply Qle_trans; [apply IH, Hz|exact Elt].
  - injection H as <- <-. apply heappop_none in E. subst.
    intros z [<-|[]]. apply Qle_refl.
Qed.

Lemma heappop_spec h x t :
  heappop h = Some (x, t) ->
  In x h /\ (forall y, In y t -> In y h) /\
  (forall y, In y t -> (probability y <= probability x)%Q) /\
  length h = S (length t).
Proof.
  intros H. pose proof (heappop_perm _ _ _ H) as Hp.
  pose proof (heappop_max _ _ _ H) as Hm.
  assert (Hsub : forall y, In y (x :: t) -> In y h).
  { intros y Hy. eapply Permutation_in; [symmetry; exact Hp|exact Hy]. }
  repeat split.
  - apply Hsub. now left.
  - intros y Hy. apply Hsub. now right.
  - intros y Hy. apply Hm, Hsub. now right.
  - now rewrite (Permutation_length Hp).
Qed.

(** ** The state operations *)

Lemma pop_self_eq q :
  pop_self q
  = match heappop (p_queue q) with
    | Some (x, h) =>
        (Ok x, mkQueue h (max_probability q) (min_probability q)
                 (max_queue_size q) (reduction_size q))
    | None => (Raise IndexError, q)
    end.
Proof.
  unfold pop_self, sbind, sget. destruct (heappop (p_queue q)) as [[x h]|];
    reflexivity.
Qed.

Lemma push_self_eq x q :
  push_self x q
  = (Ok tt, mkQueue (p_queue q ++ [x]) (max_probability q) (min_probability q)
              (max_queue_size q) (reduction_size q)).
Proof. reflexivity. Qed.

(** ** trim_queue *)

Lemma trim_ties_spec fuel :
  forall item keep q,
    ensures (trim_ties fuel item keep) q
      (fun keep' q' =>
         same_params q q' /\
         max_probability q' = max_probability q /\
         min_probability q' = min_probability q /\
         length keep' + length (p_queue q') = length keep + length (p_queue q) /\
         (forall x, In x (p_queue q') -> In x (p_queue q)) /\
         (forall k, In k keep' ->
                    In k keep \/
                    ((In k (p_queue q) \/ k = item) /\
                     (probability k == min_probability q)%Q))).
Proof.
  unfold same_params.
  induction fuel as [|fuel IH]; intros item keep q keep' q' H.
  - discriminate.
  - cbn [trim_ties] in H. unfold sbind at 1 in H. simpl in H.
    destruct (Qeq_bool (probability item) (min_probability q)) eqn:Etie.
    + unfold sbind in H. rewrite pop_self_eq in H.
      destruct (heappop (p_queue q)) as [[y h]|] eqn:Epop; [|discriminate].
      apply IH in H. unfold same_params in *. cbn in H.
      destruct H as ((Hp1 & Hp2) & Hmax & Hmin & Hlen & Hsub & Hkeep).
      destruct (heappop_spec _ _ _ Epop) as (Hy & Hh & _ & Hl).
      repeat split; try assumption.
      * unfold heappush in Hlen. rewrite length_app in Hlen. simpl in Hlen. lia.
      * intros x Hx. auto.
      * intros k Hk. apply Hkeep in Hk as [Hk|[[Hk| -> ] Hq]].
        -- unfold heappush in Hk. apply in_app_or in Hk as [Hk|[<-|[]]]; [now left|].
           right. split; [now right|now apply Qeq_bool_iff].
        -- right. split; [left; auto|assumption].
        -- right. split; [left; assumption|assumption].
    + injection H as <- <-. repeat split; auto.
Qed.

Lemma trim_loop_spec :
  forall n i keep q,
    (0 <= max_queue_size q - reduction_size q)%Z ->
    i + n = Z.to_nat (max_queue_size q - reduction_size q) ->
    (forall k x, In k keep -> In x (p_queue q) ->
                 (probability x <= probability k)%Q) ->
    ensures (trim_loop (seq i n) keep) q
      (fun keep' q' =>
         same_params q q' /\
         max_probability q' = max_probability q /\
         length keep' + length (p_queue q') + (if Nat.eqb n 0 then 0 else 1)
         <= length keep + length (p_queue q) /\
         (forall k, In k keep' -> In k keep \/ In k (p_queue q)) /\
         (n <> 0 -> forall k, In k keep' ->
                              (min_probability q' <= probability k)%Q)).
Proof.
  unfold same_params.
  induction n as [|n IH]; intros i keep q HK Hi Hpre keep' q' H.
  - injection H as <- <-. repeat split; auto; [simpl; lia|congruence].
  - cbn [seq trim_loop] in H. unfold sbind at 1 in H. rewrite pop_self_eq in H.
    destruct (heappop (p_queue q)) as [[x h]|] eqn:Epop; [|discriminate].
    destruct (heappop_spec _ _ _ Epop) as (Hx & Hh & Hmaxx & Hl).
    unfold sbind at 1 in H. cbn [sget max_queue_size reduction_size] in H.
    destruct (Z.eqb (Z.of_nat i) (max_queue_size q - reduction_size q - 1))
      eqn:Especial.
    + (* the last index: the boundary and its ties *)
      apply Z.eqb_eq in Especial. assert (n = 0) by lia. subst n.
      unfold sbind at 1 in H. cbn [set_min_probability] in H.
      unfold sbind at 1 in H. rewrite pop_self_eq in H. cbn [p_queue] in H.
      destruct (heappop h) as [[y h2]|] eqn:Epop2; [|discriminate].
      destruct (heappop_spec _ _ _ Epop2) as (Hy & Hh2 & _ & Hl2).
      unfold sbind at 1 in H. cbn [sget p_queue] in H.
      unfold sbind at 1 in H.
      destruct (trim_ties _ y (heappush keep x) _) as [[keep2|e|] q2] eqn:Eties;
        try discriminate.
      apply trim_ties_spec in Eties. unfold same_params in Eties. cbn in Eties.
      destruct Eties as ((Hp1 & Hp2) & Hmx & Hmn & Hlen & Hsub & Hkeep).
      cbn [seq trim_loop] in H. injection H as <- <-.
      repeat split; try assumption.
      * unfold heappush in Hlen. rewrite length_app in Hlen. simpl in *. lia.
      * intros k Hk. apply Hkeep in Hk as [Hk|[[Hk| ->] _]].
        -- unfold heappush in Hk. apply in_app_or in Hk as [Hk|[<-|[]]]; auto.
        -- right. auto.
        -- right. auto.
      * intros _ k Hk. rewrite Hmn.
        apply Hkeep in Hk as [Hk|[_ Hq]].
        -- unfold heappush in Hk. apply in_app_or in Hk as [Hk|[<-|[]]].
           ++ now apply Hpre.
           ++ apply Qle_refl.
        -- rewrite Hq. apply Qle_refl.
    + (* an earlier index *)
      apply Z.eqb_neq in Especial. assert (n <> 0) by lia.
      apply IH in H.
      * cbn in H. destruct H as ((Hp1 & Hp2) & Hmx & Hlen & Hsub & Hmin).
        repeat split; try assumption.
        -- unfold heappush in Hlen. rewrite length_app in Hlen. simpl in *.
           destruct (Nat.eqb n 0) eqn:En; [apply Nat.eqb_eq in En; lia|]. lia.
        -- intros k Hk. apply Hsub in Hk as [Hk|Hk].
           ++ unfold heappush in Hk. apply in_app_or in Hk as [Hk|[<-|[]]]; auto.
           ++ right. auto.
        -- intros _. now apply Hmin.
      * exact HK.
      * cbn. lia.
      * cbn [p_queue]. intros k z Hk Hz. unfold heappush in Hk.
        apply in_app_or in Hk as [Hk|[<-|[]]]; [apply Hpre; auto|auto].
Qed.

Lemma trim_queue_spec q :
  ensures trim_queue q
    (fun r q' =>
       same_params q q' /\
       max_probability q' = max_probability q /\
       (forall k, In k (p_queue q') -> In k (p_queue q)) /\
       (forall k, In k (p_queue q') -> (min_probability q' <= probability k)%Q) /\
       ((0 <= max_queue_size q < Z.of_nat (length (p_queue q)))%Z ->
        r = STATUS_OK)).
Proof.
  unfold same_params.
  intros r q' H. unfold trim_queue in H. unfold sbind at 1 in H. cbn [sget] in H.
  unfold sbind at 1 in H.
  destruct (trim_loop _ [] q) as [[keep|e|] q1] eqn:Eloop; try discriminate.
  unfold sbind at 1 in H. cbn [set_p_queue] in H. unfold sret in H.
  assert (Hq' : q' = mkQueue keep (max_probability q1) (min_probability q1)
                       (max_queue_size q1) (reduction_size q1)).
  { destruct (Nat.eqb (length (p_queue q)) (length keep));
      now injection H as _ <-. }
  subst q'.
  destruct (Nat.eq_dec (Z.to_nat (max_queue_size q - reduction_size q)) 0)
    as [E0|E0].
  - rewrite E0 in Eloop. injection Eloop as <- <-. cbn.
    repeat split; try (intros k []).
    intros Hsize.
    destruct (Nat.eqb (length (p_queue q)) (length (@nil QueueItem))) eqn:E;
      [|now injection H as <-].
    apply Nat.eqb_eq in E. simpl in E. lia.
  - assert (HK : (0 <= max_queue_size q - reduction_size q)%Z) by lia.
    apply (trim_loop_spec _ 0 [] q HK eq_refl) in Eloop; [|intros k x []].
    unfold same_params in Eloop. cbn in Eloop.
    destruct Eloop as ((Hp1 & Hp2) & Hmx & Hlen & Hsub & Hmin).
    cbn. repeat split; try assumption.
    + intros k Hk. destruct (Hsub k Hk) as [[]|]; assumption.
    + intros k Hk. now apply Hmin.
    + intros Hsize.
      destruct (Nat.eqb (length (p_queue q)) (length keep)) eqn:E;
        [|now injection H as <-].
      apply Nat.eqb_eq in E. exfalso.
      destruct (Nat.eqb (Z.to_nat (max_queue_size q - reduction_size q)) 0)
        eqn:E1; [apply Nat.eqb_eq in E1; lia|].
      simpl in Hlen. lia.
Qed.

(** On a queue larger than a non-negative [max_queue_size], a call of
    [trim_queue] that returns at all returns STATUS_OK: the comparison
    [orig_size == len(keep_list)] is never true there, because leaving the
    tie loop means that an item has been popped and not kept. *)
Lemma trim_queue_never_reports_full q r q' :
  (0 <= max_queue_size q < Z.of_nat (length (p_queue q)))%Z ->
  trim_queue q = (Ok r, q') -> r = STATUS_OK.
Proof.
  intros Hsize H. now apply (trim_queue_spec q r q' H).
Qed.

(** C5 fails on the code.  [tied_queue] holds three items of probability 1/2
    with [max_queue_size = 2] and [reduction_size = 1], so the tie band of
    the boundary is the whole queue.  [trim_queue] does not return
    QUEUE_FULL_ERROR: the tie loop pops from the emptied heap and raises
    IndexError.  The pump meets this on [even_grammar]: the first call of
    [next_function] pushes three children of probability 1/8, trims, and
    ends in the same IndexError. *)
Theorem trim_queue_raises_when_ties_fill_the_queue :
  (max_queue_size tied_queue < Z.of_nat (length (p_queue tied_queue)))%Z /\
  fst (trim_queue tied_queue) = Raise IndexError /\
  grammar_ok even_grammar = true /\
  fst (initialize even_grammar small_queue) = Ok STATUS_OK /\
  fst (next_function even_grammar 10 []
         (snd (initialize even_grammar small_queue))) = Raise IndexError.
Proof. vm_compute. repeat split; reflexivity. Qed.

(** * The ranked queue: [rebuild_queue] *)

(** ** Upper bound, whatever the outcome *)

Lemma preserves_pop_self m : preserves pop_self (bounded_above m).
Proof.
  intros q [Hm Hq]. rewrite pop_self_eq.
  destruct (heappop (p_queue q)) as [[x h]|] eqn:E; [|now split].
  destruct (heappop_spec _ _ _ E) as (_ & Hsub & _). now split; auto.
Qed.

Lemma preserves_set_min m p : preserves (set_min_probability p) (bounded_above m).
Proof. intros q [Hm Hq]. now split. Qed.

Lemma preserves_sget {S} (I : S -> Prop) : preserves sget I.
Proof. intros s Hs. exact Hs. Qed.

Lemma preserves_trim_ties m fuel :
  forall item keep, preserves (trim_ties fuel item keep) (bounded_above m).
Proof.
  induction fuel as [|fuel IH]; intros item keep; [apply preserves_sdiverge|].
  cbn [trim_ties]. apply preserves_bind; [apply preserves_sget|]. intros q.
  destruct (Qeq_bool _ _); [|apply preserves_ret].
  apply preserves_bind; [apply preserves_pop_self|]. intros; apply IH.
Qed.

Lemma preserves_trim_loop m indices :
  forall keep, preserves (trim_loop indices keep) (bounded_above m).
Proof.
  induction indices as [|i indices IH]; intros keep; [apply preserves_ret|].
  cbn [trim_loop]. apply preserves_bind; [apply preserves_pop_self|]. intros x.
  apply preserves_bind; [apply preserves_sget|]. intros q.
  destruct (Z.eqb _ _); [|apply IH].
  apply preserves_bind; [apply preserves_set_min|]. intros _.
  apply preserves_bind; [apply preserves_pop_self|]. intros y.
  apply preserves_bind; [apply preserves_sget|]. intros q'.
  apply preserves_bind; [apply preserves_trim_ties|]. intros; apply IH.
Qed.

Lemma trim_ties_subset fuel :
  forall item keep q,
    ensures (trim_ties fuel item keep) q
      (fun keep' _ => forall k, In k keep' ->
                                In k keep \/ k = item \/ In k (p_queue q)).
Proof.
  intros item keep q keep' q' H. apply trim_ties_spec in H.
  destruct H as (_ & _ & _ & _ & _ & Hk).
  intros k Hin. destruct (Hk k Hin) as [|[[|] _]]; auto.
Qed.

Lemma trim_loop_subset indices :
  forall keep q,
    ensures (trim_loop indices keep) q
      (fun keep' _ => forall k, In k keep' -> In k keep \/ In k (p_queue q)).
Proof.
  induction indices as [|i indices IH]; intros keep q keep' q' H.
  - injection H as <- <-. auto.
  - cbn [trim_loop] in H. unfold sbind at 1 in H. rewrite pop_self_eq in H.
    destruct (heappop (p_queue q)) as [[x h]|] eqn:Epop; [|discriminate].
    destruct (heappop_spec _ _ _ Epop) as (Hx & Hh & _).
    unfold sbind at 1 in H. cbn [sget] in H.
    assert (Hpush : forall k, In k (heappush keep x) ->
                              In k keep \/ In k (p_queue q)).
    { intros k Hk. unfold heappush in Hk.
      apply in_app_or in Hk as [Hk|[<-|[]]]; auto. }
    destruct (Z.eqb _ _).
    + unfold sbind at 1 in H. cbn [set_min_probability] in H.
      unfold sbind at 1 in H. rewrite pop_self_eq in H. cbn [p_queue] in H.
      destruct (heappop h) as [[y h2]|] eqn:Epop2; [|discriminate].
      destruct (heappop_spec _ _ _ Epop2) as (Hy & Hh2 & _).
      unfold sbind at 1 in H. cbn [sget] in H. unfold sbind at 1 in H.
      destruct (trim_ties _ y (heappush keep x) _) as [[keep2|e|] q2] eqn:Eties;
        try discriminate.
      pose proof (trim_ties_spec _ _ _ _ _ _ Eties)
        as (_ & _ & _ & _ & Hsub2 & _).
      apply trim_ties_subset in Eties. cbn [p_queue] in Eties, Hsub2.
      apply IH in H. intros k Hk.
      destruct (H k Hk) as [Hk2|Hk2].
      * destruct (Eties k Hk2) as [Hk3|[->|Hk3]]; auto.
      * right. auto.
    + apply IH in H. cbn [p_queue] in H. intros k Hk.
      destruct (H k Hk) as [Hk2|Hk2]; auto.
Qed.

Lemma preserves_trim_queue m : preserves trim_queue (bounded_above m).
Proof.
  intros q Hq. unfold trim_queue, sbind at 1. cbn [sget].
  unfold sbind at 1.
  pose proof (preserves_trim_loop m
                (seq 0 (Z.to_nat (max_queue_size q - reduction_size q))) [] q Hq)
    as Hloop.
  destruct (trim_loop _ [] q) as [[keep|e|] q1] eqn:Eloop; simpl in Hloop;
    [|exact Hloop|exact Hloop].
  apply trim_loop_subset in Eloop.
  assert (Hfinal : bounded_above m
                     (mkQueue keep (max_probability q1) (min_probability q1)
                        (max_queue_size q1) (reduction_size q1))).
  { destruct Hloop as [Hm _]. destruct Hq as [_ Hq]. split; [exact Hm|].
    intros x Hx. destruct (Eloop x Hx) as [[]|Hx']. now apply Hq. }
  unfold sbind, set_p_queue. destruct (Nat.eqb _ _); exact Hfinal.
Qed.

Lemma preserves_trim_if_too_large m :
  preserves trim_if_too_large (bounded_above m).
Proof.
  unfold trim_if_too_large. apply preserves_bind; [apply preserves_sget|].
  intros q. destruct (Z.ltb _ _); [|apply preserves_ret].
  apply preserves_bind; [apply preserves_trim_queue|]. intros; apply preserves_ret.
Qed.

Lemma preserves_rebuild_from_max gr q_item m :
  preserves (rebuild_from_max gr q_item) (bounded_above m).
Proof.
  intros q Hq. unfold rebuild_from_max, sbind at 1. cbn [sget].
  destruct (Qle_bool (probability q_item) (max_probability q)) eqn:Ele;
    [|exact Hq].
  unfold sbind at 1, slift.
  destruct (some_parent_below _ _ _) as [covered|e|]; [|exact Hq|exact Hq].
  destruct covered; [exact Hq|].
  destruct (Qle_bool (min_probability q) (probability q_item)); [|exact Hq].
  unfold sbind. rewrite push_self_eq. cbn.
  destruct Hq as [Hm Hq]. split; [exact Hm|]. cbn.
  intros x Hx. apply in_app_or in Hx as [Hx|[<-|[]]]; [auto|].
  apply Qle_bool_iff in Ele. now rewrite <- Hm.
Qed.

Lemma preserves_rebuild_loop gr m fuel :
  forall rebuild_list,
    preserves (rebuild_loop gr fuel rebuild_list) (bounded_above m).
Proof.
  induction fuel as [|fuel IH]; intros [|q_item rest]; cbn [rebuild_loop];
    try apply preserves_ret; try apply preserves_sdiverge.
  apply preserves_bind; [apply preserves_rebuild_from_max|]. intros ret_list.
  apply preserves_bind; [apply preserves_trim_if_too_large|]. intros _.
  apply IH.
Qed.

(** ** Lower bound, when the rebuild returns *)

Lemma ensures_trim_if_too_large q :
  bounded_below q ->
  ensures trim_if_too_large q (fun _ q' => bounded_below q').
Proof.
  intros Hq b q' H. unfold trim_if_too_large, sbind at 1 in H. cbn [sget] in H.
  destruct (Z.ltb _ _).
  - unfold sbind in H.
    destruct (trim_queue q) as [[r|e|] q1] eqn:E; try discriminate.
    injection H as _ <-. apply trim_queue_spec in E.
    destruct E as (_ & _ & _ & Hmin & _). exact Hmin.
  - now injection H as _ <-.
Qed.

Lemma ensures_rebuild_from_max gr q_item q :
  bounded_below q ->
  ensures (rebuild_from_max gr q_item) q (fun _ q' => bounded_below q').
Proof.
  intros Hq l q' H. unfold rebuild_from_max, sbind at 1 in H. cbn [sget] in H.
  destruct (Qle_bool (probability q_item) (max_probability q)).
  - unfold sbind at 1, slift in H.
    destruct (some_parent_below _ _ _) as [covered|e|]; try discriminate.
    destruct covered; [now injection H as _ <-|].
    destruct (Qle_bool (min_probability q) (probability q_item)) eqn:Ege;
      [|now injection H as _ <-].
    unfold sbind in H. rewrite push_self_eq in H. injection H as _ <-.
    intros x Hx. cbn in *. apply in_app_or in Hx as [Hx|[<-|[]]]; [auto|].
    now apply Qle_bool_iff.
  - unfold slift in H. now injection H as _ <-.
Qed.

Lemma ensures_rebuild_loop gr fuel :
  forall rebuild_list q,
    bounded_below q ->
    ensures (rebuild_loop gr fuel rebuild_list) q (fun _ q' => bounded_below q').
Proof.
  induction fuel as [|fuel IH]; intros [|q_item rest] q Hq u q' H;
    cbn [rebuild_loop] in H.
  - now injection H as _ <-.
  - discriminate.
  - now injection H as _ <-.
  - unfold sbind at 1 in H.
    destruct (rebuild_from_max gr q_item q) as [[ret_list|e|] q1] eqn:E1;
      try discriminate.
    apply (ensures_rebuild_from_max gr q_item q Hq) in E1.
    unfold sbind at 1 in H.
    destruct (trim_if_too_large q1) as [[b|e|] q2] eqn:E2; try discriminate.
    apply (ensures_trim_if_too_large q1 E1) in E2.
    exact (IH _ q2 E2 u q' H).
Qed.



(** The state in which the rebuild below starts is reached by the pump:
    two calls of [next_function] on [trim_grammar] with room for two items
    trim the queue once and leave it empty with [min_probability = 1/12]. *)
Lemma small_queue_empties_after_trim :
  snd (pump trim_grammar 10 2 [] (snd (initialize trim_grammar small_queue)))
  = mkQueue [] (1 # 12) (1 # 12) 2 1.
Proof. vm_compute. reflexivity. Qed.


(** * The guess pump: monotone emission *)

Lemma refill_untrimmed gr fuel q :
  untrimmed q ->
  refill gr fuel q = (Ok (negb (Nat.eqb (length (p_queue q)) 0)), q).
Proof.
  intros [_ Hmin]. destruct fuel; cbn [refill]; unfold sbind, sget;
    destruct (Nat.eqb (length (p_queue q)) 0); rewrite ?Hmin; reflexivity.
Qed.

Lemma push_children_bounded gr queue_item m :
  (probability queue_item <= m)%Q ->
  forall children, preserves (push_children gr queue_item children)
                     (fun q => bounded_above m q).
Proof.
  intros Hm. induction children as [|child rest IH]; [apply preserves_ret|].
  cbn [push_children].
  apply preserves_bind; [apply preserves_slift|]. intros t.
  apply preserves_bind; [apply preserves_slift|]. intros p.
  apply preserves_bind; [apply preserves_sget|]. intros q0.
  apply preserves_bind; [|intros; apply IH].
  cbn [probability].
  destruct (Qle_bool p (probability queue_item)) eqn:Ele; [|apply preserves_ret].
  destruct (Qle_bool (min_probability q0) p); [|apply preserves_ret].
  intros q [Hmax Hq]. rewrite push_self_eq. cbn. split; [exact Hmax|]. cbn.
  intros x Hx. apply in_app_or in Hx as [Hx|[<-|[]]]; [auto|]. cbn.
  apply Qle_bool_iff in Ele. eapply Qle_trans; eassumption.
Qed.

Lemma push_children_min gr queue_item :
  forall children q,
    min_probability (snd (push_children gr queue_item children q))
    = min_probability q.
Proof.
  induction children as [|child rest IH]; intros q; [reflexivity|].
  cbn [push_children]. unfold sbind at 1, slift.
  destruct (find_is_terminal gr child); try reflexivity.
  unfold sbind at 1. destruct (find_probability gr child); try reflexivity.
  unfold sbind at 1. cbn [sget]. unfold sbind at 1.
  cbn [probability].
  destruct (Qle_bool _ _); [destruct (Qle_bool _ _)|]; cbn; rewrite IH; reflexivity.
Qed.

Lemma queue_deadbeat_dad_spec gr queue_item q :
  bounded_above (probability queue_item) q ->
  bounded_above (probability queue_item) (snd (queue_deadbeat_dad gr queue_item q))
  /\ min_probability (snd (queue_deadbeat_dad gr queue_item q))
     = min_probability q
  /\ forall x q', queue_deadbeat_dad gr queue_item q = (Ok x, q') ->
                  probability x = probability queue_item /\
                  item_is_terminal x = item_is_terminal queue_item.
Proof.
  intros Hq. unfold queue_deadbeat_dad.
  destruct (deadbeat_dad gr (parse_tree queue_item)
              (Some (probability queue_item))) as [children tree].
  unfold sbind at 1 3 5, slift.
  destruct children as [l|e|];
    [|simpl; (split; [exact Hq|split; [reflexivity|intros x q' H; discriminate H]])..].
  pose proof (push_children_bounded gr queue_item (probability queue_item)
                (Qle_refl _) l q Hq) as Hb.
  pose proof (push_children_min gr queue_item l q) as Hmin.
  unfold sbind.
  destruct (push_children gr queue_item l q) as [[u|e|] q1]; simpl in *;
    (split; [exact Hb|split; [exact Hmin|intros x q' H]]); try discriminate H.
  injection H as <- _. split; reflexivity.
Qed.

Lemma trim_if_too_large_false q q' :
  trim_if_too_large q = (Ok false, q') -> q' = q.
Proof.
  unfold trim_if_too_large, sbind at 1. cbn [sget].
  destruct (Z.ltb _ _).
  - unfold sbind. destruct (trim_queue q) as [[r|e|] q1]; discriminate.
  - now intros [= <-].
Qed.

(** One pass that does not trim keeps the invariant and lowers (or keeps)
    [max_probability], which is the probability of the item it popped. *)
Lemma pump_iteration_untrimmed gr fuel q it q' :
  untrimmed q ->
  pump_iteration gr fuel q = (Ok it, q') ->
  match it with
  | Exhausted => q' = q
  | Popped x trimmed =>
      trimmed = false ->
      untrimmed q' /\
      max_probability q' = probability x /\
      (probability x <= max_probability q)%Q
  end.
Proof.
  intros Hinv H. unfold pump_iteration in H.
  rewrite (sbind_ok _ _ _ _ _ (refill_untrimmed gr fuel q Hinv)) in H.
  destruct (negb (Nat.eqb (length (p_queue q)) 0)).
  - unfold sbind at 1 in H. rewrite pop_self_eq in H.
    destruct (heappop (p_queue q)) as [[x h]|] eqn:Epop; [|discriminate].
    destruct (heappop_spec _ _ _ Epop) as (Hx & _ & Hmax & _).
    unfold sbind at 1 in H. cbn [set_max_probability max_probability p_queue
      min_probability max_queue_size reduction_size] in H.
    set (q1 := mkQueue h (probability x) (min_probability q) (max_queue_size q)
                 (reduction_size q)) in H.
    assert (Hq1 : bounded_above (probability x) q1) by (split; auto).
    destruct (queue_deadbeat_dad_spec gr x q1 Hq1) as (Hb & Hmin & Hitem).
    unfold sbind at 1 in H.
    destruct (queue_deadbeat_dad gr x q1) as [[x'|e|] q2] eqn:Edd;
      try discriminate.
    destruct (Hitem x' q2 eq_refl) as [Hpx _]. simpl in Hb, Hmin.
    unfold sbind at 1 in H.
    destruct (trim_if_too_large q2) as [[t|e|] q3] eqn:Etrim; try discriminate.
    injection H as <- <-. intros ->.
    apply trim_if_too_large_false in Etrim. subst q3.
    destruct Hinv as [[_ Hle] Hmin0]. destruct Hb as [Hm2 Hq2].
    rewrite Hpx. repeat split.
    + rewrite Hm2. exact Hq2.
    + rewrite Hmin. exact Hmin0.
    + exact Hm2.
    + now apply Hle.
  - now injection H as <- <-.
Qed.

Lemma py_index_In {A} (l : list A) i a : py_index l i = Ok a -> In a l.
Proof.
  unfold py_index. destruct (l !! i) as [b|] eqn:E; [|discriminate].
  intros [= <-]. apply list_elem_of_In. eapply list_elem_of_lookup_2; eauto.
Qed.

Lemma initialize_untrimmed gr q0 q :
  probabilities_at_most_one gr ->
  fresh_queue q0 ->
  initialize gr q0 = (Ok STATUS_OK, q) ->
  untrimmed q /\ max_probability q = max_probability q0.
Proof.
  intros Hgr (Hq & Hmax & Hmin) H. unfold initialize in H.
  destruct (Z.eqb (start_index gr) (-1)); [discriminate H|].
  unfold sbind at 1, slift in H.
  destruct (find_probability gr (Node (Z.to_nat (start_index gr)) 0 []))
    as [p|e|] eqn:Ep; try discriminate H.
  unfold sbind in H. rewrite push_self_eq in H. injection H as <-.
  rewrite Hq, Hmax, Hmin. unfold untrimmed, bounded_above. cbn.
  repeat split.
  intros x [<-|[]]. cbn.
  simpl in Ep. unfold repl_at in Ep.
  destruct (py_index gr (Z.to_nat (start_index gr))) as [nt|e|] eqn:Ent;
    try discriminate Ep.
  simpl in Ep.
  destruct (py_index (replacements nt) 0) as [rep|e|] eqn:Erep;
    try discriminate Ep.
  injection Ep as <-.
  apply (Hgr nt rep); eapply py_index_In; eauto.
Qed.

Lemma non_increasing_filter (f : QueueItem -> bool) (l : list QueueItem) :
  non_increasing_seq (map probability l) ->
  non_increasing_seq (map probability (List.filter f l)).
Proof.
  unfold non_increasing_seq. intros H.
  apply Sorted_StronglySorted in H;
    [|intros a b c Hab Hbc; eapply Qle_trans; eauto].
  apply StronglySorted_Sorted.
  induction l as [|x l IH]; [constructor|].
  simpl in H. inversion H as [|? ? Hl Hall]; subst.
  cbn [List.filter]. destruct (f x); [|now apply IH].
  simpl. constructor; [now apply IH|].
  rewrite List.Forall_forall in *. intros p Hp. apply Hall.
  apply in_map_iff in Hp as (y & <- & Hy). apply in_map.
  now apply filter_In in Hy as [Hy _].
Qed.

Lemma pump_steps_untrimmed gr q its :
  pump_steps gr q its ->
  untrimmed q ->
  trimmed_in its = false ->
  non_increasing_seq (max_probability q :: map probability (popped its)) /\
  non_increasing_seq
    (max_probability q :: map (fun s => max_probability (snd s)) its).
Proof.
  unfold non_increasing_seq.
  induction 1 as [q|q fuel it q' rest Hit Hrest IH]; intros Hinv Htrim.
  - split; repeat constructor.
  - pose proof (pump_iteration_untrimmed gr fuel q it q' Hinv Hit) as Hstep.
    cbn [trimmed_in existsb fst] in Htrim.
    destruct it as [|x trimmed].
    + subst q'. cbn in Htrim. destruct (IH Hinv Htrim) as [IH1 IH2].
      split; [exact IH1|].
      cbn [map snd]. constructor; [exact IH2|]. constructor. apply Qle_refl.
    + apply orb_false_iff in Htrim as [-> Htrim].
      destruct (Hstep eq_refl) as (Hinv' & Hmax & Hle).
      destruct (IH Hinv' Htrim) as [IH1 IH2].
      cbn [popped flat_map fst map app snd]. fold (popped rest).
      rewrite Hmax in *. split.
      * constructor; [exact IH1|]. constructor. exact Hle.
      * constructor; [exact IH2|]. constructor. exact Hle.
Qed.

(** C1.  In a run of the guess pump that starts from the initialized queue
    and in which no pass trims the queue, the probabilities of the popped
    items are non-increasing from each item to the next, so are those of
    the emitted (terminal) items, and so are the successive values of
    [max_probability], starting from its initial value. *)
Theorem pump_pops_in_non_increasing_order gr q0 q its :
  probabilities_at_most_one gr ->
  fresh_queue q0 ->
  initialize gr q0 = (Ok STATUS_OK, q) ->
  pump_steps gr q its ->
  trimmed_in its = false ->
  non_increasing_seq (map probability (popped its)) /\
  non_increasing_seq (map probability (List.filter item_is_terminal (popped its))) /\
  non_increasing_seq
    (max_probability q0 :: map (fun s => max_probability (snd s)) its).
Proof.
  intros Hgr Hfresh Hinit Hsteps Htrim.
  destruct (initialize_untrimmed gr q0 q Hgr Hfresh Hinit) as [Hinv Hmax].
  destruct (pump_steps_untrimmed gr q its Hsteps Hinv Htrim) as [H1 H2].
  assert (Hp : non_increasing_seq (map probability (popped its))).
  { unfold non_increasing_seq in *. now inversion H1. }
  split; [exact Hp|]. split; [now apply non_increasing_filter|].
  now rewrite <- Hmax.
Qed.

(** ** The passes of [next_function] form a run *)

Lemma run_steps_are_steps gr fuel n :
  forall q, pump_steps gr q (run_steps gr fuel n q).
Proof.
  induction n as [|n IH]; intros q; cbn [run_steps]; [constructor|].
  destruct (pump_iteration gr fuel q) as [[it|e|] q'] eqn:E; try constructor.
  econstructor; eauto.
Qed.

Lemma pump_steps_app gr q its1 its2 :
  pump_steps gr q its1 ->
  pump_steps gr (final_state q its1) its2 ->
  pump_steps gr q (its1 ++ its2).
Proof.
  induction 1 as [q|q fuel it q' rest Hit Hrest IH]; intros H2.
  - exact H2.
  - simpl. econstructor; [exact Hit|]. apply IH. exact H2.
Qed.

Lemma final_state_app q its1 its2 :
  final_state q (its1 ++ its2) = final_state (final_state q its1) its2.
Proof.
  revert q. induction its1 as [|s its1 IH]; intros q; [reflexivity|].
  simpl. apply IH.
Qed.

Lemma next_function_steps gr :
  forall fuel l q r l' q',
    next_function gr fuel l q = (Ok (r, l'), q') ->
    exists its,
      pump_steps gr q its /\ final_state q its = q' /\
      l' = l ++ List.filter item_is_terminal (popped its).
Proof.
  induction fuel as [|fuel IH]; intros l q r l' q' H; [discriminate|].
  cbn [next_function] in H. unfold sbind in H.
  destruct (pump_iteration gr fuel q) as [[it|e|] q1] eqn:E; try discriminate.
  destruct it as [|x trimmed].
  - injection H as <- <- <-. exists [(Exhausted, q1)].
    split; [econstructor; [exact E|constructor]|].
    split; [reflexivity|]. simpl. now rewrite app_nil_r.
  - destruct (item_is_terminal x) eqn:Et.
    + injection H as <- <- <-. exists [(Popped x trimmed, q1)].
      split; [econstructor; [exact E|constructor]|].
      split; [reflexivity|]. cbn. now rewrite Et.
    + apply IH in H as (its & Hsteps & Hfinal & ->).
      exists ((Popped x trimmed, q1) :: its).
      split; [econstructor; eauto|]. split.
      * exact Hfinal.
      * cbn. now rewrite Et.
Qed.

(** what [k] calls of [next_function] hand back are the terminal items of a
    run, in the order in which the run popped them *)
Lemma pump_steps_of_calls gr fuel :
  forall k emitted q emitted' q',
    pump gr fuel k emitted q = (Ok emitted', q') ->
    exists its,
      pump_steps gr q its /\ final_state q its = q' /\
      emitted' = emitted ++ List.filter item_is_terminal (popped its).
Proof.
  induction k as [|k IH]; intros emitted q emitted' q' H.
  - injection H as <- <-. exists []. split; [constructor|].
    split; [reflexivity|]. simpl. now rewrite app_nil_r.
  - cbn [pump] in H. unfold sbind in H.
    destruct (next_function gr fuel [] q) as [[[r l]|e|] q1] eqn:E;
      try discriminate.
    apply next_function_steps in E as (its1 & Hs1 & Hf1 & ->).
    apply IH in H as (its2 & Hs2 & Hf2 & ->). simpl.
    exists (its1 ++ its2). split.
    + apply pump_steps_app; [exact Hs1|now rewrite Hf1].
    + split; [now rewrite final_state_app, Hf1|].
      unfold popped. rewrite flat_map_app, List.filter_app. now rewrite app_assoc.
Qed.

(** The guesses handed back by [k] calls of [next_function] from the
    initialized queue come in non-increasing order of probability, as long
    as none of the passes made by these calls trims the queue. *)
Lemma calls_emit_in_non_increasing_order gr q0 q fuel k emitted q' :
  probabilities_at_most_one gr ->
  fresh_queue q0 ->
  initialize gr q0 = (Ok STATUS_OK, q) ->
  pump gr fuel k [] q = (Ok emitted, q') ->
  exists its,
    pump_steps gr q its /\ final_state q its = q' /\
    emitted = List.filter item_is_terminal (popped its) /\
    (trimmed_in its = false ->
     non_increasing_seq (map probability emitted)).
Proof.
  intros Hgr Hfresh Hinit Hrun.
  apply pump_steps_of_calls in Hrun as (its & Hsteps & Hfinal & ->).
  exists its. repeat split; try assumption.
  intros Htrim.
  destruct (initialize_untrimmed gr q0 q Hgr Hfresh Hinit) as [Hinv _].
  destruct (pump_steps_untrimmed gr q its Hsteps Hinv Htrim) as [H1 _].
  apply non_increasing_filter.
  unfold non_increasing_seq in *. now inversion H1.
Qed.

Lemma tie_grammar_probabilities : probabilities_at_most_one tie_grammar.
Proof.
  intros nt rep Hnt Hrep. simpl in Hnt.
  destruct Hnt as [<-|[<-|[<-|[]]]]; simpl in Hrep;
    repeat (destruct Hrep as [<-|Hrep]; [vm_compute; discriminate|]);
    destruct Hrep.
Qed.

Lemma pump_pops_in_non_increasing_order_witness :
  let q := snd (initialize tie_grammar new_queue) in
  let its := run_steps tie_grammar 10 5 q in
  map probability (popped its) = [1; 1 # 4; 1 # 8; 1 # 8; 1 # 16]%Q /\
  non_increasing_seq (map probability (popped its)).
Proof.
  intros q its. split; [vm_compute; reflexivity|].
  refine (proj1 (pump_pops_in_non_increasing_order tie_grammar new_queue q its
                   tie_grammar_probabilities _ _ _ _)).
  - repeat split.
  - vm_compute; reflexivity.
  - apply run_steps_are_steps.
  - vm_compute; reflexivity.
Defined.

(** * The scorer's multiword training *)

(** C10 fails on the code.  In [five_tier_alpha] the counts of the strings
    of length 4 are 1, 2, 3, 4, 5, 5: five distinct values, so every string
    lies in one of the five lowest tiers and none should be trained.  The
    loop stops skipping as soon as it has met the first string of the fifth
    tier, and trains the other string of that tier. *)
Theorem multiword_training_admits_part_of_fifth_tier :
  map (fun kv => map snd (rev (most_common (snd kv)))) five_tier_alpha
  = [[1; 2; 3; 4; 5; 5]%Q] /\
  create_multiword_detector five_tier_alpha = ["eeee"%string].
Proof. vm_compute. split; reflexivity. Qed.

(** * [deadbeat_dad] returns on well-formed input *)

Lemma tree_ok_unfold gr g r cs :
  tree_ok gr (Node g r cs) = true <->
  (exists rep, repl_at gr g r = Ok rep) /\ Forall (fun c => tree_ok gr c = true) cs.
Proof.
  cbn [tree_ok]. destruct (repl_at gr g r) as [rep|e|].
  - split.
    + intros H. split; [eauto|].
      induction cs as [|c l IH]; [constructor|].
      apply andb_prop in H as [H1 H2]. constructor; auto.
    + intros [_ H]. induction H as [|c l Hc _ IH]; [reflexivity|].
      now rewrite Hc, IH.
  - split; [discriminate|]. intros [[rep H] _]. discriminate.
  - split; [discriminate|]. intros [[rep H] _]. discriminate.
Qed.

Lemma find_probability_ok gr (t : node) :
  tree_ok gr t = true -> exists p, find_probability gr t = Ok p.
Proof.
  induction t as [g r cs IH] using node_ind'. intros H.
  apply tree_ok_unfold in H as [[rep Hrep] Hcs].
  cbn [find_probability]. rewrite Hrep. simpl.
  generalize (prob rep).
  induction cs as [|c l IHl]; intros q; [eauto|].
  inversion IH as [|? ? Hc Hl]; subst. inversion Hcs as [|? ? Hc' Hl']; subst.
  destruct (Hc Hc') as [pc ->]. simpl. now apply IHl.
Qed.

Lemma tree_ok_get_at gr : forall p t n,
  tree_ok gr t = true -> get_at p t = Some n -> tree_ok gr n = true.
Proof.
  induction p as [|i p IH]; intros t n Ht Hn; simpl in Hn.
  - now injection Hn as <-.
  - destruct t as [g r cs]. simpl in Hn.
    destruct (cs !! i) as [c|] eqn:Ec; [|discriminate].
    apply tree_ok_unfold in Ht as [_ Hcs].
    eapply IH; [|exact Hn]. exact (Forall_lookup_1 _ _ _ _ Hcs Ec).
Qed.

Lemma tree_ok_update_at gr f : forall p t t' n,
  tree_ok gr t = true -> get_at p t = Some n ->
  tree_ok gr (f n) = true ->
  update_at p f t = Some t' -> tree_ok gr t' = true.
Proof.
  induction p as [|i p IH]; intros t t' n Ht Hn Hf U; simpl in *.
  - injection Hn as <-. now injection U as <-.
  - destruct t as [g r cs]. simpl in Hn.
    destruct (cs !! i) as [c|] eqn:Ec; [|discriminate].
    destruct (update_at p f c) as [c'|] eqn:Uc; [|discriminate].
    injection U as <-.
    apply tree_ok_unfold in Ht as [Hrep Hcs].
    apply tree_ok_unfold. split; [exact Hrep|].
    apply Forall_insert; [exact Hcs|].
    exact (IH c c' n (Forall_lookup_1 _ _ _ _ Hcs Ec) Hn Hf Uc).
Qed.

(** every path of a tree is visited *)
Lemma visit_list_lookup (p : path) (cs : list node) :
  forall k i c, cs !! i = Some c ->
                In (visit_order c (p ++ [k + i])) (visit_list p k cs).
Proof.
  induction cs as [|c0 cs IH]; intros k i c H; [discriminate|].
  destruct i as [|i]; simpl in *.
  - injection H as ->. left. now rewrite Nat.add_0_r.
  - right. rewrite <- Nat.add_succ_comm. now apply IH.
Qed.

Lemma in_visit_order : forall q n p m,
  get_at q n = Some m -> In (p ++ q) (visit_order n p).
Proof.
  induction q as [|i q IH]; intros n p m H.
  - rewrite app_nil_r. destruct n. simpl. now left.
  - destruct n as [g r cs]. simpl in H.
    destruct (cs !! i) as [c|] eqn:Ec; [|discriminate].
    rewrite visit_order_eq. right.
    apply in_concat. exists (visit_order c (p ++ [i])). split.
    + apply in_rev. rewrite rev_involutive.
      exact (visit_list_lookup p cs 0 i c Ec).
    + change (p ++ i :: q) with (p ++ [i] ++ q). rewrite app_assoc.
      eapply IH; eauto.
Qed.

Lemma in_dd_candidates c p q :
  is_Some (get_at p c) -> probe c p = Some q -> In q (dd_candidates c).
Proof.
  intros [m Hm] Hq. unfold dd_candidates.
  apply list_elem_of_In, list_elem_of_omap. exists p. split; [|exact Hq].
  apply list_elem_of_In. exact (in_visit_order p c [] m Hm).
Qed.

(** every candidate parent of a well-formed tree is well formed *)
Lemma dd_candidates_ok gr c q :
  tree_ok gr c = true -> In q (dd_candidates c) -> tree_ok gr q = true.
Proof.
  intros Hc Hq. unfold dd_candidates in Hq.
  apply list_elem_of_In, list_elem_of_omap in Hq as (p & _ & Hp).
  unfold probe in Hp. destruct (get_at p c) as [[g r cs]|] eqn:En; [|discriminate].
  pose proof (tree_ok_get_at gr p c _ Hc En) as Hn.
  apply tree_ok_unfold in Hn as [[rep Hrep] Hcs].
  cbn [node_children node_r] in Hp.
  destruct (Nat.eqb (length cs) 0) eqn:Elen.
  - destruct (negb (Nat.eqb r 0)) eqn:Er; [|discriminate].
    eapply tree_ok_update_at; [exact Hc|exact En| |exact Hp].
    unfold decr_node. cbn [node_g node_r node_children].
    apply tree_ok_unfold. split; [|exact Hcs].
    unfold repl_at in *. destruct (py_index gr g) as [nt|e|]; try discriminate.
    simpl in *. unfold py_index in *.
    destruct (replacements nt !! r) as [x|] eqn:Ex; [|discriminate].
    assert (Hlt : r - 1 < length (replacements nt)).
    { apply lookup_lt_Some in Ex. lia. }
    apply lookup_lt_is_Some in Hlt as [y ->]. eauto.
  - destruct (forallb _ cs); [|discriminate].
    eapply tree_ok_update_at; [exact Hc|exact En| |exact Hp].
    unfold with_children. cbn [node_g node_r].
    apply tree_ok_unfold. split; [eauto|constructor].
Qed.

Lemma dd_scan_returns gr cands pp :
  (forall q, In q cands -> exists pq, find_probability gr q = Ok pq) ->
  forall cp, exists b cp',
    dd_scan gr cands pp cp = Ok (b, cp') /\
    (b = true ->
     (cp <> [] \/ exists q pq, In q cands /\ find_probability gr q = Ok pq /\
                               (pq == pp)%Q) ->
     cp' <> []).
Proof.
  induction cands as [|q0 cands IH]; intros Hall cp.
  - exists true, cp. split; [reflexivity|].
    intros _ [H|(q & pq & [] & _)]. exact H.
  - cbn [dd_scan]. destruct (Hall q0 (or_introl eq_refl)) as [p0 Hp0].
    rewrite Hp0. simpl.
    destruct (Qlt_le_dec p0 pp) as [Hlt|Hge].
    + exists false, cp. split; [reflexivity|discriminate].
    + destruct (IH (fun q Hq => Hall q (or_intror Hq))
                  (note_tie_pure p0 pp q0 cp)) as (b & cp' & Hrun & Hne).
      exists b, cp'. split; [exact Hrun|].
      intros Hb Hex. apply Hne; [exact Hb|].
      unfold note_tie_pure.
      destruct Hex as [Hcp|(q & pq & [<-|Hq] & Hpq & Heq)].
      * left. destruct (Qeq_bool p0 pp); [destruct cp; [discriminate|exact Hcp]
                                        |exact Hcp].
      * left. rewrite Hp0 in Hpq. injection Hpq as <-.
        apply Qeq_bool_iff in Heq. rewrite Heq.
        destruct cp; discriminate.
      * right. eauto.
Qed.

(** one candidate edit returns: the parent is among the candidates of the
    edited tree, with the probability that was passed in *)
Lemma try_edit_returns gr t p n f pp ppt acc c :
  tree_ok gr t = true ->
  get_at p t = Some n ->
  update_at p f t = Some c ->
  tree_ok gr (f n) = true ->
  probe c p = Some t ->
  find_probability gr t = Ok ppt -> (ppt == pp)%Q ->
  exists l, try_edit gr t (Some c) pp acc = Ok l.
Proof.
  intros Ht Hn Hc Hfn Hprobe Hpt Heq.
  pose proof (tree_ok_update_at gr f p t c n Ht Hn Hfn Hc) as Hcok.
  assert (Hin : In t (dd_candidates c)).
  { eapply in_dd_candidates; [|exact Hprobe].
    rewrite (get_at_update_at _ _ _ _ _ Hn Hc). eauto. }
  destruct (dd_scan_returns gr (dd_candidates c) pp
              (fun q Hq => find_probability_ok gr q (dd_candidates_ok gr c q Hcok Hq))
              []) as (b & cp & Hrun & Hne).
  unfold try_edit. rewrite Hrun. simpl.
  destruct b; [|eauto].
  assert (Hcp : cp <> []).
  { apply Hne; [reflexivity|]. right. exists t, ppt. auto. }
  unfold emit_if_mine_pure. destruct cp as [|cp0 cp]; [contradiction|].
  destruct (node_eqb t cp0); eauto.
Qed.

Lemma dd_children_at_returns gr t pp ppt :
  expandable_ok gr ->
  tree_ok gr t = true ->
  find_probability gr t = Ok ppt -> (ppt == pp)%Q ->
  forall n p acc,
    get_at p t = Some n ->
    exists l, dd_children_at gr t pp n p acc = Ok l.
Proof.
  intros Hgr Ht Hpt Heq.
  induction n as [g r cs IH] using node_ind'. intros p acc Hn.
  pose proof (tree_ok_get_at gr p t _ Ht Hn) as Hnok.
  cbn [dd_children_at].
  destruct (Nat.eqb (length cs) 0) eqn:Elen.
  - apply Nat.eqb_eq, length_zero_iff_nil in Elen. subst cs.
    apply tree_ok_unfold in Hnok as [[rep Hrep] _].
    unfold repl_at in Hrep.
    destruct (py_index gr g) as [nt|e|] eqn:Ent; try discriminate Hrep.
    simpl in Hrep. simpl.
    pose proof (py_index_In _ _ _ Ent) as Hnt.
    pose proof (py_index_In _ _ _ Hrep) as Hrin.
    assert (Hr : r < length (replacements nt)).
    { unfold py_index in Hrep.
      destruct (replacements nt !! r) eqn:E; [|discriminate].
      eapply lookup_lt_Some; eauto. }
    assert (H0 : exists rep0, replacements nt !! 0 = Some rep0).
    { apply lookup_lt_is_Some. lia. }
    destruct H0 as [rep0 Hrep0].
    (* the increment *)
    assert (H1 : exists l1,
               (if Nat.ltb (r + 1) (length (replacements nt))
                then try_edit gr t (update_at p incr_node t) pp acc
                else Ok acc) = Ok l1).
    { destruct (Nat.ltb (r + 1) (length (replacements nt))) eqn:Elt; [|eauto].
      apply Nat.ltb_lt in Elt.
      destruct (update_at_some p incr_node _ _ Hn) as [c Hc]. rewrite Hc.
      eapply (try_edit_returns gr t p _ incr_node pp ppt acc c Ht Hn Hc);
        try eassumption.
      - unfold incr_node. cbn [node_g node_r node_children].
        apply tree_ok_unfold. split; [|constructor].
        unfold repl_at. rewrite Ent. simpl. unfold py_index.
        apply lookup_lt_is_Some in Elt as [x ->]. eauto.
      - unfold probe. rewrite (get_at_update_at _ _ _ _ _ Hn Hc).
        unfold incr_node. cbn [node_g node_r node_children length Nat.eqb].
        replace (negb (Nat.eqb (r + 1) 0)) with true
          by (symmetry; apply negb_true_iff, Nat.eqb_neq; lia).
        eapply update_at_undo; eauto.
        unfold decr_node, incr_node. cbn [node_g node_r node_children].
        f_equal. lia. }
    destruct H1 as [l1 ->]. simpl.
    unfold py_index at 1. rewrite Hrep0. simpl.
    destruct (negb (is_terminal rep0)) eqn:Eterm; [|eauto].
    rewrite Hrep. simpl.
    destruct (Hgr nt rep0 rep Hnt Hrep0 Hrin) as [Hpos Hne].
    apply negb_true_iff in Eterm. specialize (Hne Eterm).
    set (new_expansion := map (fun x => Node x 0 []) (pos rep)).
    destruct (update_at_some p (with_children new_expansion) _ _ Hn) as [c Hc].
    rewrite Hc.
    eapply (try_edit_returns gr t p _ (with_children new_expansion) pp ppt l1 c
              Ht Hn Hc); try eassumption.
    + unfold with_children. cbn [node_g node_r].
      apply tree_ok_unfold. split.
      * exists rep. unfold repl_at. now rewrite Ent.
      * subst new_expansion. apply Forall_forall. intros x Hx.
        apply list_elem_of_In, in_map_iff in Hx as (y & <- & Hy).
        apply tree_ok_unfold. split; [now apply Hpos|constructor].
    + unfold probe. rewrite (get_at_update_at _ _ _ _ _ Hn Hc).
      assert (Hch : node_children (with_children new_expansion (Node g r []))
                    = new_expansion) by reflexivity.
      rewrite Hch.
      assert (Hlen : Nat.eqb (length new_expansion) 0 = false).
      { apply Nat.eqb_neq. subst new_expansion. rewrite length_map.
        destruct (pos rep); [contradiction|simpl; lia]. }
      rewrite Hlen.
      assert (Hall : forallb (fun c0 => Nat.eqb (node_r c0) 0) new_expansion
                     = true).
      { subst new_expansion. apply forallb_forall. intros x Hx.
        apply in_map_iff in Hx as (y & <- & _). reflexivity. }
      rewrite Hall.
      eapply update_at_undo; eauto.
  - assert (Hgen : forall l i acc0,
               (forall j, l !! j = cs !! (i + j)) ->
               exists l1,
                 (fix loop (i : nat) (l : list node) (acc : list node)
                    {struct l} : result (list node) :=
                    match l with
                    | [] => Ok acc
                    | c :: l' =>
                        (acc' <- dd_children_at gr t pp c (p ++ [i]) acc ;;
                         loop (S i) l' acc')%res
                    end) i l acc0 = Ok l1).
    { intros l. induction l as [|c l IHl]; intros i acc0 Hl; [eauto|].
      assert (Hc : cs !! i = Some c).
      { specialize (Hl 0). rewrite Nat.add_0_r in Hl. now rewrite <- Hl. }
      destruct (Forall_lookup_1 _ _ _ _ IH Hc (p ++ [i]) acc0) as [acc' ->].
      { rewrite (get_at_snoc _ _ _ _ Hn). exact Hc. }
      simpl. apply IHl. intros j. specialize (Hl (S j)).
      simpl in Hl. now rewrite Hl, Nat.add_succ_r. }
    apply (Hgen cs 0 acc). intros j. reflexivity.
Qed.

(** On a well-formed tree of a grammar that is well formed for expansion,
    [deadbeat_dad] called without [parent_prob] returns a list of children
    and leaves the tree as it was. *)
Lemma deadbeat_dad_returns gr pt :
  expandable_ok gr ->
  tree_ok gr pt = true ->
  exists children, deadbeat_dad gr pt None = (Ok children, pt).
Proof.
  intros Hgr Hpt.
  destruct (find_probability_ok gr pt Hpt) as [pp Hpp].
  destruct (dd_children_at_returns gr pt pp pp Hgr Hpt Hpp (Qeq_refl _)
              pt [] [] eq_refl) as [l Hl].
  destruct (deadbeat_dad_refines gr pt None) as (pt' & H1 & H2).
  assert (Hpure : deadbeat_dad_pure gr pt None = Ok l).
  { unfold deadbeat_dad_pure. rewrite Hpp. exact Hl. }
  rewrite Hpure in H1. rewrite (H2 l Hpure) in H1. eauto.
Qed.

(** * Every parent is a candidate of [dd_is_my_child] *)

Lemma findMyParents_eq g r cs :
  findMyParents (Node g r cs)
  = if Nat.eqb (length cs) 0 then
      if negb (Nat.eqb r 0) then [Node g (r - 1) []] else []
    else
      if Nat.eqb (length (parents_from_children g r [] cs)) 0
      then [Node g r []]
      else parents_from_children g r [] cs.
Proof.
  cbn [findMyParents].
  destruct (Nat.eqb (length cs) 0) eqn:E.
  - apply Nat.eqb_eq, length_zero_iff_nil in E. now subst.
  - assert (H : forall after before,
               (fix loop (before after : list node) {struct after} : list node :=
                  match after with
                  | [] => []
                  | c :: t =>
                      map (fun y => Node g r (map copy_node before ++ y
                                                :: map copy_node t))
                          (findMyParents c)
                      ++ loop (before ++ [c]) t
                  end) before after
               = parents_from_children g r before after).
    { induction after as [|c t IH]; intros before; [reflexivity|].
      simpl. now rewrite IH. }
    now rewrite H.
Qed.

Lemma parents_from_children_in g r q :
  forall after before,
    In q (parents_from_children g r before after) ->
    exists i c y,
      after !! i = Some c /\ In y (findMyParents c) /\
      q = Node g r (<[length before + i := y]> (before ++ after)).
Proof.
  induction after as [|c t IH]; intros before H; [destruct H|].
  cbn [parents_from_children] in H. apply in_app_or in H as [H|H].
  - apply in_map_iff in H as (y & <- & Hy).
    exists 0, c, y. split; [reflexivity|]. split; [exact Hy|].
    rewrite !map_copy_node_id, Nat.add_0_r. f_equal.
    rewrite <- (Nat.add_0_r (length before)) at 1.
    now rewrite insert_app_r.
  - apply IH in H as (i & c' & y & Hi & Hy & ->).
    exists (S i), c', y. split; [exact Hi|]. split; [exact Hy|].
    rewrite length_app. simpl. rewrite <- app_assoc. simpl.
    f_equal. f_equal. lia.
Qed.

Lemma parents_from_children_nil g r :
  forall after before,
    parents_from_children g r before after = [] ->
    Forall (fun c => findMyParents c = []) after.
Proof.
  induction after as [|c t IH]; intros before H; [constructor|].
  cbn [parents_from_children] in H. apply app_eq_nil in H as [H1 H2].
  constructor; [|eapply IH; eauto].
  destruct (findMyParents c); [reflexivity|discriminate].
Qed.

Lemma findMyParents_nil (n : node) :
  findMyParents n = [] -> node_r n = 0.
Proof.
  destruct n as [g r cs]. rewrite findMyParents_eq.
  destruct (Nat.eqb (length cs) 0).
  - destruct (Nat.eqb r 0) eqn:E; [|discriminate].
    intros _. now apply Nat.eqb_eq in E.
  - destruct (Nat.eqb (length (parents_from_children g r [] cs)) 0) eqn:E;
      [discriminate|].
    intros H. rewrite H in E. discriminate.
Qed.

Lemma update_at_ext (p : path) (f h : node -> node) :
  forall t n, get_at p t = Some n -> f n = h n ->
              update_at p f t = update_at p h t.
Proof.
  induction p as [|i p IH]; intros t n Hn E; simpl in *.
  - congruence.
  - destruct t as [g r cs]. simpl in Hn.
    destruct (cs !! i) as [c|]; [|reflexivity].
    now rewrite (IH c n Hn E).
Qed.

Lemma update_at_child (p : path) (f : node -> node) i g r cs c :
  forall t,
    get_at p t = Some (Node g r cs) -> cs !! i = Some c ->
    update_at (p ++ [i]) f t
    = update_at p (fun _ => Node g r (<[i := f c]> cs)) t.
Proof.
  induction p as [|j p IH]; intros t Hn Hc; simpl in *.
  - injection Hn as ->. now rewrite Hc.
  - destruct t as [g' r' cs']. simpl in Hn.
    destruct (cs' !! j) as [c'|]; [|reflexivity].
    now rewrite (IH c' Hn Hc).
Qed.

Lemma visit_order_child n p i c p' :
  node_children n !! i = Some c ->
  In p' (visit_order c (p ++ [i])) -> In p' (visit_order n p).
Proof.
  destruct n as [g r cs]. cbn [node_children]. intros Hc Hp'.
  rewrite visit_order_eq. right. apply in_concat.
  exists (visit_order c (p ++ [i])). split; [|exact Hp'].
  apply in_rev. rewrite rev_involutive.
  exact (visit_list_lookup p cs 0 i c Hc).
Qed.

Lemma parent_is_probed :
  forall n p t q,
    get_at p t = Some n -> In q (findMyParents n) ->
    exists t' p',
      update_at p (fun _ => q) t = Some t' /\
      In p' (visit_order n p) /\ probe t p' = Some t'.
Proof.
  induction n as [g r cs IH] using node_ind'. intros p t q Hn Hq.
  rewrite findMyParents_eq in Hq.
  destruct (Nat.eqb (length cs) 0) eqn:Elen.
  - destruct (negb (Nat.eqb r 0)) eqn:Er; [|destruct Hq].
    destruct Hq as [<-|[]].
    apply Nat.eqb_eq, length_zero_iff_nil in Elen. subst cs.
    destruct (update_at_some p decr_node _ _ Hn) as [t' Ht'].
    exists t', p. split; [|split].
    + rewrite <- Ht'. eapply update_at_ext; eauto.
    + rewrite visit_order_eq. now left.
    + unfold probe. rewrite Hn. cbn [node_children node_r length Nat.eqb].
      now rewrite Er.
  - destruct (Nat.eqb (length (parents_from_children g r [] cs)) 0) eqn:Efc.
    + (* no child has a parent: the collapse *)
      destruct Hq as [<-|[]].
      apply Nat.eqb_eq, length_zero_iff_nil in Efc.
      apply parents_from_children_nil in Efc.
      destruct (update_at_some p (with_children []) _ _ Hn) as [t' Ht'].
      exists t', p. split; [|split].
      * rewrite <- Ht'. eapply update_at_ext; eauto.
      * rewrite visit_order_eq. now left.
      * unfold probe. rewrite Hn. cbn [node_children]. rewrite Elen.
        replace (forallb (fun c => Nat.eqb (node_r c) 0) cs) with true;
          [exact Ht'|].
        symmetry. apply forallb_forall. intros c Hc.
        rewrite List.Forall_forall in Efc.
        apply Nat.eqb_eq, findMyParents_nil, Efc, Hc.
    + (* a parent of a child, put back in place *)
      apply parents_from_children_in in Hq as (i & c & y & Hc & Hy & ->).
      cbn [length app Nat.add].
      destruct (Forall_lookup_1 _ _ _ _ IH Hc (p ++ [i]) t y)
        as (t' & p' & Ht' & Hp' & Hprobe); [|exact Hy|].
      { rewrite (get_at_snoc _ _ _ _ Hn). exact Hc. }
      exists t', p'. split; [|split].
      * rewrite <- Ht'. symmetry.
        exact (update_at_child p (fun _ => y) i g r cs c t Hn Hc).
      * eapply visit_order_child; eauto.
      * exact Hprobe.
Qed.

(** Every parent that [findMyParents] lists for [c] is among the
    candidates met by [dd_is_my_child]. *)
Lemma findMyParents_are_candidates (c q : node) :
  In q (findMyParents c) -> In q (dd_candidates c).
Proof.
  intros Hq.
  destruct (parent_is_probed c [] c q eq_refl Hq) as (t' & p' & Ht' & Hp' & Hpr).
  simpl in Ht'. injection Ht' as <-.
  unfold dd_candidates. apply list_elem_of_In, list_elem_of_omap.
  exists p'. split; [now apply list_elem_of_In|exact Hpr].
Qed.

(** * Claims on [deadbeat_dad] *)

(** C4. After [deadbeat_dad] returns, the parse tree it was given is
    structurally what it was before the call: every speculative in-place
    edit made by [find_children_dd] and [dd_is_my_child] has been undone.
    The call never exhausts the bound given to its loops, and on a
    well-formed tree of a grammar that is well formed for expansion it does
    return. *)
Theorem deadbeat_dad_leaves_tree_unchanged gr pt parent_prob :
  fst (deadbeat_dad gr pt parent_prob) <> Diverge /\
  (forall children pt',
     deadbeat_dad gr pt parent_prob = (Ok children, pt') -> pt' = pt) /\
  (expandable_ok gr -> tree_ok gr pt = true ->
   exists children, deadbeat_dad gr pt None = (Ok children, pt)).
Proof.
  destruct (deadbeat_dad_refines gr pt parent_prob) as (pt1 & H1 & H2).
  pose proof (plain_deadbeat_dad_pure gr pt parent_prob) as Hp.
  rewrite H1. split; [|split].
  - simpl. intros E. rewrite E in Hp. exact Hp.
  - intros children pt' [= E <-]. eapply H2; eauto.
  - apply deadbeat_dad_returns.
Qed.

Lemma tie_grammar_expandable : expandable_ok tie_grammar.
Proof.
  intros nt rep0 rep Hnt H0 Hrep. simpl in Hnt.
  destruct Hnt as [<-|[<-|[<-|[]]]]; simpl in H0; injection H0 as <-;
    simpl in Hrep;
    repeat (destruct Hrep as [<-|Hrep];
            [split; [intros x Hx; simpl in Hx;
                     repeat (destruct Hx as [<-|Hx]; [vm_compute; eauto|]);
                     destruct Hx
                    |simpl; intros; discriminate]|]);
    destruct Hrep.
Qed.

Lemma deadbeat_dad_leaves_tree_unchanged_witness :
  let pt := Node 2 0 [Node 0 0 []; Node 1 0 []] in
  (exists children, deadbeat_dad tie_grammar pt None = (Ok children, pt)) /\
  forall children pt',
    deadbeat_dad tie_grammar pt None = (Ok children, pt') -> pt' = pt.
Proof.
  intros pt.
  pose proof (deadbeat_dad_leaves_tree_unchanged tie_grammar pt None)
    as (_ & Hsame & Hreturns).
  split; [|exact Hsame].
  apply Hreturns; [exact tie_grammar_expandable|vm_compute; reflexivity].
Defined.

(** C3 (as amended). [deadbeat_dad] emits a child [c] from the parent [pt]
    only if no candidate parent of [c] has a probability below
    [parent_prob] and [pt] is the first candidate, in the order in which
    [dd_is_my_child] walks [c] (a node before its children, the children
    from the last to the first), whose probability equals [parent_prob].
    The candidates include every parent that [findMyParents] lists for
    [c]. *)
Theorem deadbeat_dad_emits_for_first_probed_tie
    gr pt pp (children : list node) pt' c :
  deadbeat_dad gr pt (Some pp) = (Ok children, pt') ->
  In c children ->
  (forall q, In q (findMyParents c) -> In q (dd_candidates c)) /\
  (forall q, In q (dd_candidates c) ->
             exists pq, find_probability gr q = Ok pq /\ (pp <= pq)%Q) /\
  exists pre post,
    dd_candidates c = pre ++ pt :: post /\
    (exists ppt, find_probability gr pt = Ok ppt /\ (ppt == pp)%Q) /\
    forall q, In q pre ->
              exists pq, find_probability gr q = Ok pq /\ ~ (pq == pp)%Q.
Proof.
  intros Hrun Hc.
  destruct (deadbeat_dad_refines gr pt (Some pp)) as (pt1 & H1 & _).
  rewrite Hrun in H1. injection H1 as H1 _.
  unfold deadbeat_dad_pure in H1. simpl in H1. symmetry in H1.
  apply dd_children_at_emits in H1 as (extra & -> & Hex).
  simpl in Hc. rewrite Forall_forall in Hex.
  apply list_elem_of_In, Hex in Hc as [rest Hscan].
  split; [intros q; apply findMyParents_are_candidates|].
  split.
  - eapply dd_scan_all_ge; eauto.
  - apply dd_scan_first_tie in Hscan
      as (pre & post & pq & Hcands & _ & Hp & Hpq & Hpre).
    exists pre, post. split; [assumption|]. split; [eauto|assumption].
Qed.

Lemma deadbeat_dad_emits_for_first_probed_tie_witness :
  let p := Node 2 0 [Node 0 1 []; Node 1 0 []] in
  let c := Node 2 0 [Node 0 1 []; Node 1 1 []] in
  deadbeat_dad tie_grammar p (Some (1 # 8)) = (Ok [c], p) /\
  In c [c] /\
  exists pre post,
    dd_candidates c = pre ++ p :: post /\
    (exists ppt, find_probability tie_grammar p = Ok ppt /\ (ppt == 1 # 8)%Q) /\
    forall q, In q pre ->
              exists pq, find_probability tie_grammar q = Ok pq
                         /\ ~ (pq == 1 # 8)%Q.
Proof.
  intros p c.
  assert (Hrun : deadbeat_dad tie_grammar p (Some (1 # 8)) = (Ok [c], p))
    by (vm_compute; reflexivity).
  assert (Hin : In c [c]) by (simpl; auto).
  split; [exact Hrun|]. split; [exact Hin|].
  exact (proj2 (proj2 (deadbeat_dad_emits_for_first_probed_tie
                         tie_grammar p (1 # 8) [c] p c Hrun Hin))).
Defined.

(** C3, as the specification words it, fails: in [tie_grammar] the child
    [[2,0,[[0,1,[]],[1,1,[]]]]] has two parents of probability 1/8; the one
    that emits it is [[2,0,[[0,1,[]],[1,0,[]]]]], which is
    lexicographically greater than the other, [[2,0,[[0,0,[]],[1,1,[]]]]]. *)
Lemma tie_break_is_not_lexicographic : ~ tie_break_is_lexicographic.
Proof.
  intros H.
  apply (H tie_grammar
           (Node 2 0 [Node 0 1 []; Node 1 0 []])
           (Node 2 0 [Node 0 1 []; Node 1 1 []])
           (Node 2 0 [Node 0 0 []; Node 1 1 []])
           [Node 2 0 [Node 0 1 []; Node 1 1 []]]
           (1 * (1 # 4) * (1 # 2))%Q (1 * (1 # 2) * (1 # 4))%Q).
  - vm_compute; reflexivity.
  - vm_compute; reflexivity.
  - simpl; auto.
  - simpl; auto.
  - reflexivity.
  - reflexivity.
  - reflexivity.
  - vm_compute; reflexivity.
Qed.

(** ** A child has at most one emitter *)

Lemma first_match_unique {A} (P : A -> Prop) :
  forall (pre1 pre2 : list A) a b post1 post2,
    pre1 ++ a :: post1 = pre2 ++ b :: post2 ->
    (forall x, In x pre1 -> ~ P x) -> P a ->
    (forall x, In x pre2 -> ~ P x) -> P b ->
    a = b.
Proof.
  induction pre1 as [|x pre1 IH]; intros [|y pre2] a b post1 post2 E H1 Ha H2 Hb;
    simpl in E.
  - now injection E.
  - injection E as -> _. exfalso. apply (H2 y); [now left|exact Ha].
  - injection E as -> _. exfalso. apply (H1 b); [now left|exact Hb].
  - injection E as _ E. eapply IH; eauto.
    + intros z Hz. apply H1. now right.
    + intros z Hz. apply H2. now right.
Qed.

Lemma emitted_by_one gr c t1 t2 pp1 pp2 :
  emitted gr t1 pp1 c -> emitted gr t2 pp2 c -> t1 = t2.
Proof.
  intros [rest1 H1] [rest2 H2].
  pose proof (dd_scan_all_ge _ _ _ _ _ H1) as Hge1.
  pose proof (dd_scan_all_ge _ _ _ _ _ H2) as Hge2.
  apply dd_scan_first_tie in H1 as (pre1 & post1 & p1 & E1 & _ & Hp1 & Hq1 & Hpre1).
  apply dd_scan_first_tie in H2 as (pre2 & post2 & p2 & E2 & _ & Hp2 & Hq2 & Hpre2).
  assert (Hin1 : In t1 (dd_candidates c))
    by (rewrite E1; apply in_or_app; right; now left).
  assert (Hin2 : In t2 (dd_candidates c))
    by (rewrite E2; apply in_or_app; right; now left).
  destruct (Hge2 t1 Hin1) as (p1' & Hp1' & Hle21).
  destruct (Hge1 t2 Hin2) as (p2' & Hp2' & Hle12).
  rewrite Hp1 in Hp1'. injection Hp1' as <-.
  rewrite Hp2 in Hp2'. injection Hp2' as <-.
  assert (Heq : (pp1 == pp2)%Q).
  { apply Qle_antisym.
    - rewrite <- Hq2. exact Hle12.
    - rewrite <- Hq1. exact Hle21. }
  apply (first_match_unique
           (fun q => exists pq, find_probability gr q = Ok pq /\ (pq == pp1)%Q)
           pre1 pre2 t1 t2 post1 post2).
  - now rewrite <- E1, <- E2.
  - intros x Hx (pq & Hpq & Hq). destruct (Hpre1 x Hx) as (pq' & Hpq' & Hn).
    rewrite Hpq in Hpq'. injection Hpq' as <-. contradiction.
  - eauto.
  - intros x Hx (pq & Hpq & Hq). destruct (Hpre2 x Hx) as (pq' & Hpq' & Hn).
    rewrite Hpq in Hpq'. injection Hpq' as <-. apply Hn. now rewrite Hq.
  - exists p2. split; [exact Hp2|]. now rewrite Hq2.
Qed.

(** No derivation is returned by two distinct parents. *)
Lemma deadbeat_dad_one_emitter gr t1 t2 pp1 pp2 l1 l2 t1' t2' c :
  deadbeat_dad gr t1 (Some pp1) = (Ok l1, t1') -> In c l1 ->
  deadbeat_dad gr t2 (Some pp2) = (Ok l2, t2') -> In c l2 ->
  t1 = t2.
Proof.
  intros R1 C1 R2 C2.
  assert (Hem : forall t pp l t', deadbeat_dad gr t (Some pp) = (Ok l, t') ->
                                  In c l -> emitted gr t pp c).
  { intros t pp l t' R Hc.
    destruct (deadbeat_dad_refines gr t (Some pp)) as (x & H1 & _).
    rewrite R in H1. injection H1 as H1 _.
    unfold deadbeat_dad_pure in H1. simpl in H1. symmetry in H1.
    apply dd_children_at_emits in H1 as (extra & -> & Hex).
    simpl in Hc. rewrite List.Forall_forall in Hex. now apply Hex. }
  eapply emitted_by_one; eauto.
Qed.

(** C2 fails on the code.  In [s1_grammar] (which satisfies the grammar
    invariants) the derivation [[2,0,[[1,0,[[0,0,[]]]]]]] is a child of
    [[2,0,[[1,0,[]]]]], which is its only parent and is itself emitted from
    START; yet [deadbeat_dad] returns it from none of the derivations
    reachable from START. *)
Theorem deadbeat_dad_omits_reachable_derivation :
  let start := Node 2 0 [] in
  let p := Node 2 0 [Node 1 0 []] in
  let c := Node 2 0 [Node 1 0 [Node 0 0 []]] in
  grammar_ok s1_grammar = true /\
  start_index s1_grammar = 2%Z /\
  find_children s1_grammar start = Ok [p] /\
  find_children s1_grammar p = Ok [c] /\
  find_children s1_grammar c = Ok [] /\
  findMyParents c = [p] /\
  fst (deadbeat_dad s1_grammar start None) = Ok [p] /\
  fst (deadbeat_dad s1_grammar p None) = Ok [] /\
  fst (deadbeat_dad s1_grammar c None) = Ok [].
Proof. vm_compute. repeat split; reflexivity. Qed.

(** * The successor function: probabilities, parents and the deadbeat-dad
      selection *)

Lemma find_probability_eq gr g r cs :
  find_probability gr (Node g r cs)
  = (rep <- repl_at gr g r ;; children_probability gr cs (prob rep))%res.
Proof.
  cbn [find_probability]. destruct (repl_at gr g r) as [rep|e|]; simpl; auto.
  generalize (prob rep).
  induction cs as [|c l IH]; intros q; simpl; [reflexivity|].
  destruct (find_probability gr c); simpl; auto.
Qed.

Lemma find_children_eq gr g r cs :
  find_children gr (Node g r cs)
  = if Nat.eqb (length cs) 0 then
      (nt <- py_index gr g ;;
       let ret_list :=
         if Nat.ltb (r + 1) (length (replacements nt))
         then [Node g (r + 1) []] else [] in
       rep0 <- py_index (replacements nt) 0 ;;
       if negb (is_terminal rep0) then
         rep <- py_index (replacements nt) r ;;
         Ok (ret_list ++ [Node g r (map (fun x => Node x 0 []) (pos rep))])
       else Ok ret_list)%res
    else children_of_children gr g r [] cs.
Proof.
  cbn [find_children].
  destruct (Nat.eqb (length cs) 0) eqn:E.
  - apply Nat.eqb_eq, length_zero_iff_nil in E. now subst.
  - assert (H : forall after before,
               (fix loop (before after : list node) {struct after}
                  : result (list node) :=
                  match after with
                  | [] => Ok []
                  | c :: t =>
                      (temp_list <- find_children gr c ;;
                       more <- loop (before ++ [c]) t ;;
                       Ok (map (fun y => Node g r (map copy_node before ++ y
                                                     :: map copy_node t))
                               temp_list ++ more))%res
                  end) before after
               = children_of_children gr g r before after).
    { induction after as [|c t IH]; intros before; [reflexivity|].
      simpl. destruct (find_children gr c); simpl; auto. now rewrite IH. }
    now rewrite H.
Qed.

Lemma repl_at_In (gr : list nonterminal) g r rep :
  repl_at gr g r = Ok rep ->
  exists nt, gr !! g = Some nt /\ replacements nt !! r = Some rep /\
             In nt gr /\ In rep (replacements nt).
Proof.
  unfold repl_at, py_index.
  destruct (gr !! g) as [nt|] eqn:Eg; simpl; [|discriminate].
  destruct (replacements nt !! r) as [rep'|] eqn:Er; [|discriminate].
  intros [= <-]. exists nt. repeat split; auto.
  - apply list_elem_of_In. eapply list_elem_of_lookup_2; eauto.
  - apply list_elem_of_In. eapply list_elem_of_lookup_2; eauto.
Qed.

(** ** Probabilities of parse trees *)

Lemma children_probability_bounds gr (l : list node) :
  Forall (fun c => forall p, find_probability gr c = Ok p -> (0 <= p <= 1)%Q) l ->
  forall cur v,
    (0 <= cur)%Q ->
    children_probability gr l cur = Ok v -> (0 <= v <= cur)%Q.
Proof.
  induction 1 as [|c l Hc _ IH]; intros cur v Hcur H; simpl in H.
  - injection H as <-. split; [assumption|apply Qle_refl].
  - destruct (find_probability gr c) as [pc|e|] eqn:E; simpl in H;
      try discriminate.
    destruct (Hc pc eq_refl) as [Hc0 Hc1].
    apply IH in H; [|nra]. split; [tauto|].
    apply Qle_trans with (cur * pc)%Q; [tauto|nra].
Qed.

Lemma find_probability_bounds gr (t : node) p :
  probabilities_in_unit_interval gr ->
  find_probability gr t = Ok p -> (0 <= p <= 1)%Q.
Proof.
  intros Hgr. revert p.
  induction t as [g r cs IH] using node_ind'. intros p.
  rewrite find_probability_eq.
  destruct (repl_at gr g r) as [rep|e|] eqn:Erep; simpl; try discriminate.
  apply repl_at_In in Erep as (nt & _ & _ & Hnt & Hrep).
  destruct (Hgr nt rep Hnt Hrep) as [H0 H1].
  intros H. apply children_probability_bounds in H; auto.
  split; [tauto|]. apply Qle_trans with (prob rep); tauto.
Qed.

Lemma children_probability_mono gr (l : list node) :
  Forall (fun c => forall p, find_probability gr c = Ok p -> (0 <= p)%Q) l ->
  forall cur cur' v v',
    (0 <= cur' <= cur)%Q ->
    children_probability gr l cur = Ok v ->
    children_probability gr l cur' = Ok v' -> (v' <= v)%Q.
Proof.
  induction 1 as [|c l Hc _ IH]; intros cur cur' v v' Hcur H H'; simpl in *.
  - injection H as <-. injection H' as <-. tauto.
  - destruct (find_probability gr c) as [pc|e|] eqn:E; simpl in *;
      try discriminate.
    specialize (Hc pc eq_refl).
    eapply IH; [|exact H|exact H']. nra.
Qed.

Lemma children_probability_insert gr :
  forall (cs : list node) i ci y pi py cur cur' v v',
    Forall (fun c => forall p, find_probability gr c = Ok p -> (0 <= p)%Q) cs ->
    cs !! i = Some ci ->
    find_probability gr ci = Ok pi -> find_probability gr y = Ok py ->
    (0 <= py <= pi)%Q -> (0 <= cur' <= cur)%Q ->
    children_probability gr cs cur = Ok v ->
    children_probability gr (<[i := y]> cs) cur' = Ok v' ->
    (v' <= v)%Q.
Proof.
  induction cs as [|c cs IH]; intros i ci y pi py cur cur' v v' Hall Hi Hpi Hpy
                                     Hle Hcur H H'; [discriminate|].
  inversion Hall as [|? ? Hc Hall']; subst.
  destruct i as [|i]; simpl in *.
  - injection Hi as ->. rewrite Hpi in H. rewrite Hpy in H'. simpl in *.
    eapply children_probability_mono; [exact Hall'| |exact H|exact H']. nra.
  - destruct (find_probability gr c) as [pc|e|] eqn:E; simpl in *;
      try discriminate.
    specialize (Hc pc eq_refl).
    eapply IH; [exact Hall'|exact Hi|exact Hpi|exact Hpy|exact Hle| |exact H|exact H'].
    nra.
Qed.

Lemma non_increasing_adjacent (l : list Q) :
  non_increasing l = true ->
  forall i a b, l !! i = Some a -> l !! (i + 1) = Some b -> (b <= a)%Q.
Proof.
  induction l as [|x l IH]; intros H i a b Ha Hb; [discriminate|].
  destruct l as [|y l]; [destruct i; discriminate|].
  cbn [non_increasing] in H. apply andb_prop in H as [Hxy Hrest].
  destruct i as [|i]; simpl in *.
  - injection Ha as <-. injection Hb as <-. now apply Qle_bool_iff.
  - eapply IH; eauto.
Qed.

Lemma children_of_children_in gr g r c :
  forall after before l,
    children_of_children gr g r before after = Ok l -> In c l ->
    exists i ci ys y,
      after !! i = Some ci /\ find_children gr ci = Ok ys /\ In y ys /\
      c = Node g r (<[length before + i := y]> (before ++ after)).
Proof.
  induction after as [|c0 t IH]; intros before l H Hc; simpl in H.
  - injection H as <-. destruct Hc.
  - destruct (find_children gr c0) as [temp|e|] eqn:E0; simpl in H;
      try discriminate.
    destruct (children_of_children gr g r (before ++ [c0]) t) as [more|e|] eqn:E1;
      simpl in H; try discriminate.
    injection H as <-. apply in_app_or in Hc as [Hc|Hc].
    + apply in_map_iff in Hc as (y & <- & Hy).
      exists 0, c0, temp, y. repeat split; auto.
      rewrite !map_copy_node_id, Nat.add_0_r. f_equal.
      rewrite <- (Nat.add_0_r (length before)) at 1.
      now rewrite insert_app_r.
    + destruct (IH _ _ E1 Hc) as (i & ci & ys & y & Hi & Hys & Hy & ->).
      exists (S i), ci, ys, y. repeat split; auto.
      rewrite length_app. simpl. rewrite <- app_assoc. simpl.
      f_equal. f_equal. lia.
Qed.

Lemma lookup_map {A B} (f : A -> B) (l : list A) i a :
  l !! i = Some a -> map f l !! i = Some (f a).
Proof.
  revert i. induction l as [|x l IH]; intros [|i] H; simpl in *;
    try discriminate.
  - now injection H as ->.
  - now apply IH.
Qed.

Lemma py_index_lookup {A} (l : list A) i a :
  py_index l i = Ok a -> l !! i = Some a.
Proof.
  unfold py_index. destruct (l !! i); [now intros [= ->]|discriminate].
Qed.

Lemma children_probability_lookup gr :
  forall (cs : list node) cur v i ci,
    children_probability gr cs cur = Ok v -> cs !! i = Some ci ->
    exists pi, find_probability gr ci = Ok pi.
Proof.
  induction cs as [|c cs IH]; intros cur v i ci H Hi; [discriminate|].
  simpl in H.
  destruct (find_probability gr c) as [pc|e|] eqn:E; simpl in H;
    try discriminate.
  destruct i as [|i]; simpl in Hi.
  - injection Hi as <-. eauto.
  - eapply IH; eauto.
Qed.

Lemma tie_grammar_unit_interval : probabilities_in_unit_interval tie_grammar.
Proof.
  intros nt rep Hnt Hrep. simpl in Hnt.
  destruct Hnt as [<-|[<-|[<-|[]]]]; simpl in Hrep;
    repeat (destruct Hrep as [<-|Hrep]; [simpl; split; discriminate|]);
    destruct Hrep.
Qed.

Lemma tie_grammar_descends : replacements_descend tie_grammar.
Proof.
  intros nt Hnt. simpl in Hnt.
  destruct Hnt as [<-|[<-|[<-|[]]]]; reflexivity.
Qed.

(** X1. With every replacement probability in [0, 1], the probability
    [find_probability] computes for a parse tree lies in [0, 1]. *)
Theorem find_probability_lies_in_unit_interval gr pt p :
  probabilities_in_unit_interval gr ->
  find_probability gr pt = Ok p -> (0 <= p <= 1)%Q.
Proof.
  intros Hgr H. exact (find_probability_bounds gr pt p Hgr H).
Qed.

Lemma find_probability_lies_in_unit_interval_witness :
  (0 <= 1 # 4 <= 1)%Q.
Proof.
  apply (find_probability_lies_in_unit_interval tie_grammar
           (Node 2 0 [Node 0 0 []; Node 1 0 []])).
  - exact tie_grammar_unit_interval.
  - reflexivity.
Defined.

Lemma find_children_probability_le gr pt children c pp pc :
  probabilities_in_unit_interval gr -> replacements_descend gr ->
  find_children gr pt = Ok children -> In c children ->
  find_probability gr pt = Ok pp -> find_probability gr c = Ok pc ->
  (pc <= pp)%Q.
Proof.
  intros Hunit Hdesc. revert children c pp pc.
  induction pt as [g r cs IH] using node_ind'.
  intros children c pp pc Hch Hc Hpp Hpc.
  assert (Hnonneg : forall l : list node,
             Forall (fun c => forall p, find_probability gr c = Ok p ->
                                        (0 <= p)%Q) l).
  { intros l. apply List.Forall_forall. intros x _ p Hp.
    now apply (find_probability_bounds gr x p Hunit). }
  rewrite find_children_eq in Hch.
  rewrite find_probability_eq in Hpp.
  destruct (repl_at gr g r) as [rep|e|] eqn:Erep; simpl in Hpp;
    try discriminate.
  destruct (repl_at_In _ _ _ _ Erep) as (nt & Hg & Hr & Hnt & Hrep).
  destruct (Hunit nt rep Hnt Hrep) as [Hrep0 Hrep1].
  destruct (Nat.eqb (length cs) 0) eqn:Elen.
  - apply Nat.eqb_eq, length_zero_iff_nil in Elen. subst cs.
    simpl in Hpp. injection Hpp as <-.
    unfold py_index in Hch. rewrite Hg in Hch. simpl in Hch.
    assert (Hinc : In c (if Nat.ltb (r + 1) (length (replacements nt))
                         then [Node g (r + 1) []] else []) ->
                   (pc <= prob rep)%Q).
    { destruct (Nat.ltb (r + 1) (length (replacements nt))); [|intros []].
      intros [<-|[]]. rewrite find_probability_eq in Hpc.
      destruct (repl_at gr g (r + 1)) as [rep'|e|] eqn:Erep'; simpl in Hpc;
        try discriminate.
      injection Hpc as <-.
      apply repl_at_In in Erep' as (nt' & Hg' & Hr' & _ & _).
      rewrite Hg in Hg'. injection Hg' as <-.
      eapply (non_increasing_adjacent _ (Hdesc nt Hnt) r).
      - now apply lookup_map.
      - now apply lookup_map. }
    destruct (replacements nt !! 0) as [rep0|] eqn:E0; simpl in Hch;
      [|discriminate].
    destruct (negb (is_terminal rep0)).
    + rewrite Hr in Hch. simpl in Hch. injection Hch as <-.
      apply in_app_or in Hc as [Hc|[<-|[]]]; [auto|].
      rewrite find_probability_eq, Erep in Hpc. simpl in Hpc.
      eapply children_probability_bounds in Hpc; [tauto| |assumption].
      apply List.Forall_forall. intros x _ p Hp.
      now apply (find_probability_bounds gr x p Hunit).
    + injection Hch as <-. auto.
  - destruct (children_of_children_in _ _ _ _ _ _ _ Hch Hc)
      as (i & ci & ys & y & Hi & Hys & Hy & ->).
    cbn [length app Nat.add] in Hpc.
    rewrite find_probability_eq, Erep in Hpc. cbn [rbind] in Hpc, Hpp.
    destruct (children_probability_lookup _ _ _ _ _ _ Hpp Hi) as [pi Hpi].
    assert (Hiy : (<[i := y]> cs) !! i = Some y).
    { apply list_lookup_insert_eq. eapply lookup_lt_Some; eauto. }
    destruct (children_probability_lookup _ _ _ _ _ _ Hpc Hiy) as [py Hpy].
    assert (Hle : (py <= pi)%Q).
    { rewrite List.Forall_forall in IH.
      eapply (IH ci); eauto.
      apply list_elem_of_In. eapply list_elem_of_lookup_2; eauto. }
    eapply (children_probability_insert gr cs i ci y pi py);
      [apply Hnonneg|exact Hi|exact Hpi|exact Hpy| | |exact Hpp|exact Hpc].
    + split; [|assumption].
      now apply (find_probability_bounds gr y py Hunit).
    + split; [assumption|apply Qle_refl].
Qed.

(** X2. No child that [find_children] returns is more probable than the
    tree it was derived from, when the replacements of every non-terminal
    are listed by non-increasing probability and every probability lies in
    [0, 1]. *)
Theorem find_children_are_no_more_probable gr pt children c pp pc :
  probabilities_in_unit_interval gr -> replacements_descend gr ->
  find_children gr pt = Ok children -> In c children ->
  find_probability gr pt = Ok pp -> find_probability gr c = Ok pc ->
  (pc <= pp)%Q.
Proof. apply find_children_probability_le. Qed.

Lemma find_children_are_no_more_probable_witness :
  (1 # 8 <= 1 # 4)%Q.
Proof.
  apply (find_children_are_no_more_probable tie_grammar
           (Node 2 0 [Node 0 0 []; Node 1 0 []])
           [Node 2 0 [Node 0 1 []; Node 1 0 []];
            Node 2 0 [Node 0 0 []; Node 1 1 []]]
           (Node 2 0 [Node 0 1 []; Node 1 0 []])).
  - exact tie_grammar_unit_interval.
  - exact tie_grammar_descends.
  - reflexivity.
  - simpl. auto.
  - reflexivity.
  - reflexivity.
Defined.

(** ** Children name their parent *)

Lemma parents_from_children_intro g r :
  forall (after before : list node) i c y,
    after !! i = Some c -> In y (findMyParents c) ->
    In (Node g r (<[length before + i := y]> (before ++ after)))
       (parents_from_children g r before after).
Proof.
  induction after as [|c0 t IH]; intros before i c y Hi Hy; [discriminate|].
  cbn [parents_from_children]. apply in_or_app.
  destruct i as [|i]; simpl in Hi.
  - injection Hi as ->. left. apply in_map_iff. exists y. split; [|exact Hy].
    rewrite !map_copy_node_id, Nat.add_0_r. f_equal.
    rewrite <- (Nat.add_0_r (length before)) at 1.
    now rewrite insert_app_r.
  - right. specialize (IH (before ++ [c0]) i c y Hi Hy).
    rewrite length_app in IH. simpl in IH. rewrite <- app_assoc in IH.
    simpl in IH. replace (length before + S i) with (length before + 1 + i) by lia.
    exact IH.
Qed.

Lemma find_children_parent gr pt children c :
  expandable_ok gr ->
  find_children gr pt = Ok children -> In c children ->
  In pt (findMyParents c).
Proof.
  intros Hgr. revert children c.
  induction pt as [g r cs IH] using node_ind'. intros children c Hch Hc.
  rewrite find_children_eq in Hch.
  destruct (Nat.eqb (length cs) 0) eqn:Elen.
  - apply Nat.eqb_eq, length_zero_iff_nil in Elen. subst cs.
    destruct (py_index gr g) as [nt|e|] eqn:Eg; simpl in Hch; try discriminate.
    assert (Hinc : In c (if Nat.ltb (r + 1) (length (replacements nt))
                         then [Node g (r + 1) []] else []) ->
                   In (Node g r []) (findMyParents c)).
    { destruct (Nat.ltb (r + 1) (length (replacements nt))); [|intros []].
      intros [<-|[]]. rewrite findMyParents_eq. simpl.
      replace (Nat.eqb (r + 1) 0) with false
        by (symmetry; apply Nat.eqb_neq; lia).
      simpl. left. f_equal. lia. }
    destruct (py_index (replacements nt) 0) as [rep0|e|] eqn:E0; simpl in Hch;
      try discriminate.
    destruct (is_terminal rep0) eqn:Eterm; simpl in Hch.
    + injection Hch as <-. auto.
    + destruct (py_index (replacements nt) r) as [rep|e|] eqn:Er; simpl in Hch;
        try discriminate.
      injection Hch as <-.
      apply in_app_or in Hc as [Hc|[<-|[]]]; [auto|].
      destruct (Hgr nt rep0 rep) as [_ Hpos].
      { eapply py_index_In; eauto. }
      { now apply py_index_lookup. }
      { eapply py_index_In; eauto. }
      specialize (Hpos Eterm).
      assert (Hnil : forall (l : list nat) before,
                 parents_from_children g r before
                   (map (fun x => Node x 0 []) l) = []).
      { induction l as [|x0 l IHl]; intros before; [reflexivity|].
        cbn [map parents_from_children]. rewrite IHl. reflexivity. }
      rewrite findMyParents_eq, Hnil, length_map.
      destruct (pos rep) as [|x xs]; [congruence|]. simpl. now left.
  - destruct (children_of_children_in _ _ _ _ _ _ _ Hch Hc)
      as (i & ci & ys & y & Hi & Hys & Hy & ->).
    cbn [length app Nat.add].
    assert (Hlt : i < length cs) by (eapply lookup_lt_Some; eauto).
    assert (Hiy : (<[i := y]> cs) !! i = Some y)
      by now apply list_lookup_insert_eq.
    assert (Hpar : In ci (findMyParents y)).
    { rewrite List.Forall_forall in IH. eapply (IH ci); eauto.
      apply list_elem_of_In. eapply list_elem_of_lookup_2; eauto. }
    pose proof (parents_from_children_intro g r (<[i := y]> cs) [] i y ci
                  Hiy Hpar) as Hin.
    cbn [length app Nat.add] in Hin.
    rewrite list_insert_insert_eq, list_insert_id in Hin by assumption.
    rewrite findMyParents_eq.
    rewrite length_insert, Elen.
    destruct (parents_from_children g r [] (<[i := y]> cs)); [destruct Hin|].
    exact Hin.
Qed.

(** X3. Every child that [find_children] returns for a tree lists that
    tree among its parents ([findMyParents]), on a grammar whose expansions
    are never empty. *)
Theorem find_children_name_their_parent gr pt children c :
  expandable_ok gr ->
  find_children gr pt = Ok children -> In c children ->
  In pt (findMyParents c).
Proof. apply find_children_parent. Qed.

Lemma find_children_name_their_parent_witness :
  In (Node 2 0 [Node 0 0 []; Node 1 0 []])
     (findMyParents (Node 2 0 [Node 0 1 []; Node 1 0 []])).
Proof.
  apply (find_children_name_their_parent tie_grammar
           (Node 2 0 [Node 0 0 []; Node 1 0 []])
           [Node 2 0 [Node 0 1 []; Node 1 0 []];
            Node 2 0 [Node 0 0 []; Node 1 1 []]]).
  - exact tie_grammar_expandable.
  - reflexivity.
  - simpl. auto.
Defined.

(** ** The deadbeat-dad children are children *)

Lemma sublist_map {A B} (f : A -> B) (l1 l2 : list A) :
  sublist l1 l2 -> sublist (map f l1) (map f l2).
Proof. induction 1; simpl; constructor; auto. Qed.

Lemma try_edit_sublist gr t p n f pp acc l :
  get_at p t = Some n ->
  try_edit gr t (update_at p f t) pp acc = Ok l ->
  exists zs extra,
    sublist zs [f n] /\ l = acc ++ extra /\
    Forall2 (fun z e => update_at p (fun _ => z) t = Some e) zs extra.
Proof.
  intros Hn H. apply try_edit_emits in H as [->|(c & Hc & -> & _)].
  - exists [], []. rewrite app_nil_r. repeat split; [|constructor].
    apply sublist_nil_l.
  - exists [f n], [c]. repeat split; [reflexivity|].
    constructor; [|constructor].
    rewrite <- Hc. symmetry. now apply (update_at_ext p f (fun _ => f n) t n).
Qed.

Lemma dd_children_at_sublist gr t pp :
  forall n p acc l,
    get_at p t = Some n ->
    dd_children_at gr t pp n p acc = Ok l ->
    exists ys zs extra,
      find_children gr n = Ok ys /\ sublist zs ys /\ l = acc ++ extra /\
      Forall2 (fun z e => update_at p (fun _ => z) t = Some e) zs extra.
Proof.
  induction n as [g r cs IH] using node_ind'. intros p acc l Hn.
  rewrite find_children_eq. cbn [dd_children_at].
  destruct (Nat.eqb (length cs) 0) eqn:Elen.
  - apply Nat.eqb_eq, length_zero_iff_nil in Elen. subst cs.
    destruct (py_index gr g) as [nt|e|]; simpl; try discriminate.
    set (first := if Nat.ltb (r + 1) (length (replacements nt)) then _ else _).
    destruct first as [l1|e|] eqn:E1; simpl; try discriminate.
    assert (H1 : exists zs extra,
               sublist zs (if Nat.ltb (r + 1) (length (replacements nt))
                           then [Node g (r + 1) []] else []) /\
               l1 = acc ++ extra /\
               Forall2 (fun z e => update_at p (fun _ => z) t = Some e)
                       zs extra).
    { subst first. destruct (Nat.ltb (r + 1) (length (replacements nt))).
      - eapply try_edit_sublist in E1; [|exact Hn]. exact E1.
      - injection E1 as <-. exists [], []. rewrite app_nil_r.
        repeat split; constructor. }
    destruct H1 as (zs1 & ex1 & Hs1 & -> & Hf1).
    destruct (py_index (replacements nt) 0) as [rep0|e|]; simpl;
      try discriminate.
    destruct (negb (is_terminal rep0)).
    + destruct (py_index (replacements nt) r) as [rep|e|]; simpl;
        try discriminate.
      intros H. eapply try_edit_sublist in H; [|exact Hn].
      destruct H as (zs2 & ex2 & Hs2 & -> & Hf2).
      eexists _, (zs1 ++ zs2), (ex1 ++ ex2). split; [reflexivity|].
      split; [now apply sublist_app|]. split; [now rewrite app_assoc|].
      now apply Forall2_app.
    + intros [= <-]. eexists _, zs1, ex1. repeat split; auto.
  - assert (Hgen : forall after before i acc0 l1,
               i = length before -> cs = before ++ after ->
               Forall (fun c => forall p acc l,
                           get_at p t = Some c ->
                           dd_children_at gr t pp c p acc = Ok l ->
                           exists ys zs extra,
                             find_children gr c = Ok ys /\ sublist zs ys /\
                             l = acc ++ extra /\
                             Forall2 (fun z e =>
                                        update_at p (fun _ => z) t = Some e)
                                     zs extra) after ->
               (fix loop (i : nat) (l : list node) (acc : list node)
                  {struct l} : result (list node) :=
                  match l with
                  | [] => Ok acc
                  | c :: l' =>
                      (acc' <- dd_children_at gr t pp c (p ++ [i]) acc ;;
                       loop (S i) l' acc')%res
                  end) i after acc0 = Ok l1 ->
               exists ys zs extra,
                 children_of_children gr g r before after = Ok ys /\
                 sublist zs ys /\ l1 = acc0 ++ extra /\
                 Forall2 (fun z e => update_at p (fun _ => z) t = Some e)
                         zs extra).
    { induction after as [|c after IHl]; intros before i acc0 l1 Hi Hcs Hall H.
      - injection H as <-. exists [], [], []. rewrite app_nil_r.
        repeat split; constructor.
      - inversion Hall as [|? ? Hc Hall']; subst.
        destruct (dd_children_at gr t pp c (p ++ [length before]) acc0)
          as [acc'|e|] eqn:E; simpl in H; try discriminate.
        assert (Hlook : (before ++ c :: after) !! length before = Some c)
          by apply list_lookup_middle, eq_refl.
        assert (Hget : get_at (p ++ [length before]) t = Some c).
        { rewrite (get_at_snoc p _ t _ Hn). exact Hlook. }
        destruct (Hc _ _ _ Hget E) as (ys1 & zs1 & ex1 & Hys1 & Hs1 & -> & Hf1).
        apply (IHl (before ++ [c])) in H; [| |now rewrite <- app_assoc|assumption].
        2:{ rewrite length_app. simpl. lia. }
        destruct H as (ys2 & zs2 & ex2 & Hys2 & Hs2 & -> & Hf2).
        cbn [children_of_children]. rewrite Hys1, Hys2. simpl.
        eexists _, (map _ zs1 ++ zs2), (ex1 ++ ex2). split; [reflexivity|].
        split; [apply sublist_app; [now apply sublist_map|assumption]|].
        split; [now rewrite app_assoc|].
        apply Forall2_app; [|assumption].
        clear - Hf1 Hn Hlook. induction Hf1 as [|z e zs es Hze _ IHf];
          simpl; constructor; [|exact IHf].
        rewrite (update_at_child p (fun _ => z) (length before) g r
                   (before ++ c :: after) c t Hn Hlook) in Hze.
        rewrite <- Hze. rewrite !map_copy_node_id.
        apply (update_at_ext p _ _ t _ Hn). f_equal.
        rewrite <- (Nat.add_0_r (length before)).
        now rewrite insert_app_r. }
    intros H. eapply (Hgen cs [] 0) in H; eauto.
Qed.

Lemma deadbeat_dad_sublist gr pt parent_prob l pt' :
  deadbeat_dad gr pt parent_prob = (Ok l, pt') ->
  exists children,
    find_children gr pt = Ok children /\ sublist l children.
Proof.
  intros H.
  destruct (deadbeat_dad_refines gr pt parent_prob) as (pt'' & Hrun & _).
  rewrite Hrun in H. injection H as Hpure _.
  unfold deadbeat_dad_pure in Hpure.
  destruct (match parent_prob with
            | Some p => Ok p
            | None => find_probability gr pt
            end) as [pp|e|]; simpl in Hpure; try discriminate.
  apply dd_children_at_sublist in Hpure; [|reflexivity].
  destruct Hpure as (ys & zs & extra & Hys & Hsub & -> & Hf).
  exists ys. split; [assumption|]. simpl.
  assert (zs = extra) as <-; [|assumption].
  clear - Hf. induction Hf as [|z e zs es Hze _ IH]; [reflexivity|].
  simpl in Hze. injection Hze as ->. now rewrite IH.
Qed.

(** X4. The children that [deadbeat_dad] returns are children that
    [find_children] returns for the same tree, in the same order: the
    deadbeat-dad selection only leaves children out. *)
Theorem deadbeat_dad_selects_among_find_children gr pt parent_prob l pt' :
  deadbeat_dad gr pt parent_prob = (Ok l, pt') ->
  exists children,
    find_children gr pt = Ok children /\ sublist l children.
Proof. apply deadbeat_dad_sublist. Qed.

Lemma deadbeat_dad_selects_among_find_children_witness :
  exists children,
    find_children tie_grammar (Node 2 0 [Node 0 1 []; Node 1 0 []])
    = Ok children /\
    sublist [Node 2 0 [Node 0 1 []; Node 1 1 []]] children.
Proof.
  apply (deadbeat_dad_selects_among_find_children tie_grammar
           (Node 2 0 [Node 0 1 []; Node 1 0 []]) (Some (1 # 8))
           [Node 2 0 [Node 0 1 []; Node 1 1 []]]
           (Node 2 0 [Node 0 1 []; Node 1 0 []])).
  reflexivity.
Defined.

(** X5. No derivation is returned by [deadbeat_dad] for two different
    parents: whatever probabilities the two calls are given, a child that
    both return has the same parent. *)
Theorem deadbeat_dad_child_has_one_emitting_parent
    gr t1 t2 pp1 pp2 l1 l2 t1' t2' c :
  deadbeat_dad gr t1 (Some pp1) = (Ok l1, t1') -> In c l1 ->
  deadbeat_dad gr t2 (Some pp2) = (Ok l2, t2') -> In c l2 ->
  t1 = t2.
Proof. apply deadbeat_dad_one_emitter. Qed.

Lemma deadbeat_dad_child_has_one_emitting_parent_witness :
  Node 2 0 [Node 0 1 []; Node 1 0 []] = Node 2 0 [Node 0 1 []; Node 1 0 []].
Proof.
  apply (deadbeat_dad_child_has_one_emitting_parent tie_grammar
           (Node 2 0 [Node 0 1 []; Node 1 0 []])
           (Node 2 0 [Node 0 1 []; Node 1 0 []])
           (1 # 8) (1 # 8)
           [Node 2 0 [Node 0 1 []; Node 1 1 []]]
           [Node 2 0 [Node 0 1 []; Node 1 1 []]]
           (Node 2 0 [Node 0 1 []; Node 1 0 []])
           (Node 2 0 [Node 0 1 []; Node 1 0 []])
           (Node 2 0 [Node 0 1 []; Node 1 1 []])).
  - reflexivity.
  - simpl. auto.
  - reflexivity.
  - simpl. auto.
Defined.

(** ** The verdict of [dd_is_my_child] *)

Lemma dd_scan_false gr cands pp :
  forall cp cp',
    dd_scan gr cands pp cp = Ok (false, cp') ->
    exists q pq, In q cands /\ find_probability gr q = Ok pq /\ (pq < pp)%Q.
Proof.
  induction cands as [|q0 cands IH]; intros cp cp' H; simpl in H.
  - discriminate.
  - destruct (find_probability gr q0) as [cpp|e|] eqn:E; simpl in H;
      try discriminate.
    destruct (Qlt_le_dec cpp pp) as [Hlt|Hge].
    + exists q0, cpp. repeat split; auto. now left.
    + apply IH in H as (q & pq & Hq & Hpq & Hlt).
      exists q, pq. repeat split; auto. now right.
Qed.

(** X6. [dd_is_my_child] never loops forever; when it returns, the tree
    [child] it edited is as it was before the call, the verdict is False
    exactly when one of the candidate parents it probes is less probable
    than [previous_parent_prob], and after the verdict True every parent
    that [findMyParents] lists is at least that probable. *)
Theorem dd_is_my_child_verdict gr previous_parent_prob child r child' :
  dd_is_my_child gr previous_parent_prob [] child = (r, child') ->
  r <> Diverge /\
  forall b childs_parent,
    r = Ok (b, childs_parent) ->
    child' = child /\
    (b = false <->
     exists q pq, In q (dd_candidates child) /\
                  find_probability gr q = Ok pq /\
                  (pq < previous_parent_prob)%Q) /\
    (b = true ->
     forall q, In q (findMyParents child) ->
               exists pq, find_probability gr q = Ok pq /\
                          (previous_parent_prob <= pq)%Q).
Proof.
  intros H.
  destruct (dd_is_my_child_refines gr previous_parent_prob [] child)
    as (t' & Hrun & Hsame).
  rewrite Hrun in H. injection H as <- <-.
  split.
  - pose proof (plain_dd_scan gr (dd_candidates child) previous_parent_prob [])
      as Hp.
    intros E. rewrite E in Hp. exact Hp.
  - intros b cp E. split; [eapply Hsame; eauto|]. split.
    + split.
      * intros ->. eapply dd_scan_false; eauto.
      * intros (q & pq & Hq & Hpq & Hlt). destruct b; [|reflexivity].
        destruct (dd_scan_all_ge _ _ _ _ _ E q Hq) as (pq' & Hpq' & Hge).
        rewrite Hpq in Hpq'. injection Hpq' as <-.
        exfalso. apply (Qlt_not_le _ _ Hlt Hge).
    + intros -> q Hq.
      eapply dd_scan_all_ge; eauto.
      now apply findMyParents_are_candidates.
Qed.

Lemma dd_is_my_child_verdict_witness :
  let child := Node 2 0 [Node 0 1 []; Node 1 1 []] in
  dd_is_my_child tie_grammar (1 # 8) [] child
  = (Ok (true, [Node 2 0 [Node 0 1 []; Node 1 0 []]]), child) /\
  forall q, In q (findMyParents child) ->
            exists pq, find_probability tie_grammar q = Ok pq /\
                       (1 # 8 <= pq)%Q.
Proof.
  split; [reflexivity|].
  refine (proj2 (proj2 (proj2
           (dd_is_my_child_verdict tie_grammar (1 # 8)
              (Node 2 0 [Node 0 1 []; Node 1 1 []])
              (Ok (true, [Node 2 0 [Node 0 1 []; Node 1 0 []]]))
              (Node 2 0 [Node 0 1 []; Node 1 1 []]) eq_refl)
           true [Node 2 0 [Node 0 1 []; Node 1 0 []]] eq_refl)) eq_refl).
Defined.

(** ** [start_index] *)

(** X7. An index that [start_index] returns is the last index of the
    grammar and holds a non-terminal of type START; otherwise the result is
    -1, which is what every grammar whose last non-terminal is not of type
    START gets. *)
Theorem start_index_is_the_last_start_or_minus_one gr :
  (start_index gr = (-1)%Z /\
   forall nt, last gr = Some nt -> type nt <> "START"%string) \/
  (start_index gr = (Z.of_nat (length gr) - 1)%Z /\
   exists nt, gr !! (Z.to_nat (start_index gr)) = Some nt /\
              last gr = Some nt /\ type nt = "START"%string).
Proof.
  rewrite start_index_last_only.
  destruct (last gr) as [nt|] eqn:El.
  - destruct (String.eqb (type nt) "START") eqn:E.
    + right. split; [reflexivity|]. exists nt. apply String.eqb_eq in E.
      repeat split; auto.
      rewrite last_lookup in El.
      replace (Z.to_nat (Z.of_nat (length gr) - 1)) with (pred (length gr))
        by lia.
      exact El.
    + left. split; [reflexivity|]. intros nt' [= <-].
      now apply String.eqb_neq.
  - left. split; [reflexivity|]. discriminate.
Qed.

(** ** Well-formed trees stay well formed *)

Lemma children_of_children_ok gr g r :
  forall (after before : list node),
    Forall (fun c => exists l, find_children gr c = Ok l) after ->
    exists l, children_of_children gr g r before after = Ok l.
Proof.
  induction after as [|c after IH]; intros before Hall; simpl; [eauto|].
  inversion Hall as [|? ? [l1 Hc] Hall']; subst.
  rewrite Hc. simpl.
  destruct (IH (before ++ [c]) Hall') as [l2 ->]. simpl. eauto.
Qed.

Lemma find_children_ok gr (pt : node) :
  expandable_ok gr -> tree_ok gr pt = true ->
  exists l, find_children gr pt = Ok l /\
            forall c, In c l -> tree_ok gr c = true.
Proof.
  intros Hgr. induction pt as [g r cs IH] using node_ind'. intros Hok.
  pose proof Hok as Hok'.
  apply tree_ok_unfold in Hok as [[rep Hrep] Hcs].
  rewrite find_children_eq.
  destruct (Nat.eqb (length cs) 0) eqn:Elen.
  - apply Nat.eqb_eq, length_zero_iff_nil in Elen. subst cs.
    destruct (repl_at_In _ _ _ _ Hrep) as (nt & Hg & Hr & Hnt & Hin).
    unfold py_index. rewrite Hg. cbn [rbind].
    assert (Hr0 : exists rep0, replacements nt !! 0 = Some rep0).
    { apply lookup_lt_is_Some_2. apply lookup_lt_Some in Hr. lia. }
    destruct Hr0 as [rep0 Hr0]. rewrite Hr0. cbn [rbind]. rewrite Hr.
    assert (Hinc : forall c,
               In c (if Nat.ltb (r + 1) (length (replacements nt))
                     then [Node g (r + 1) []] else []) ->
               tree_ok gr c = true).
    { destruct (Nat.ltb (r + 1) (length (replacements nt))) eqn:Elt;
        [|intros c []].
      intros c [<-|[]]. apply Nat.ltb_lt in Elt.
      apply tree_ok_unfold. split; [|constructor].
      destruct (lookup_lt_is_Some_2 _ _ Elt) as [rep' Hrep'].
      exists rep'. unfold repl_at, py_index. rewrite Hg. simpl.
      now rewrite Hrep'. }
    destruct (negb (is_terminal rep0)); cbn [rbind].
    + eexists. split; [reflexivity|].
      intros c Hc. apply in_app_or in Hc as [Hc|[<-|[]]]; [auto|].
      apply tree_ok_unfold. split; [eauto|].
      apply List.Forall_forall. intros n Hn.
      apply in_map_iff in Hn as (x & <- & Hx).
      destruct (Hgr nt rep0 rep Hnt Hr0 Hin) as [Hpos _].
      destruct (Hpos x Hx) as [rep' Hrep'].
      apply tree_ok_unfold. split; [eauto|constructor].
    + eexists. split; [reflexivity|]. exact Hinc.
  - assert (Hall : Forall (fun c => exists l, find_children gr c = Ok l) cs).
    { rewrite List.Forall_forall in *. intros c Hc.
      destruct (IH c Hc (Hcs c Hc)) as (l & Hl & _). eauto. }
    destruct (children_of_children_ok gr g r cs [] Hall) as [l Hl].
    exists l. split; [exact Hl|]. intros c Hc.
    destruct (children_of_children_in _ _ _ _ _ _ _ Hl Hc)
      as (i & ci & ys & y & Hi & Hys & Hy & ->).
    cbn [length app Nat.add].
    assert (Hci : In ci cs).
    { apply list_elem_of_In. eapply list_elem_of_lookup_2; eauto. }
    rewrite List.Forall_forall in IH, Hcs.
    destruct (IH ci Hci (Hcs ci Hci)) as (l' & Hl' & Hok1).
    rewrite Hys in Hl'. injection Hl' as <-.
    apply tree_ok_unfold. split; [eauto|].
    apply Forall_insert; [|now apply Hok1].
    apply List.Forall_forall. exact Hcs.
Qed.

(** X26. On a tree whose nodes all name existing replacements, over a
    grammar whose [pos] lists name non-terminals that have a first
    replacement, [find_children] raises nothing, and every child it returns
    is again such a tree. *)
Theorem find_children_keeps_trees_well_formed gr pt :
  expandable_ok gr -> tree_ok gr pt = true ->
  exists children,
    find_children gr pt = Ok children /\
    forall c, In c children -> tree_ok gr c = true.
Proof. apply find_children_ok. Qed.

Lemma find_children_keeps_trees_well_formed_witness :
  exists children,
    find_children tie_grammar (Node 2 0 []) = Ok children /\
    forall c, In c children -> tree_ok tie_grammar c = true.
Proof.
  apply (find_children_keeps_trees_well_formed tie_grammar (Node 2 0 [])).
  - exact tie_grammar_expandable.
  - reflexivity.
Defined.

Lemma findMyParents_ok gr c q :
  tree_ok gr c = true -> In q (findMyParents c) ->
  tree_ok gr q = true /\ exists p, find_probability gr q = Ok p.
Proof.
  intros Hc Hq.
  assert (Hok : tree_ok gr q = true).
  { eapply dd_candidates_ok; [exact Hc|].
    now apply findMyParents_are_candidates. }
  split; [exact Hok|]. now apply find_probability_ok.
Qed.

(** X27. Every parent that [findMyParents] lists for a tree whose nodes all
    name existing replacements is again such a tree, so that
    [find_probability] returns on it. *)
Theorem findMyParents_keeps_trees_well_formed gr c q :
  tree_ok gr c = true -> In q (findMyParents c) ->
  tree_ok gr q = true /\ exists p, find_probability gr q = Ok p.
Proof. apply findMyParents_ok. Qed.

Lemma findMyParents_keeps_trees_well_formed_witness :
  tree_ok tie_grammar (Node 2 0 [Node 0 0 []; Node 1 1 []]) = true /\
  exists p,
    find_probability tie_grammar (Node 2 0 [Node 0 0 []; Node 1 1 []]) = Ok p.
Proof.
  apply (findMyParents_keeps_trees_well_formed tie_grammar
           (Node 2 0 [Node 0 1 []; Node 1 1 []])).
  - reflexivity.
  - simpl. auto.
Defined.

(** * The terminal expander on lists of strings *)

Lemma contents_pure gr l st :
  contents gr l st = (fst (contents gr l st), st).
Proof. destruct l; reflexivity. Qed.

Lemma py_iter_pure gr v st :
  py_iter gr v st = (fst (py_iter gr v st), st).
Proof. destruct v as [s|l]; [reflexivity|apply contents_pure]. Qed.

Lemma extends_refl st : extends st st.
Proof. repeat split. exists []. now rewrite app_nil_r. Qed.

Lemma extends_trans st1 st2 st3 :
  extends st1 st2 -> extends st2 st3 -> extends st1 st3.
Proof.
  intros (Hd & Ha & m & Hh) (Hd' & Ha' & m' & Hh').
  repeat split; try congruence.
  exists (m ++ m'). rewrite Hh', Hh. now rewrite app_assoc.
Qed.

Lemma extends_with_temp st temp : extends st (with_temp st temp).
Proof. repeat split. now exists [temp]. Qed.

Lemma extends_allocated st st' l :
  extends st st' -> allocated st l -> allocated st' l.
Proof.
  intros (_ & _ & m & Hh) H. destruct l as [| |n]; simpl in *; auto.
  rewrite Hh, length_app. lia.
Qed.

Lemma contents_extends gr l st st' :
  extends st st' -> allocated st l ->
  fst (contents gr l st') = fst (contents gr l st).
Proof.
  intros (Hd & Ha & m & Hh) Hal. destruct l as [|g r|n]; simpl.
  - now rewrite Hd.
  - unfold appended_to. now rewrite Ha.
  - simpl in Hal. rewrite Hh, (lookup_app_l _ _ _ Hal). reflexivity.
Qed.

Lemma set_heap_id st n c : heap st !! n = Some c -> set_heap st n c = st.
Proof.
  intros H. destruct st as [d a h]. unfold set_heap. simpl in *.
  now rewrite list_insert_id.
Qed.

Lemma set_heap_twice st n c c' :
  set_heap (set_heap st n c) n c' = set_heap st n c'.
Proof. unfold set_heap. simpl. now rewrite list_insert_insert_eq. Qed.

Lemma append_to_set_heap st n c v :
  n < length (heap st) ->
  append_to (RFresh n) v (set_heap st n c) = (Ok tt, set_heap st n (c ++ [v])).
Proof.
  intros H. unfold append_to, set_heap. simpl.
  rewrite list_lookup_insert_eq by assumption.
  now rewrite list_insert_insert_eq.
Qed.

Lemma contents_set_heap_other gr l st n c :
  l <> RFresh n ->
  fst (contents gr l (set_heap st n c)) = fst (contents gr l st).
Proof.
  intros Hne. destruct l as [|g r|k]; simpl; try reflexivity.
  rewrite list_lookup_insert_ne; [reflexivity|]. congruence.
Qed.

Lemma contents_set_heap_same gr st n c :
  n < length (heap st) ->
  fst (contents gr (RFresh n) (set_heap st n c)) = Ok c.
Proof. intros H. simpl. now rewrite list_lookup_insert_eq. Qed.

(** ** [expand_final_string] *)

Lemma backs_loop gr st n front :
  n < length (heap st) ->
  forall (bs : list string) temp,
    sfor (map VStr bs)
      (fun back_string =>
         (joined <- py_add gr (VStr front) back_string ;;
          append_to (RFresh n) joined)%sm)
      (set_heap st n temp)
    = (Ok tt,
       set_heap st n
         (temp ++ map VStr (map (fun b => (front ++ b)%string) bs))).
Proof.
  intros Hn. unfold sfor.
  induction bs as [|b bs IH]; intros temp; simpl.
  - now rewrite app_nil_r.
  - assert (Hstep :
      (joined <- py_add gr (VStr front) (VStr b) ;;
       append_to (RFresh n) joined)%sm (set_heap st n temp)
      = (Ok tt, set_heap st n (temp ++ [VStr (front ++ b)]))).
    { rewrite (sbind_ok _ _ (set_heap st n temp) (VStr (front ++ b))
                 (set_heap st n temp) eq_refl).
      now apply append_to_set_heap. }
    rewrite (sbind_ok _ _ _ _ _ Hstep), IH.
    now rewrite <- app_assoc.
Qed.

Lemma fronts_loop gr st n rs (bs : list string) :
  n < length (heap st) ->
  (forall c, fst (py_iter gr rs (set_heap st n c)) = Ok (map VStr bs)) ->
  forall (fs : list string) temp,
    sfor (map VStr fs)
      (fun frontString =>
         (backs <- py_iter gr rs ;;
          sfor backs (fun back_string =>
            joined <- py_add gr frontString back_string ;;
            append_to (RFresh n) joined))%sm)
      (set_heap st n temp)
    = (Ok tt,
       set_heap st n
         (temp ++ map VStr (flat_map (fun f => map (fun b => (f ++ b)%string)
                                                   bs) fs))).
Proof.
  intros Hn Hrs. unfold sfor at 1.
  induction fs as [|f fs IH]; intros temp; simpl.
  - now rewrite app_nil_r.
  - assert (Hstep :
      (backs <- py_iter gr rs ;;
       sfor backs (fun back_string =>
         joined <- py_add gr (VStr f) back_string ;;
         append_to (RFresh n) joined))%sm (set_heap st n temp)
      = (Ok tt, set_heap st n
                  (temp ++ map VStr (map (fun b => (f ++ b)%string) bs)))).
    { assert (Hit : py_iter gr rs (set_heap st n temp)
                    = (Ok (map VStr bs), set_heap st n temp))
        by (rewrite py_iter_pure; now rewrite Hrs).
      rewrite (sbind_ok _ _ _ _ _ Hit). now apply backs_loop. }
    rewrite (sbind_ok _ _ _ _ _ Hstep), IH.
    now rewrite map_app, app_assoc.
Qed.

Lemma expand_final_string_eq gr fuel guess_combos :
  expand_final_string gr fuel guess_combos
  = (n <- py_len gr guess_combos ;;
     if Nat.eqb n 1 then py_getitem gr guess_combos 0
     else if Nat.eqb n 0 then sraise RecursionError
     else
       match fuel with
       | O => sdiverge
       | S fuel' =>
           ret_strings <- alloc [] ;;
           rest <- py_slice_from_1 gr guess_combos ;;
           recursiveStrings <- expand_final_string gr fuel' rest ;;
           first <- py_getitem gr guess_combos 0 ;;
           fronts <- py_iter gr first ;;
           sfor fronts (fun frontString =>
             backs <- py_iter gr recursiveStrings ;;
             sfor backs (fun back_string =>
               joined <- py_add gr frontString back_string ;;
               append_to ret_strings joined)) ;;
           sret (VList ret_strings)
       end)%sm.
Proof. destruct fuel; reflexivity. Qed.

Lemma py_len_list gr l st c :
  fst (contents gr l st) = Ok c ->
  py_len gr (VList l) st = (Ok (length c), st).
Proof.
  intros H. unfold py_len. simpl.
  assert (Hc : contents gr l st = (Ok c, st))
    by (rewrite contents_pure; now rewrite H).
  now rewrite (sbind_ok _ _ _ _ _ Hc).
Qed.

Lemma py_getitem_list gr l st c i v :
  fst (contents gr l st) = Ok c -> c !! i = Some v ->
  py_getitem gr (VList l) i st = (Ok v, st).
Proof.
  intros H Hi. unfold py_getitem. simpl.
  assert (Hc : contents gr l st = (Ok c, st))
    by (rewrite contents_pure; now rewrite H).
  rewrite (sbind_ok _ _ _ _ _ Hc). unfold slift, py_index. now rewrite Hi.
Qed.

Lemma expand_final_string_spec gr :
  forall (wss : list (list string)) (ls : list lref) fuel l st,
    wss <> [] -> length wss <= S fuel ->
    allocated st l ->
    fst (contents gr l st) = Ok (map VList ls) ->
    Forall2 (fun li ws => allocated st li /\
                          fst (contents gr li st) = Ok (map VStr ws)) ls wss ->
    exists l' st',
      expand_final_string gr fuel (VList l) st = (Ok (VList l'), st') /\
      extends st st' /\ allocated st' l' /\
      fst (contents gr l' st') = Ok (map VStr (combinations wss)) /\
      (In l' ls \/ exists n, l' = RFresh n /\ length (heap st) <= n).
Proof.
  induction wss as [|ws wss IH]; intros ls fuel l st Hne Hfuel Hl Hc Hall;
    [congruence|].
  inversion Hall as [|l1 ? ls' ? [Hal1 Hc1] Hall']; subst.
  rewrite expand_final_string_eq.
  rewrite (sbind_ok _ _ _ _ _ (py_len_list gr l st _ Hc)).
  destruct wss as [|ws2 wss].
  - inversion Hall'; subst. simpl.
    rewrite (py_getitem_list gr l st _ 0 (VList l1) Hc eq_refl).
    exists l1, st. split; [reflexivity|]. split; [apply extends_refl|].
    split; [assumption|]. split; [assumption|]. left. now left.
  - inversion Hall' as [|l2 ? ls'' ? [Hal2 Hc2] Hall'']; subst.
    cbn [map length Nat.eqb].
    destruct fuel as [|fuel']; [simpl in Hfuel; lia|].
    set (n := length (heap st)).
    set (st1 := with_temp st []).
    rewrite (sbind_ok (alloc []) _ st (RFresh n) st1 eq_refl).
    assert (Hslice : py_slice_from_1 gr (VList l) st1
                     = (Ok (VList (RFresh (S n))),
                        with_temp st1 (map VList (l2 :: ls'')))).
    { unfold py_slice_from_1.
      assert (Hc' : contents gr l st1 = (Ok (map VList (l1 :: l2 :: ls'')), st1)).
      { rewrite contents_pure.
        rewrite (contents_extends gr l st st1 (extends_with_temp st []) Hl).
        now rewrite Hc. }
      rewrite (sbind_ok _ _ _ _ _ Hc').
      unfold alloc, sbind, sret. simpl. rewrite length_app. simpl.
      subst n. repeat f_equal. lia. }
    rewrite (sbind_ok _ _ _ _ _ Hslice).
    set (st2 := with_temp st1 (map VList (l2 :: ls''))) in *.
    assert (Hext2 : extends st st2).
    { eapply extends_trans; apply extends_with_temp. }
    assert (Hlen2 : length (heap st2) = S (S n)).
    { subst st2 st1 n. simpl. rewrite !length_app. simpl. lia. }
    destruct (IH (l2 :: ls'') fuel' (RFresh (S n)) st2) as
      (l' & st3 & Hrun & Hext3 & Hal' & Hc' & Hwhere).
    { discriminate. }
    { simpl in *. lia. }
    { unfold allocated. rewrite Hlen2. lia. }
    { subst st2 st1 n. simpl.
      rewrite lookup_app_r; rewrite length_app; simpl; [|lia].
      replace (S (length (heap st)) - (length (heap st) + 1)) with 0 by lia.
      reflexivity. }
    { eapply Forall2_impl; [exact Hall'|].
      intros li wsi [Hali Hci]. split.
      - eapply extends_allocated; eauto.
      - now rewrite (contents_extends gr li st st2 Hext2 Hali). }
    rewrite (sbind_ok _ _ _ _ _ Hrun).
    assert (Hext : extends st st3) by (eapply extends_trans; eauto).
    assert (Hfirst : py_getitem gr (VList l) 0 st3 = (Ok (VList l1), st3)).
    { apply (py_getitem_list gr l st3 (map VList (l1 :: l2 :: ls''))).
      - now rewrite (contents_extends gr l st st3 Hext Hl).
      - reflexivity. }
    rewrite (sbind_ok _ _ _ _ _ Hfirst).
    assert (Hfronts : py_iter gr (VList l1) st3 = (Ok (map VStr ws), st3)).
    { rewrite py_iter_pure. simpl.
      now rewrite (contents_extends gr l1 st st3 Hext Hal1), Hc1. }
    rewrite (sbind_ok _ _ _ _ _ Hfronts).
    assert (Hn3 : n < length (heap st3)).
    { destruct Hext3 as (_ & _ & m & Hh). rewrite Hh, length_app. lia. }
    assert (Hat : heap st3 !! n = Some []).
    { destruct Hext3 as (_ & _ & m & Hh). rewrite Hh.
      rewrite lookup_app_l by lia.
      subst st2 st1 n. simpl.
      rewrite lookup_app_l by (rewrite length_app; simpl; lia).
      now apply list_lookup_middle. }
    assert (Hne' : l' <> RFresh n).
    { destruct Hwhere as [Hin|(k & -> & Hk)].
      - intros ->.
        assert (Hal : allocated st (RFresh n)).
        { clear - Hall' Hin. induction Hall' as [|x y xs ys [Hx _] _ IHf];
            [destruct Hin|].
          destruct Hin as [->|Hin]; auto. }
        simpl in Hal. subst n. lia.
      - intros [= ->]. lia. }
    pose proof (fronts_loop gr st3 n (VList l') (combinations (ws2 :: wss))
                  Hn3
                  (fun c => eq_trans
                              (contents_set_heap_other gr l' st3 n c Hne') Hc')
                  ws []) as Hloop.
    rewrite (set_heap_id st3 n [] Hat) in Hloop.
    rewrite (sbind_ok _ _ _ _ _ Hloop).
    exists (RFresh n), (set_heap st3 n
                          (map VStr (combinations (ws :: ws2 :: wss)))).
    split; [reflexivity|]. split.
    { destruct Hext as (Hd & Ha & m & Hh). repeat split; simpl; auto.
      destruct m as [|x m].
      - rewrite app_nil_r in Hh. rewrite Hh in Hn3. subst n. lia.
      - exists (map VStr (combinations (ws :: ws2 :: wss)) :: m).
        rewrite Hh. subst n.
        rewrite <- (Nat.add_0_r (length (heap st))) at 1.
        now rewrite insert_app_r. }
    split; [simpl; now rewrite length_insert|].
    split; [now apply contents_set_heap_same|].
    right. exists n. split; [reflexivity|]. subst n. lia.
Qed.

Lemma flat_map_product_length {A B C} (f : A -> B -> C) (xs : list A)
      (ys : list B) :
  length (flat_map (fun x => map (f x) ys) xs) = length xs * length ys.
Proof.
  induction xs as [|x xs IH]; simpl; [reflexivity|].
  now rewrite length_app, length_map, IH.
Qed.

Lemma combinations_length (wss : list (list string)) :
  wss <> [] ->
  length (combinations wss) = fold_right Nat.mul 1 (map length wss).
Proof.
  induction wss as [|ws wss IH]; intros Hne; [congruence|].
  destruct wss as [|ws2 wss].
  - simpl. lia.
  - change (combinations (ws :: ws2 :: wss))
      with (flat_map (fun front =>
                        map (fun back => (front ++ back)%string)
                            (combinations (ws2 :: wss))) ws).
    rewrite flat_map_product_length, IH by discriminate. reflexivity.
Qed.

(** X8. Given a list of one or more lists of strings, [expand_final_string]
    returns a list that holds, in order, every string of the first list
    followed by every combination of the remaining lists; their number is
    the product of the lengths.  The lists it was given are not changed. *)
Theorem expand_final_string_concatenates_in_order
    gr (wss : list (list string)) (ls : list lref) fuel l st :
  wss <> [] -> length wss <= S fuel ->
  allocated st l ->
  fst (contents gr l st) = Ok (map VList ls) ->
  Forall2 (fun li ws => allocated st li /\
                        fst (contents gr li st) = Ok (map VStr ws)) ls wss ->
  exists l' st',
    expand_final_string gr fuel (VList l) st = (Ok (VList l'), st') /\
    fst (contents gr l' st') = Ok (map VStr (combinations wss)) /\
    length (combinations wss) = fold_right Nat.mul 1 (map length wss) /\
    extends st st'.
Proof.
  intros Hne Hfuel Hl Hc Hall.
  destruct (expand_final_string_spec gr wss ls fuel l st Hne Hfuel Hl Hc Hall)
    as (l' & st' & Hrun & Hext & _ & Hc' & _).
  exists l', st'. repeat split; auto; try apply Hext.
  now apply combinations_length.
Qed.

Lemma expand_final_string_concatenates_in_order_witness :
  let st := mkStore [] [] [[VList (RValues 0 0); VList (RValues 1 0)]] in
  exists l' st',
    expand_final_string flat_grammar 2 (VList (RFresh 0)) st
    = (Ok (VList l'), st') /\
    fst (contents flat_grammar l' st')
    = Ok (map VStr ["cat1"; "cat2"; "dog1"; "dog2"]%string) /\
    4 = 4 /\
    extends st st'.
Proof.
  apply (expand_final_string_concatenates_in_order flat_grammar
           [["cat"; "dog"]; ["1"; "2"]]%string [RValues 0 0; RValues 1 0] 2
           (RFresh 0)
           (mkStore [] [] [[VList (RValues 0 0); VList (RValues 1 0)]])).
  - discriminate.
  - simpl. lia.
  - simpl. lia.
  - reflexivity.
  - repeat constructor.
Defined.

(** ** [expand_terminals] on simple sections, [list_terminals] *)

Lemma keeps_refl k st : keeps k st st.
Proof. repeat split; auto. Qed.

Lemma keeps_trans k st1 st2 st3 :
  keeps k st1 st2 -> keeps k st2 st3 -> keeps k st1 st3.
Proof.
  intros (Hd & Ha & Hl & Hh) (Hd' & Ha' & Hl' & Hh').
  repeat split; try congruence; [lia|].
  intros n Hn Hlt. rewrite Hh' by (auto; lia). now apply Hh.
Qed.

Lemma extends_keeps k st st' : extends st st' -> keeps k st st'.
Proof.
  intros (Hd & Ha & m & Hh). repeat split; auto.
  - rewrite Hh, length_app. lia.
  - intros n _ Hlt. rewrite Hh. now apply lookup_app_l.
Qed.

Lemma keeps_set_heap k st c : keeps k st (set_heap st k c).
Proof.
  repeat split; simpl; auto.
  - now rewrite length_insert.
  - intros n Hn _. apply list_lookup_insert_ne. congruence.
Qed.

Lemma keeps_allocated k st st' l :
  keeps k st st' -> allocated st l -> allocated st' l.
Proof.
  intros (_ & _ & Hl & _) H. destruct l as [| |n]; simpl in *; auto. lia.
Qed.

Lemma contents_keeps gr k l st st' :
  keeps k st st' -> allocated st l -> l <> RFresh k ->
  fst (contents gr l st') = fst (contents gr l st).
Proof.
  intros (Hd & Ha & _ & Hh) Hal Hne. destruct l as [|g r|n]; simpl.
  - now rewrite Hd.
  - unfold appended_to. now rewrite Ha.
  - simpl in Hal. rewrite Hh; [reflexivity| |assumption]. congruence.
Qed.

Lemma capitalization_run gr g r cs working_value st rep (words : list string) :
  repl_at gr g r = Ok rep ->
  function rep = "Capitalization"%string ->
  appended st = [] ->
  fst (contents gr working_value st) = Ok (map VStr words) ->
  (forall m w, In m (values rep) -> In w words ->
               String.length w <= String.length m) ->
  expand_terminals gr (Node g r cs) working_value st
  = (Ok (RFresh (length (heap st))),
     with_temp st (map VStr (flat_map (fun m => map (apply_mask m) words)
                               (values rep)))).
Proof.
  intros Hrep Hfun Happ Hw Hlen.
  cbn [expand_terminals]. unfold slift at 1.
  rewrite (sbind_ok (fun s => (repl_at gr g r, s)) _ st rep st)
    by now rewrite Hrep.
  rewrite Hfun. cbn [String.eqb Ascii.eqb Bool.eqb andb].
  rewrite (sbind_ok (alloc []) _ st (RFresh (length (heap st)))
             (with_temp st []) eq_refl).
  assert (Hrules : contents gr (RValues g r) (with_temp st [])
                   = (Ok (map VStr (values rep)), with_temp st [])).
  { simpl. rewrite Hrep. simpl. unfold appended_to. simpl.
    now rewrite Happ, app_nil_r. }
  rewrite (sbind_ok _ _ _ _ _ Hrules).
  rewrite (sbind_ok _ _ _ _ _
             (rules_loop gr st working_value words Hw (values rep) [] Hlen)).
  reflexivity.
Qed.

Lemma expand_simple gr c ws wv st :
  simple_section gr c ws -> appended st = [] ->
  exists l st',
    expand_terminals gr c wv st = (Ok l, st') /\
    extends st st' /\ allocated st' l /\
    fst (contents gr l st') = Ok (map VStr ws) /\
    ((exists g r, l = RValues g r) \/ l = RFresh (length (heap st))).
Proof.
  intros Hc Happ.
  destruct Hc as [g r cs rep Hrep Hfun
                 |g r cs rep g' r' cs' rep' Hrep Hfun Hrep' Hfun' Hlen _].
  - exists (RValues g r), st. split.
    + cbn [expand_terminals]. unfold slift at 1.
      rewrite (sbind_ok (fun s => (repl_at gr g r, s)) _ st rep st)
        by now rewrite Hrep.
      rewrite Hfun. reflexivity.
    + split; [apply extends_refl|]. split; [exact I|]. split; [|eauto].
      simpl. rewrite Hrep. simpl. unfold appended_to.
      now rewrite Happ, app_nil_r.
  - assert (Hw : fst (contents gr (RValues g r) st)
                 = Ok (map VStr (values rep))).
    { simpl. rewrite Hrep. simpl. unfold appended_to.
      now rewrite Happ, app_nil_r. }
    eexists _, _. split.
    + cbn [expand_terminals]. unfold slift at 1.
      rewrite (sbind_ok (fun s => (repl_at gr g r, s)) _ st rep st)
        by now rewrite Hrep.
      rewrite Hfun. cbn [String.eqb Ascii.eqb Bool.eqb andb].
      apply (capitalization_run gr g' r' cs' (RValues g r) st rep'
               (values rep) Hrep' Hfun' Happ Hw Hlen).
    + split; [apply extends_with_temp|].
      split; [simpl; rewrite length_app; simpl; lia|].
      split; [|now right].
      simpl. now rewrite list_lookup_middle.
Qed.

Lemma transparent_loop gr k :
  forall (cs : list node) (wss : list (list string)),
    Forall2 (simple_section gr) cs wss ->
    forall st acc,
      appended st = [] -> heap st !! k = Some acc ->
      exists ls st',
        (fix loop (l : list node) {struct l} : SM store unit :=
           match l with
           | [] => sret tt
           | rule :: l' =>
               (sub <- expand_terminals gr rule RDefault ;;
                append_to (RFresh k) (VList sub) ;;
                loop l')%sm
           end) cs st = (Ok tt, st') /\
        keeps k st st' /\
        heap st' !! k = Some (acc ++ map VList ls) /\
        Forall2 (fun li ws => allocated st' li /\ li <> RFresh k /\
                              fst (contents gr li st') = Ok (map VStr ws))
                ls wss.
Proof.
  induction 1 as [|c ws cs wss Hc _ IH]; intros st acc Happ Hk.
  - exists [], st. split; [reflexivity|]. split; [apply keeps_refl|].
    split; [now rewrite app_nil_r|constructor].
  - destruct (expand_simple gr c ws RDefault st Hc Happ)
      as (l & s1 & Hrun & Hext & Hal & Hcl & Hwhere).
    assert (Hklt : k < length (heap st)) by (eapply lookup_lt_Some; eauto).
    assert (Hk1 : heap s1 !! k = Some acc).
    { destruct Hext as (_ & _ & m & Hh). rewrite Hh.
      now rewrite lookup_app_l. }
    assert (Happend : append_to (RFresh k) (VList l) s1
                      = (Ok tt, set_heap s1 k (acc ++ [VList l]))).
    { unfold append_to. now rewrite Hk1. }
    assert (Hne : l <> RFresh k).
    { destruct Hwhere as [(g & r & ->)| ->]; [discriminate|].
      intros [= E]. lia. }
    assert (Hklt1 : k < length (heap s1)) by (eapply lookup_lt_Some; eauto).
    destruct (IH (set_heap s1 k (acc ++ [VList l])) (acc ++ [VList l]))
      as (ls & s3 & Hloop & Hkeep & Hk3 & Hall).
    { simpl. destruct Hext as (_ & Ha & _). congruence. }
    { simpl. now apply list_lookup_insert_eq. }
    assert (Hkeep13 : keeps k s1 s3)
      by (eapply keeps_trans; [apply keeps_set_heap|exact Hkeep]).
    exists (l :: ls), s3. split.
    + rewrite (sbind_ok _ _ _ _ _ Hrun).
      rewrite (sbind_ok _ _ _ _ _ Happend). exact Hloop.
    + split; [eapply keeps_trans; [apply extends_keeps; exact Hext|exact Hkeep13]|].
      split; [simpl; now rewrite <- app_assoc in Hk3|].
      constructor; [|exact Hall].
      split; [eapply keeps_allocated; eauto|]. split; [assumption|].
      now rewrite (contents_keeps gr k l s1 s3 Hkeep13 Hal Hne).
Qed.

Lemma list_terminals_spec gr g r cs rep (wss : list (list string)) st :
  repl_at gr g r = Ok rep ->
  function rep = "Transparent"%string ->
  cs <> [] ->
  Forall2 (simple_section gr) cs wss ->
  appended st = [] ->
  exists l' st',
    list_terminals gr (Node g r cs) st = (Ok (VList l'), st') /\
    fst (contents gr l' st') = Ok (map VStr (combinations wss)) /\
    default_arg st' = default_arg st /\ appended st' = [].
Proof.
  intros Hrep Hfun Hne Hall Happ.
  unfold list_terminals.
  set (k := length (heap st)).
  rewrite (sbind_ok (alloc []) _ st (RFresh k) (with_temp st []) eq_refl).
  destruct (transparent_loop gr k cs wss Hall (with_temp st []) [])
    as (ls & s1 & Hloop & Hkeep & Hk & Hls).
  { exact Happ. }
  { simpl. now apply list_lookup_middle. }
  assert (Hexp : expand_terminals gr (Node g r cs) (RFresh k) (with_temp st [])
                 = (Ok (RFresh k), s1)).
  { cbn [expand_terminals]. unfold slift at 1.
    rewrite (sbind_ok (fun s => (repl_at gr g r, s)) _ _ rep _)
      by now rewrite Hrep.
    rewrite Hfun. cbn [String.eqb Ascii.eqb Bool.eqb andb].
    rewrite (sbind_ok _ _ _ _ _ Hloop). reflexivity. }
  rewrite (sbind_ok _ _ _ _ _ Hexp).
  assert (Hwv : fst (contents gr (RFresh k) s1) = Ok (map VList ls)).
  { simpl. now rewrite Hk. }
  rewrite (sbind_ok _ _ _ _ _ (py_len_list gr (RFresh k) s1 _ Hwv)).
  assert (Hlen : length ls = length wss).
  { clear - Hls. induction Hls; simpl; auto. }
  destruct (expand_final_string_spec gr wss ls (length (map VList ls))
              (RFresh k) s1)
    as (l' & st' & Hrun & Hext & _ & Hc' & _).
  - intros ->. inversion Hall; subst. congruence.
  - rewrite length_map. lia.
  - simpl. eapply lookup_lt_Some; eauto.
  - exact Hwv.
  - eapply Forall2_impl; [exact Hls|]. intros li ws (H1 & _ & H2). now split.
  - exists l', st'. split; [exact Hrun|]. split; [exact Hc'|].
    destruct Hext as (Hd & Ha & _). destruct Hkeep as (Hd' & Ha' & _).
    simpl in *. split; congruence.
Qed.

Lemma cap_digit_sections :
  Forall2 (simple_section cap_digit_grammar)
    [Node 1 0 [Node 0 0 []]; Node 2 0 []]
    [["Cat"; "Dog"; "cat"; "dog"]; ["1"; "2"]]%string.
Proof.
  constructor; [|constructor; [|constructor]].
  - refine (section_shadow cap_digit_grammar 1 0 []
              (mkRepl false 1 "Shadow" ["cat"%string; "dog"%string] [0])
              0 0 []
              (mkRepl true 1 "Capitalization" ["ULL"%string; "LLL"%string] [])
              eq_refl eq_refl eq_refl eq_refl _ eq_refl).
    intros m w [<-|[<-|[]]] [<-|[<-|[]]]; simpl; lia.
  - exact (section_copy cap_digit_grammar 2 0 []
             (mkRepl true 1 "Copy" ["1"%string; "2"%string] [])
             eq_refl eq_refl).
Qed.

(** X9. For a Transparent node with at least one child, each child a Copy
    or a Shadow of ASCII words over a Capitalization whose masks are no
    shorter than the words, [list_terminals] returns the guesses in order: every string of
    the first child followed by every combination of the other children.
    The shared default list of [expand_terminals] is left as it was. *)
Theorem list_terminals_concatenates_the_sections
    gr g r cs rep (wss : list (list string)) st :
  repl_at gr g r = Ok rep ->
  function rep = "Transparent"%string ->
  cs <> [] ->
  Forall2 (simple_section gr) cs wss ->
  appended st = [] ->
  shown gr (list_terminals gr (Node g r cs) st)
  = Ok (TList (map TStr (combinations wss))) /\
  default_arg (snd (list_terminals gr (Node g r cs) st)) = default_arg st /\
  appended (snd (list_terminals gr (Node g r cs) st)) = [].
Proof.
  intros Hrep Hfun Hne Hall Happ.
  destruct (list_terminals_spec gr g r cs rep wss st Hrep Hfun Hne Hall Happ)
    as (l' & st' & Hrun & Hc & Hd & Ha).
  rewrite Hrun. simpl. rewrite Hc. repeat split; auto.
  f_equal. f_equal. rewrite map_map. reflexivity.
Qed.

Lemma list_terminals_concatenates_the_sections_witness :
  shown cap_digit_grammar
    (list_terminals cap_digit_grammar
       (Node 3 0 [Node 1 0 [Node 0 0 []]; Node 2 0 []]) empty_store)
  = Ok (TList (map TStr ["Cat1"; "Cat2"; "Dog1"; "Dog2";
                         "cat1"; "cat2"; "dog1"; "dog2"]%string)).
Proof.
  refine (proj1 (list_terminals_concatenates_the_sections cap_digit_grammar
                   3 0 [Node 1 0 [Node 0 0 []]; Node 2 0 []]
                   (mkRepl false 1 "Transparent" [] [1; 2])
                   [["Cat"; "Dog"; "cat"; "dog"]; ["1"; "2"]]%string
                   empty_store eq_refl eq_refl _ cap_digit_sections eq_refl)).
  discriminate.
Defined.

(** X10. On a Transparent node without children the list of sections is
    empty, and the recursion of [expand_final_string] on an empty list has
    no end: [list_terminals] stops with RecursionError, from any store. *)
Theorem list_terminals_of_a_childless_transparent gr g r rep st :
  repl_at gr g r = Ok rep ->
  function rep = "Transparent"%string ->
  fst (list_terminals gr (Node g r []) st) = Raise RecursionError.
Proof.
  intros Hrep Hfun. unfold list_terminals.
  rewrite (sbind_ok (alloc []) _ st (RFresh (length (heap st)))
             (with_temp st []) eq_refl).
  assert (Hexp : expand_terminals gr (Node g r []) (RFresh (length (heap st)))
                   (with_temp st [])
                 = (Ok (RFresh (length (heap st))), with_temp st [])).
  { cbn [expand_terminals]. unfold slift at 1.
    rewrite (sbind_ok (fun s => (repl_at gr g r, s)) _ _ rep _)
      by now rewrite Hrep.
    rewrite Hfun. reflexivity. }
  rewrite (sbind_ok _ _ _ _ _ Hexp).
  assert (Hwv : fst (contents gr (RFresh (length (heap st))) (with_temp st []))
                = Ok []).
  { simpl. now rewrite list_lookup_middle. }
  rewrite (sbind_ok _ _ _ _ _ (py_len_list gr _ _ _ Hwv)).
  rewrite expand_final_string_eq.
  rewrite (sbind_ok _ _ _ _ _ (py_len_list gr _ _ _ Hwv)).
  reflexivity.
Qed.

Lemma list_terminals_of_a_childless_transparent_witness :
  fst (list_terminals flat_grammar (Node 2 0 []) empty_store)
  = Raise RecursionError.
Proof.
  apply (list_terminals_of_a_childless_transparent flat_grammar 2 0
           (mkRepl false 1 "Transparent" [] [0; 1]) empty_store);
    reflexivity.
Defined.

(** * The ranked queue: trimming, initialisation and the pump in general *)

(** ** What [trim_queue] keeps and what it drops *)

Lemma trim_ties_partition fuel :
  forall item keep q keep' q',
    trim_ties fuel item keep q = (Ok keep', q') ->
    (forall z, In z (p_queue q) -> (probability z <= probability item)%Q) ->
    (probability item <= min_probability q)%Q ->
    exists ties item',
      keep' = keep ++ ties /\
      Permutation (item :: p_queue q) (ties ++ item' :: p_queue q') /\
      (forall k, In k ties -> (probability k == min_probability q)%Q) /\
      (probability item' < min_probability q)%Q /\
      (forall z, In z (p_queue q') -> (probability z <= probability item')%Q) /\
      min_probability q' = min_probability q.
Proof.
  induction fuel as [|fuel IH]; intros item keep q keep' q' H Hmax Hle.
  - discriminate.
  - cbn [trim_ties] in H. unfold sbind at 1 in H. simpl in H.
    destruct (Qeq_bool (probability item) (min_probability q)) eqn:Etie.
    + unfold sbind in H. rewrite pop_self_eq in H.
      destruct (heappop (p_queue q)) as [[y h]|] eqn:Epop; [|discriminate].
      destruct (heappop_spec _ _ _ Epop) as (Hy & Hh & Hmaxy & _).
      pose proof (heappop_perm _ _ _ Epop) as Hperm.
      apply IH in H; cbn [p_queue min_probability] in *.
      * destruct H as (ties & item' & -> & Hp & Hties & Hlt & Hrest & Hmin).
        exists (item :: ties), item'. unfold heappush.
        rewrite <- app_assoc. split; [reflexivity|]. split.
        { simpl. constructor. now rewrite Hperm. }
        split.
        { intros k [<-|Hk]; [now apply Qeq_bool_iff|auto]. }
        repeat split; assumption.
      * exact Hmaxy.
      * eapply Qle_trans; [apply Hmax; exact Hy|exact Hle].
    + injection H as <- <-. exists [], item. rewrite app_nil_r.
      split; [reflexivity|]. split; [reflexivity|].
      split; [intros k []|]. split; [|split; [exact Hmax|reflexivity]].
      apply Qle_lteq in Hle as [Hlt|Heq]; [exact Hlt|].
      apply Qeq_bool_iff in Heq. congruence.
Qed.

Lemma trim_loop_partition :
  forall n i keep q keep' q',
    n <> 0 ->
    (0 <= max_queue_size q - reduction_size q)%Z ->
    i + n = Z.to_nat (max_queue_size q - reduction_size q) ->
    (forall k x, In k keep -> In x (p_queue q) ->
                 (probability x <= probability k)%Q) ->
    trim_loop (seq i n) keep q = (Ok keep', q') ->
    exists dropped,
      Permutation (keep ++ p_queue q) (keep' ++ dropped) /\
      dropped <> [] /\
      (forall k, In k keep' -> (min_probability q' <= probability k)%Q) /\
      (forall d, In d dropped -> (probability d < min_probability q')%Q) /\
      length keep + n <= length keep' /\
      (exists k, In k keep' /\ probability k = min_probability q').
Proof.
  induction n as [|n IH]; intros i keep q keep' q' Hn HK Hi Hpre H;
    [congruence|].
  cbn [seq trim_loop] in H. unfold sbind at 1 in H. rewrite pop_self_eq in H.
  destruct (heappop (p_queue q)) as [[x h]|] eqn:Epop; [|discriminate].
  destruct (heappop_spec _ _ _ Epop) as (Hx & Hh & Hmaxx & _).
  pose proof (heappop_perm _ _ _ Epop) as Hperm.
  unfold sbind at 1 in H. cbn [sget max_queue_size reduction_size] in H.
  destruct (Z.eqb (Z.of_nat i) (max_queue_size q - reduction_size q - 1))
    eqn:Especial.
  - apply Z.eqb_eq in Especial. assert (n = 0) by lia. subst n.
    unfold sbind at 1 in H. cbn [set_min_probability] in H.
    unfold sbind at 1 in H. rewrite pop_self_eq in H. cbn [p_queue] in H.
    destruct (heappop h) as [[y h2]|] eqn:Epop2; [|discriminate].
    destruct (heappop_spec _ _ _ Epop2) as (Hy & _ & Hmaxy & _).
    pose proof (heappop_perm _ _ _ Epop2) as Hperm2.
    unfold sbind at 1 in H. cbn [sget p_queue] in H.
    unfold sbind at 1 in H.
    destruct (trim_ties _ y (heappush keep x) _) as [[keep2|e|] q2] eqn:Eties;
      try discriminate.
    cbn [seq trim_loop] in H. injection H as <- <-.
    apply trim_ties_partition in Eties; cbn [p_queue min_probability] in *.
    + destruct Eties as (ties & item' & -> & Hp & Hties & Hlt & Hrest & Hmin).
      exists (item' :: p_queue q2). unfold heappush. rewrite Hmin.
      split.
      { rewrite Hperm, <- !app_assoc. apply Permutation_app_head. simpl.
        constructor. rewrite Hperm2. exact Hp. }
      split; [discriminate|]. split.
      { intros k Hk. apply in_app_or in Hk as [Hk|Hk].
        - apply in_app_or in Hk as [Hk|[<-|[]]]; [now apply Hpre|apply Qle_refl].
        - rewrite (Hties k Hk). apply Qle_refl. }
      split.
      { intros d [<-|Hd]; [exact Hlt|].
        eapply Qle_lt_trans; [apply Hrest; exact Hd|exact Hlt]. }
      split; [rewrite !length_app; simpl; lia|].
      exists x. split; [|reflexivity].
      apply in_or_app. left. apply in_or_app. right. now left.
    + exact Hmaxy.
    + apply Hmaxx. exact Hy.
  - apply Z.eqb_neq in Especial. assert (n <> 0) by lia.
    apply IH in H; cbn [p_queue max_queue_size reduction_size] in *;
      [|assumption|exact HK|lia|].
    + destruct H as (dropped & Hp & Hne & Hkept & Hdrop & Hlen & Hk).
      exists dropped. unfold heappush in *.
      split.
      { rewrite <- Hp, Hperm, <- app_assoc. reflexivity. }
      repeat split; try assumption.
      rewrite length_app in Hlen. simpl in Hlen. lia.
    + intros k z Hk Hz. unfold heappush in Hk.
      apply in_app_or in Hk as [Hk|[<-|[]]]; [apply Hpre; auto|auto].
Qed.

Lemma trim_queue_partition q r q' :
  (0 < max_queue_size q - reduction_size q)%Z ->
  trim_queue q = (Ok r, q') ->
  r = STATUS_OK /\
  exists dropped,
    Permutation (p_queue q) (p_queue q' ++ dropped) /\
    dropped <> [] /\
    (forall k, In k (p_queue q') -> (min_probability q' <= probability k)%Q) /\
    (forall d, In d dropped -> (probability d < min_probability q')%Q) /\
    Z.to_nat (max_queue_size q - reduction_size q) <= length (p_queue q') /\
    (exists k, In k (p_queue q') /\ probability k = min_probability q').
Proof.
  intros HK H. unfold trim_queue in H. unfold sbind at 1 in H. cbn [sget] in H.
  unfold sbind at 1 in H.
  destruct (trim_loop _ [] q) as [[keep|e|] q1] eqn:Eloop; try discriminate.
  unfold sbind at 1 in H. cbn [set_p_queue] in H. unfold sret in H.
  apply (trim_loop_partition _ 0 [] q) in Eloop;
    [|lia|lia|reflexivity|intros k x []].
  destruct Eloop as (dropped & Hp & Hne & Hkept & Hdrop & Hlen & Hk).
  simpl in Hp, Hlen.
  assert (Hlens : length (p_queue q) = length keep + length dropped).
  { rewrite (Permutation_length Hp), length_app. reflexivity. }
  assert (Hd : length dropped <> 0) by (destruct dropped; simpl; congruence).
  destruct (Nat.eqb (length (p_queue q)) (length keep)) eqn:E;
    [apply Nat.eqb_eq in E; lia|].
  injection H as <- <-. split; [reflexivity|]. exists dropped.
  cbn. repeat split; assumption.
Qed.

(** X11. With room to keep at least one item
    ([max_queue_size > reduction_size]), a call of [trim_queue] that returns
    has split the queue in two: the items it keeps, at least
    [max_queue_size - reduction_size] of them and all at or above the new
    [min_probability], and the items it drops, at least one and all
    strictly below it.  The new [min_probability] is the probability of a
    kept item, and the status is STATUS_OK. *)
Theorem trim_queue_drops_only_less_probable_items q r q' :
  (0 < max_queue_size q - reduction_size q)%Z ->
  trim_queue q = (Ok r, q') ->
  r = STATUS_OK /\
  exists dropped,
    Permutation (p_queue q) (p_queue q' ++ dropped) /\
    dropped <> [] /\
    (forall k, In k (p_queue q') -> (min_probability q' <= probability k)%Q) /\
    (forall d, In d dropped -> (probability d < min_probability q')%Q) /\
    Z.to_nat (max_queue_size q - reduction_size q) <= length (p_queue q') /\
    (exists k, In k (p_queue q') /\ probability k = min_probability q').
Proof. apply trim_queue_partition. Qed.

Lemma trim_queue_drops_only_less_probable_items_witness :
  let q := mkQueue [mkItem true (1 # 2) (Node 0 0 []);
                    mkItem true (1 # 4) (Node 0 1 []);
                    mkItem true (1 # 2) (Node 0 2 []);
                    mkItem true (1 # 8) (Node 0 3 [])] 1 0 2 1 in
  let q' := mkQueue [mkItem true (1 # 2) (Node 0 0 []);
                     mkItem true (1 # 2) (Node 0 2 [])] 1 (1 # 2) 2 1 in
  trim_queue q = (Ok STATUS_OK, q') /\
  exists dropped,
    Permutation (p_queue q) (p_queue q' ++ dropped) /\
    dropped <> [] /\
    (forall k, In k (p_queue q') -> (min_probability q' <= probability k)%Q) /\
    (forall d, In d dropped -> (probability d < min_probability q')%Q) /\
    Z.to_nat (max_queue_size q - reduction_size q) <= length (p_queue q') /\
    (exists k, In k (p_queue q') /\ probability k = min_probability q').
Proof.
  split; [reflexivity|].
  refine (proj2 (trim_queue_drops_only_less_probable_items
                   (mkQueue [mkItem true (1 # 2) (Node 0 0 []);
                             mkItem true (1 # 4) (Node 0 1 []);
                             mkItem true (1 # 2) (Node 0 2 []);
                             mkItem true (1 # 8) (Node 0 3 [])] 1 0 2 1)
                   STATUS_OK
                   (mkQueue [mkItem true (1 # 2) (Node 0 0 []);
                             mkItem true (1 # 2) (Node 0 2 [])] 1 (1 # 2) 2 1)
                   _ eq_refl)).
  simpl. lia.
Defined.

(** ** [trim_queue] never loops; a queue of ties *)

Lemma trim_ties_plain fuel :
  forall item keep q,
    length (p_queue q) < fuel -> plain (fst (trim_ties fuel item keep q)).
Proof.
  induction fuel as [|fuel IH]; intros item keep q Hlen; [lia|].
  cbn [trim_ties]. unfold sbind at 1. simpl.
  destruct (Qeq_bool (probability item) (min_probability q)); [|exact I].
  unfold sbind. rewrite pop_self_eq.
  destruct (heappop (p_queue q)) as [[y h]|] eqn:Epop; [|exact I].
  destruct (heappop_spec _ _ _ Epop) as (_ & _ & _ & Hl).
  apply IH. cbn. lia.
Qed.

Lemma trim_loop_plain indices :
  forall keep q, plain (fst (trim_loop indices keep q)).
Proof.
  induction indices as [|i indices IH]; intros keep q; [exact I|].
  cbn [trim_loop]. unfold sbind at 1. rewrite pop_self_eq.
  destruct (heappop (p_queue q)) as [[x h]|]; [|exact I].
  unfold sbind at 1. cbn [sget].
  destruct (Z.eqb _ _); [|apply IH].
  unfold sbind at 1. cbn [set_min_probability].
  unfold sbind at 1. rewrite pop_self_eq. cbn [p_queue].
  destruct (heappop h) as [[y h2]|]; [|exact I].
  unfold sbind at 1. cbn [sget p_queue]. unfold sbind at 1.
  match goal with
  | |- context [trim_ties ?f ?it ?k ?s] =>
      pose proof (trim_ties_plain f it k s) as Hp;
      destruct (trim_ties f it k s) as [[keep2|e|] q2]
  end.
  - apply IH.
  - apply Hp. cbn. lia.
  - apply Hp. cbn. lia.
Qed.

Lemma trim_queue_plain q : plain (fst (trim_queue q)).
Proof.
  unfold trim_queue. unfold sbind at 1. cbn [sget]. unfold sbind at 1.
  match goal with
  | |- context [trim_loop ?i ?k ?s] =>
      pose proof (trim_loop_plain i k s) as Hp;
      destruct (trim_loop i k s) as [[keep|e|] q1]
  end; try exact Hp.
  unfold sbind, set_p_queue. destruct (Nat.eqb _ _); exact I.
Qed.

(** X12. With room to keep at least one item
    ([max_queue_size > reduction_size]), on a queue whose items all have
    the same probability [trim_queue] raises IndexError, whatever the size
    of the queue: the pops run past the end of the heap, or the tie loop
    pops the heap it has emptied. *)
Theorem trim_queue_raises_on_a_queue_of_ties q :
  (0 < max_queue_size q - reduction_size q)%Z ->
  (forall x y, In x (p_queue q) -> In y (p_queue q) ->
               (probability x == probability y)%Q) ->
  fst (trim_queue q) = Raise IndexError.
Proof.
  intros HK Hties.
  pose proof (trim_queue_plain q) as Hp.
  destruct (trim_queue q) as [[r|e|] q'] eqn:E; simpl in *.
  - exfalso. apply (trim_queue_partition q r q' HK) in E.
    destruct E as (_ & dropped & Hperm & Hne & _ & Hdrop & _ & k & Hk & Hmin).
    destruct dropped as [|d dropped]; [congruence|].
    assert (Hd : In d (p_queue q)).
    { apply (Permutation_in _ (Permutation_sym Hperm)).
      apply in_or_app. right. now left. }
    assert (Hk' : In k (p_queue q)).
    { apply (Permutation_in _ (Permutation_sym Hperm)).
      apply in_or_app. now left. }
    specialize (Hdrop d (or_introl eq_refl)). rewrite <- Hmin in Hdrop.
    rewrite (Hties d k Hd Hk') in Hdrop. exact (Qlt_irrefl _ Hdrop).
  - destruct e; try contradiction. reflexivity.
  - contradiction.
Qed.

Lemma trim_queue_raises_on_a_queue_of_ties_witness :
  fst (trim_queue tied_queue) = Raise IndexError.
Proof.
  apply (trim_queue_raises_on_a_queue_of_ties tied_queue).
  - simpl. lia.
  - simpl. intros x y [<-|[<-|[<-|[]]]] [<-|[<-|[<-|[]]]]; reflexivity.
Defined.

(** X13. [trim_queue] returns QUEUE_FULL_ERROR only when the queue is empty
    and [max_queue_size <= reduction_size]; with these sizes it keeps
    nothing: the queue is left empty and [min_probability] as it was. *)
Theorem trim_queue_reports_full_only_when_empty q r q' :
  trim_queue q = (Ok r, q') ->
  (r = QUEUE_FULL_ERROR <->
   p_queue q = [] /\ (max_queue_size q <= reduction_size q)%Z) /\
  ((max_queue_size q <= reduction_size q)%Z ->
   p_queue q' = [] /\ min_probability q' = min_probability q).
Proof.
  intros H.
  destruct (Z_lt_le_dec 0 (max_queue_size q - reduction_size q)) as [HK|HK].
  - destruct (trim_queue_partition q r q' HK H) as [-> _].
    split; [|lia]. split; [discriminate|]. intros [_ Hle]. lia.
  - unfold trim_queue in H. unfold sbind at 1 in H. cbn [sget] in H.
    replace (Z.to_nat (max_queue_size q - reduction_size q)) with 0 in H
      by lia.
    cbn in H.
    destruct (p_queue q) as [|x h] eqn:Eq; cbn in H;
      injection H as <- <-; cbn.
    + split; [|auto]. split; [intros _; split; [reflexivity|lia]|reflexivity].
    + split; [|auto]. split; [discriminate|]. intros [Hnil _]. discriminate.
Qed.

Lemma trim_queue_reports_full_only_when_empty_witness :
  let q := mkQueue [mkItem true (1 # 2) (Node 0 0 [])] 1 (1 # 4) 1 1 in
  let q' := mkQueue [] 1 (1 # 4) 1 1 in
  trim_queue q = (Ok STATUS_OK, q') /\
  p_queue q' = [] /\ min_probability q' = min_probability q.
Proof.
  split; [reflexivity|].
  refine (proj2 (trim_queue_reports_full_only_when_empty
                   (mkQueue [mkItem true (1 # 2) (Node 0 0 [])] 1 (1 # 4) 1 1)
                   STATUS_OK (mkQueue [] 1 (1 # 4) 1 1) eq_refl) _).
  simpl. lia.
Defined.

(** ** [initialize] *)

(** X14. [initialize] looks for START in the last position only: when the
    last non-terminal of the grammar is of type START it pushes one item,
    not marked terminal, for the tree [[len-1, 0, []]] with the probability
    of START's first replacement (IndexError if START has none); otherwise,
    and on an empty grammar, it returns GRAMMAR_ERROR and leaves the queue
    as it was. *)
Theorem initialize_pushes_the_last_start (gr : list nonterminal) q :
  initialize gr q
  = match last gr with
    | Some nt =>
        if String.eqb (type nt) "START" then
          match replacements nt !! 0 with
          | Some rep =>
              (Ok STATUS_OK,
               mkQueue (p_queue q ++
                          [mkItem false (prob rep) (Node (length gr - 1) 0 [])])
                 (max_probability q) (min_probability q)
                 (max_queue_size q) (reduction_size q))
          | None => (Raise IndexError, q)
          end
        else (Ok GRAMMAR_ERROR, q)
    | None => (Ok GRAMMAR_ERROR, q)
    end.
Proof.
  unfold initialize. rewrite start_index_last_only.
  destruct (last gr) as [nt|] eqn:El; [|reflexivity].
  destruct (String.eqb (type nt) "START"); [|reflexivity].
  assert (Hlen : 0 < length gr).
  { destruct gr; [discriminate|simpl; lia]. }
  replace (Z.eqb (Z.of_nat (length gr) - 1) (-1)) with false
    by (symmetry; apply Z.eqb_neq; lia).
  replace (Z.to_nat (Z.of_nat (length gr) - 1)) with (length gr - 1) by lia.
  rewrite last_lookup in El.
  replace (pred (length gr)) with (length gr - 1) in El by lia.
  unfold sbind at 1, slift. cbn [find_probability].
  unfold repl_at, py_index. rewrite El. cbn [rbind].
  destruct (replacements nt !! 0) as [rep|]; [|reflexivity].
  cbn [rbind]. unfold sbind. rewrite push_self_eq. reflexivity.
Qed.

(** ** What [next_function] hands back *)

Lemma refill_false gr :
  forall fuel q q',
    refill gr fuel q = (Ok false, q') ->
    p_queue q' = [] /\ Qeq_bool (min_probability q') 0 = true.
Proof.
  induction fuel as [|fuel IH]; intros q q' H; cbn [refill] in H;
    unfold sbind at 1 in H; cbn [sget] in H;
    destruct (Nat.eqb (length (p_queue q)) 0) eqn:Elen; try discriminate;
    destruct (Qeq_bool (min_probability q) 0) eqn:Emin; cbn [negb] in H;
    try discriminate.
  - injection H as <-. apply Nat.eqb_eq, length_zero_iff_nil in Elen. auto.
  - injection H as <-. apply Nat.eqb_eq, length_zero_iff_nil in Elen. auto.
  - unfold sbind in H.
    destruct (rebuild_queue gr fuel q) as [[r|e|] q1]; try discriminate.
    eapply IH; eauto.
Qed.

Lemma pump_iteration_exhausted gr fuel q q' :
  pump_iteration gr fuel q = (Ok Exhausted, q') ->
  p_queue q' = [] /\ Qeq_bool (min_probability q') 0 = true.
Proof.
  unfold pump_iteration, sbind at 1.
  destruct (refill gr fuel q) as [[b|e|] q1] eqn:Er; try discriminate.
  destruct b.
  - unfold sbind at 1.
    destruct (pop_self q1) as [[x|e|] q2]; try discriminate.
    unfold sbind at 1. cbn [set_max_probability]. unfold sbind at 1.
    destruct (queue_deadbeat_dad gr x _) as [[x'|e|] q3]; try discriminate.
    unfold sbind.
    destruct (trim_if_too_large q3) as [[t|e|] q4]; discriminate.
  - intros [= <-]. eapply refill_false; eauto.
Qed.

(** X15. A call of [next_function] that returns STATUS_OK has appended
    exactly one item to [queue_item_list], and that item is marked
    terminal; a call that returns QUEUE_EMPTY has appended nothing and
    leaves an empty queue whose [min_probability] is 0.  No other status is
    returned. *)
Theorem next_function_hands_back_one_terminal_item gr fuel l q r l' q' :
  next_function gr fuel l q = (Ok (r, l'), q') ->
  (r = STATUS_OK /\
   exists x, l' = l ++ [x] /\ item_is_terminal x = true) \/
  (r = QUEUE_EMPTY /\ l' = l /\
   p_queue q' = [] /\ Qeq_bool (min_probability q') 0 = true).
Proof.
  revert q. induction fuel as [|fuel IH]; intros q H; [discriminate|].
  cbn [next_function] in H. unfold sbind at 1 in H.
  destruct (pump_iteration gr fuel q) as [[it|e|] q1] eqn:Eit;
    try discriminate.
  destruct it as [|x t].
  - injection H as <- <- <-. right.
    destruct (pump_iteration_exhausted gr fuel q q1 Eit). auto.
  - destruct (item_is_terminal x) eqn:Et.
    + injection H as <- <- <-. left. eauto.
    + eapply IH; eauto.
Qed.

Lemma next_function_hands_back_one_terminal_item_witness :
  exists x,
    [mkItem true (1 # 4) (Node 2 0 [Node 0 0 []; Node 1 0 []])] = [] ++ [x] /\
    item_is_terminal x = true.
Proof.
  destruct (next_function_hands_back_one_terminal_item tie_grammar 10 []
              (snd (initialize tie_grammar new_queue)) STATUS_OK
              [mkItem true (1 # 4) (Node 2 0 [Node 0 0 []; Node 1 0 []])]
              (snd (next_function tie_grammar 10 []
                      (snd (initialize tie_grammar new_queue)))) eq_refl)
    as [[_ H]|[H _]]; [exact H|discriminate H].
Defined.

(** ** The pump in general: trims and rebuilds included *)

Lemma preserves_set_p_queue_nil m :
  preserves (set_p_queue []) (bounded_above m).
Proof. intros q [Hm _]. split; [exact Hm|intros x []]. Qed.

Lemma preserves_rebuild_queue gr fuel m :
  preserves (rebuild_queue gr fuel) (bounded_above m).
Proof.
  unfold rebuild_queue.
  apply preserves_bind; [apply preserves_set_p_queue_nil|]. intros _.
  apply preserves_bind; [apply preserves_set_min|]. intros _.
  destruct (Z.eqb _ _); [apply preserves_ret|].
  apply preserves_bind; [apply preserves_rebuild_loop|].
  intros; apply preserves_ret.
Qed.

Lemma preserves_refill gr m :
  forall fuel, preserves (refill gr fuel) (bounded_above m).
Proof.
  induction fuel as [|fuel IH]; cbn [refill];
    (apply preserves_bind; [apply preserves_sget|]); intros q;
    destruct (Nat.eqb _ _); try apply preserves_ret;
    destruct (negb _); try apply preserves_ret.
  - apply preserves_sdiverge.
  - apply preserves_bind; [apply preserves_rebuild_queue|]. intros; apply IH.
Qed.

Lemma pump_iteration_bounded gr fuel q it q' :
  bounded_above (max_probability q) q ->
  pump_iteration gr fuel q = (Ok it, q') ->
  match it with
  | Exhausted => bounded_above (max_probability q) q'
  | Popped x _ =>
      (probability x <= max_probability q)%Q /\
      bounded_above (probability x) q'
  end.
Proof.
  intros Hinv H. unfold pump_iteration, sbind at 1 in H.
  pose proof (preserves_refill gr (max_probability q) fuel q Hinv) as Hq1.
  destruct (refill gr fuel q) as [[b|e|] q1] eqn:Er; try discriminate.
  simpl in Hq1. destruct b; [|now injection H as <- <-].
  unfold sbind at 1 in H. rewrite pop_self_eq in H.
  destruct (heappop (p_queue q1)) as [[x h]|] eqn:Epop; [|discriminate].
  destruct (heappop_spec _ _ _ Epop) as (Hx & _ & Hmax & _).
  unfold sbind at 1 in H. cbn [set_max_probability max_probability p_queue
    min_probability max_queue_size reduction_size] in H.
  set (q2 := mkQueue h (probability x) (min_probability q1)
               (max_queue_size q1) (reduction_size q1)) in H.
  assert (Hq2 : bounded_above (probability x) q2) by (split; auto).
  destruct (queue_deadbeat_dad_spec gr x q2 Hq2) as (Hb & _ & Hitem).
  unfold sbind at 1 in H.
  destruct (queue_deadbeat_dad gr x q2) as [[x'|e|] q3] eqn:Edd;
    try discriminate.
  destruct (Hitem x' q3 eq_refl) as [Hpx _]. simpl in Hb.
  pose proof (preserves_trim_if_too_large (probability x) q3 Hb) as Hq4.
  unfold sbind at 1 in H.
  destruct (trim_if_too_large q3) as [[t|e|] q4] eqn:Etrim; try discriminate.
  injection H as <- <-. simpl in Hq4. rewrite Hpx. split; [|exact Hq4].
  destruct Hq1 as [_ Hle]. now apply Hle.
Qed.

Lemma pump_steps_bounded gr q its :
  pump_steps gr q its ->
  bounded_above (max_probability q) q ->
  non_increasing_seq (max_probability q :: map probability (popped its)) /\
  non_increasing_seq
    (max_probability q :: map (fun s => max_probability (snd s)) its) /\
  Forall (fun s => bounded_above (max_probability (snd s)) (snd s)) its.
Proof.
  unfold non_increasing_seq.
  induction 1 as [q|q fuel it q' rest Hit Hrest IH]; intros Hinv.
  - repeat split; repeat constructor.
  - pose proof (pump_iteration_bounded gr fuel q it q' Hinv Hit) as Hstep.
    destruct it as [|x trimmed].
    + assert (Hm : max_probability q' = max_probability q) by apply Hstep.
      rewrite <- Hm in Hstep. destruct (IH Hstep) as (IH1 & IH2 & IH3).
      rewrite Hm in IH1, IH2. split; [exact IH1|]. split.
      * cbn [map snd]. rewrite Hm.
        constructor; [exact IH2|]. constructor. apply Qle_refl.
      * constructor; [exact Hstep|exact IH3].
    + destruct Hstep as [Hle Hb].
      assert (Hm : max_probability q' = probability x) by apply Hb.
      rewrite <- Hm in Hb. destruct (IH Hb) as (IH1 & IH2 & IH3).
      cbn [popped flat_map fst map app snd]. fold (popped rest).
      rewrite Hm in *. split; [|split].
      * constructor; [exact IH1|]. constructor. exact Hle.
      * constructor; [exact IH2|]. constructor. exact Hle.
      * constructor; [cbn [snd]; rewrite Hm; exact Hb|exact IH3].
Qed.

(** X16. In every run of the guess pump, passes that trim or rebuild the
    queue included, that starts from a queue none of whose items exceeds
    [max_probability]: the popped probabilities never increase, nor do the
    successive values of [max_probability], and after every pass no queued
    item exceeds [max_probability]. *)
Theorem pump_never_pops_above_an_earlier_pop gr q its :
  pump_steps gr q its ->
  bounded_above (max_probability q) q ->
  non_increasing_seq (max_probability q :: map probability (popped its)) /\
  non_increasing_seq
    (max_probability q :: map (fun s => max_probability (snd s)) its) /\
  Forall (fun s => bounded_above (max_probability (snd s)) (snd s)) its.
Proof. apply pump_steps_bounded. Qed.

Lemma pump_never_pops_above_an_earlier_pop_witness :
  let q := snd (initialize trim_grammar small_queue) in
  let its := run_steps trim_grammar 20 4 q in
  trimmed_in its = true /\
  map probability (popped its) = [1; 1 # 8; 1 # 12; 1 # 12]%Q /\
  non_increasing_seq (max_probability q :: map probability (popped its)).
Proof.
  split; [reflexivity|]. split; [reflexivity|].
  refine (proj1 (pump_never_pops_above_an_earlier_pop trim_grammar
                   (snd (initialize trim_grammar small_queue))
                   (run_steps trim_grammar 20 4
                      (snd (initialize trim_grammar small_queue)))
                   (run_steps_are_steps trim_grammar 20 4 _) _)).
  split; [reflexivity|].
  intros x Hx. vm_compute in Hx. destruct Hx as [<-|[]]. apply Qle_refl.
Defined.

(** X25. Successive calls of [next_function] hand back items whose
    probabilities never increase from one to the next, in every run, trims
    and rebuilds of the queue included, that starts from a queue none of
    whose items exceeds [max_probability]. *)
Theorem calls_hand_back_in_non_increasing_order gr fuel k q emitted q' :
  bounded_above (max_probability q) q ->
  pump gr fuel k [] q = (Ok emitted, q') ->
  non_increasing_seq (map probability emitted).
Proof.
  intros Hq H.
  destruct (pump_steps_of_calls gr fuel k [] q emitted q' H)
    as (its & Hsteps & _ & ->).
  destruct (pump_steps_bounded gr q its Hsteps Hq) as (H1 & _).
  cbn [app]. apply non_increasing_filter.
  unfold non_increasing_seq in *. now inversion H1.
Qed.

Lemma calls_hand_back_in_non_increasing_order_witness :
  let q := snd (initialize trim_grammar small_queue) in
  let first := Node 3 0 [Node 0 0 []; Node 1 0 []; Node 2 0 []] in
  let second := Node 3 0 [Node 0 1 []; Node 1 0 []; Node 2 0 []] in
  let emitted := [mkItem true (1 # 8) first; mkItem true (1 # 12) second;
                  mkItem true (1 # 12) second] in
  fst (pump trim_grammar 20 3 [] q) = Ok emitted /\
  non_increasing_seq (map probability emitted).
Proof.
  split; [reflexivity|].
  refine (calls_hand_back_in_non_increasing_order trim_grammar 20 3
            (snd (initialize trim_grammar small_queue))
            [mkItem true (1 # 8)
               (Node 3 0 [Node 0 0 []; Node 1 0 []; Node 2 0 []]);
             mkItem true (1 # 12)
               (Node 3 0 [Node 0 1 []; Node 1 0 []; Node 2 0 []]);
             mkItem true (1 # 12)
               (Node 3 0 [Node 0 1 []; Node 1 0 []; Node 2 0 []])]
            (mkQueue [] (1 # 12) (1 # 12) 2 1) _ _).
  - split; [reflexivity|].
    intros x Hx. vm_compute in Hx. destruct Hx as [<-|[]]. apply Qle_refl.
  - vm_compute. reflexivity.
Defined.

(** ** The window between [min_probability] and [max_probability] *)

Lemma push_children_below gr queue_item :
  forall children q,
    bounded_below q ->
    bounded_below (snd (push_children gr queue_item children q)).
Proof.
  induction children as [|child rest IH]; intros q Hq; [exact Hq|].
  cbn [push_children]. unfold sbind at 1, slift.
  destruct (find_is_terminal gr child); try exact Hq.
  unfold sbind at 1. destruct (find_probability gr child) as [p|e|];
    try exact Hq.
  unfold sbind at 1. cbn [sget]. unfold sbind at 1. cbn [probability].
  destruct (Qle_bool p (probability queue_item));
    [destruct (Qle_bool (min_probability q) p) eqn:Emin|];
    try (cbn; apply IH; exact Hq).
  rewrite push_self_eq. apply IH. intros x Hx. cbn in *.
  apply in_app_or in Hx as [Hx|[<-|[]]]; [auto|]. cbn.
  now apply Qle_bool_iff.
Qed.

Lemma queue_deadbeat_dad_below gr queue_item q :
  bounded_below q ->
  bounded_below (snd (queue_deadbeat_dad gr queue_item q)).
Proof.
  intros Hq. unfold queue_deadbeat_dad.
  destruct (deadbeat_dad gr (parse_tree queue_item)
              (Some (probability queue_item))) as [children tree].
  unfold sbind at 1, slift. destruct children as [l|e|]; try exact Hq.
  pose proof (push_children_below gr queue_item l q Hq) as Hb.
  unfold sbind.
  destruct (push_children gr queue_item l q) as [[u|e|] q1]; exact Hb.
Qed.

Lemma rebuild_queue_below gr fuel q r q' :
  rebuild_queue gr fuel q = (Ok r, q') -> bounded_below q'.
Proof.
  intros H. unfold rebuild_queue in H.
  unfold sbind at 1 in H. cbn [set_p_queue] in H.
  unfold sbind at 1 in H. cbn [set_min_probability max_probability p_queue
                                min_probability max_queue_size reduction_size] in H.
  set (q1 := mkQueue [] (max_probability q) 0 (max_queue_size q)
               (reduction_size q)) in H.
  assert (Hbelow : bounded_below q1) by (intros x []).
  destruct (Z.eqb (start_index gr) (-1)); [now injection H as _ <-|].
  unfold sbind in H.
  destruct (rebuild_loop gr fuel _ q1) as [[u|e|] q2] eqn:E; try discriminate.
  injection H as _ <-.
  exact (ensures_rebuild_loop gr fuel _ q1 Hbelow u q2 E).
Qed.

Lemma refill_below gr :
  forall fuel q b q',
    bounded_below q -> refill gr fuel q = (Ok b, q') -> bounded_below q'.
Proof.
  induction fuel as [|fuel IH]; intros q b q' Hq H; cbn [refill] in H;
    unfold sbind at 1 in H; cbn [sget] in H;
    destruct (Nat.eqb (length (p_queue q)) 0);
    try (now injection H as _ <-);
    destruct (negb (Qeq_bool (min_probability q) 0));
    try (now injection H as _ <-); try discriminate.
  unfold sbind in H.
  destruct (rebuild_queue gr fuel q) as [[r|e|] q1] eqn:E; try discriminate.
  eapply IH; [|exact H]. eapply rebuild_queue_below; eauto.
Qed.

Lemma pump_iteration_below gr fuel q it q' :
  bounded_below q ->
  pump_iteration gr fuel q = (Ok it, q') -> bounded_below q'.
Proof.
  intros Hq H. unfold pump_iteration, sbind at 1 in H.
  destruct (refill gr fuel q) as [[b|e|] q1] eqn:Er; try discriminate.
  pose proof (refill_below gr fuel q b q1 Hq Er) as Hq1.
  destruct b; [|now injection H as _ <-].
  unfold sbind at 1 in H. rewrite pop_self_eq in H.
  destruct (heappop (p_queue q1)) as [[x h]|] eqn:Epop; [|discriminate].
  destruct (heappop_spec _ _ _ Epop) as (_ & Hsub & _).
  unfold sbind at 1 in H. cbn [set_max_probability max_probability p_queue
    min_probability max_queue_size reduction_size] in H.
  set (q2 := mkQueue h (probability x) (min_probability q1)
               (max_queue_size q1) (reduction_size q1)) in H.
  assert (Hq2 : bounded_below q2) by (intros y Hy; apply Hq1, Hsub, Hy).
  pose proof (queue_deadbeat_dad_below gr x q2 Hq2) as Hq3.
  unfold sbind at 1 in H.
  destruct (queue_deadbeat_dad gr x q2) as [[x'|e|] q3]; try discriminate.
  simpl in Hq3. unfold sbind at 1 in H.
  destruct (trim_if_too_large q3) as [[t|e|] q4] eqn:Etrim; try discriminate.
  injection H as _ <-.
  exact (ensures_trim_if_too_large q3 Hq3 t q4 Etrim).
Qed.

(** X17. In every run of the guess pump that starts from a queue whose
    items lie between [min_probability] and [max_probability], after every
    pass (trims and rebuilds included) every queued item again lies between
    the current [min_probability] and the current [max_probability]. *)
Theorem pump_keeps_the_queue_inside_its_window gr q its :
  pump_steps gr q its ->
  bounded_above (max_probability q) q ->
  bounded_below q ->
  Forall (fun s => forall x, In x (p_queue (snd s)) ->
                     (min_probability (snd s) <= probability x)%Q /\
                     (probability x <= max_probability (snd s))%Q) its.
Proof.
  intros Hsteps Habove Hbelow.
  destruct (pump_steps_bounded gr q its Hsteps Habove) as (_ & _ & Hab).
  assert (Hbe : Forall (fun s => bounded_below (snd s)) its).
  { clear Habove Hab. induction Hsteps as [q|q fuel it q' rest Hit _ IH];
      constructor.
    - exact (pump_iteration_below gr fuel q it q' Hbelow Hit).
    - apply IH. exact (pump_iteration_below gr fuel q it q' Hbelow Hit). }
  rewrite List.Forall_forall in *. intros s Hs x Hx. split.
  - now apply (Hbe s Hs).
  - now apply (Hab s Hs).
Qed.

Lemma pump_keeps_the_queue_inside_its_window_witness :
  let q := snd (initialize trim_grammar small_queue) in
  let its := run_steps trim_grammar 20 2 q in
  map (fun s => (min_probability (snd s), max_probability (snd s))) its
  = [(0, 1); (1 # 12, 1 # 8)]%Q /\
  Forall (fun s => forall x, In x (p_queue (snd s)) ->
                     (min_probability (snd s) <= probability x)%Q /\
                     (probability x <= max_probability (snd s))%Q) its.
Proof.
  split; [reflexivity|].
  refine (pump_keeps_the_queue_inside_its_window trim_grammar
            (snd (initialize trim_grammar small_queue))
            (run_steps trim_grammar 20 2
               (snd (initialize trim_grammar small_queue)))
            (run_steps_are_steps trim_grammar 20 2 _) _ _).
  - split; [reflexivity|].
    intros x Hx. vm_compute in Hx. destruct Hx as [<-|[]]. apply Qle_refl.
  - intros x Hx. vm_compute in Hx. destruct Hx as [<-|[]]. discriminate.
Defined.

(** ** The guard of [PcfgQueue.deadbeat_dad] *)

Lemma sublist_In {A} (l1 l2 : list A) x :
  sublist l1 l2 -> In x l1 -> In x l2.
Proof.
  induction 1 as [|y l1 l2 _ IH|y l1 l2 _ IH]; intros Hx.
  - destruct Hx.
  - destruct Hx as [->|Hx]; [now left|right; auto].
  - right. auto.
Qed.

(** X18. On a grammar whose replacements are listed by non-increasing
    probability, with every probability in [0, 1], every child that
    [pcfg.deadbeat_dad] returns for a queue item that carries the
    probability of its own tree passes the test
    [child_node.probability <= queue_item.probability] of
    [PcfgQueue.deadbeat_dad]: the branch that reports a parent pushed in
    place of a child is never taken. *)
Theorem deadbeat_dad_children_pass_the_guard
    gr queue_item children tree c pp pc :
  probabilities_in_unit_interval gr -> replacements_descend gr ->
  find_probability gr (parse_tree queue_item) = Ok pp ->
  (pp == probability queue_item)%Q ->
  deadbeat_dad gr (parse_tree queue_item) (Some (probability queue_item))
  = (Ok children, tree) ->
  In c children ->
  find_probability gr c = Ok pc ->
  Qle_bool pc (probability queue_item) = true.
Proof.
  intros Hunit Hdesc Hpp Heq Hdd Hc Hpc.
  destruct (deadbeat_dad_sublist gr _ _ _ _ Hdd) as (ys & Hys & Hsub).
  apply Qle_bool_iff. rewrite <- Heq.
  eapply (find_children_probability_le gr (parse_tree queue_item) ys c);
    eauto.
  eapply sublist_In; eauto.
Qed.

Lemma deadbeat_dad_children_pass_the_guard_witness :
  Qle_bool (1 # 16) (1 # 8) = true.
Proof.
  apply (deadbeat_dad_children_pass_the_guard tie_grammar
           (mkItem true (1 # 8) (Node 2 0 [Node 0 1 []; Node 1 0 []]))
           [Node 2 0 [Node 0 1 []; Node 1 1 []]]
           (Node 2 0 [Node 0 1 []; Node 1 0 []])
           (Node 2 0 [Node 0 1 []; Node 1 1 []]) (1 # 8) (1 # 16)).
  - exact tie_grammar_unit_interval.
  - exact tie_grammar_descends.
  - reflexivity.
  - reflexivity.
  - reflexivity.
  - simpl. auto.
  - reflexivity.
Defined.

(** ** The comparisons of [QueueItem] *)

Lemma Qlt_dec_true (x y : Q) :
  (x < y)%Q -> (if Qlt_le_dec x y then true else false) = true.
Proof. intros H. destruct (Qlt_le_dec x y); [reflexivity|lra]. Qed.

Lemma Qlt_dec_false (x y : Q) :
  (y <= x)%Q -> (if Qlt_le_dec x y then true else false) = false.
Proof. intros H. destruct (Qlt_le_dec x y); [lra|reflexivity]. Qed.

Lemma Qle_bool_true (x y : Q) : (x <= y)%Q -> Qle_bool x y = true.
Proof. apply Qle_bool_iff. Qed.

Lemma Qle_bool_false (x y : Q) : (y < x)%Q -> Qle_bool x y = false.
Proof.
  intros H. apply not_true_iff_false. rewrite Qle_bool_iff. lra.
Qed.

Lemma Qeq_bool_true (x y : Q) : (x == y)%Q -> Qeq_bool x y = true.
Proof. apply Qeq_bool_iff. Qed.

Lemma Qeq_bool_false (x y : Q) : ~ (x == y)%Q -> Qeq_bool x y = false.
Proof.
  intros H. apply not_true_iff_false. now rewrite Qeq_bool_iff.
Qed.

(** X19. The six comparisons of [QueueItem] describe one total preorder,
    the reverse of the order of the probabilities: [a < b] holds exactly
    when [a] is the more probable; exactly one of [a < b], [a == b],
    [a > b] holds; [<=], [>=] and [!=] are the combinations their names
    say; and the parse tree plays no part in any of them. *)
Theorem queue_item_comparisons_reverse_the_probabilities a b :
  (item_lt a b = true <-> (probability b < probability a)%Q) /\
  item_gt a b = item_lt b a /\
  item_le a b = (item_lt a b || item_eq a b) /\
  item_ge a b = (item_gt a b || item_eq a b) /\
  item_ne a b = negb (item_eq a b) /\
  item_le a b = negb (item_gt a b) /\
  (item_lt a b = true /\ item_eq a b = false /\ item_gt a b = false \/
   item_lt a b = false /\ item_eq a b = true /\ item_gt a b = false \/
   item_lt a b = false /\ item_eq a b = false /\ item_gt a b = true) /\
  (forall t t', item_eq (mkItem (item_is_terminal a) (probability a) t)
                        (mkItem (item_is_terminal a) (probability a) t')
                = true).
Proof.
  unfold item_lt, item_gt, item_le, item_ge, item_ne, item_eq.
  cbn [probability].
  set (pa := probability a). set (pb := probability b).
  assert (Hrefl : Qeq_bool pa pa = true) by (apply Qeq_bool_true; reflexivity).
  destruct (Q_dec pa pb) as [[H|H]|H].
  - rewrite (Qlt_dec_false pb pa), (Qlt_dec_true pa pb),
      (Qle_bool_false pb pa), (Qle_bool_true pa pb),
      (Qeq_bool_false pa pb) by lra.
    repeat split; auto; try discriminate; try lra.
  - rewrite (Qlt_dec_true pb pa), (Qlt_dec_false pa pb),
      (Qle_bool_true pb pa), (Qle_bool_false pa pb),
      (Qeq_bool_false pa pb) by lra.
    repeat split; auto; try discriminate; try lra.
  - rewrite (Qlt_dec_false pb pa), (Qlt_dec_false pa pb),
      (Qle_bool_true pb pa), (Qle_bool_true pa pb),
      (Qeq_bool_true pa pb) by lra.
    repeat split; auto; try discriminate; try lra.
Qed.

(** ** Rebuilding: [find_my_children] and [rebuild_from_max] *)

Lemma lowest_index_fold (l : list (node * Q)) (lp : Q) :
  forall n a acc,
    acc < a ->
    (acc = 0 \/ exists t p, l !! acc = Some (t, p) /\ (p < lp)%Q) ->
    (forall j t p, acc < j < a -> l !! j = Some (t, p) -> ~ (p < lp)%Q) ->
    let i := fold_left
               (fun parent_index index =>
                  match l !! index with
                  | Some (_, p) => if Qlt_le_dec p lp then index
                                   else parent_index
                  | None => parent_index
                  end) (seq a n) acc in
    i < a + n /\
    (i = 0 \/ exists t p, l !! i = Some (t, p) /\ (p < lp)%Q) /\
    (forall j t p, i < j < a + n -> l !! j = Some (t, p) -> ~ (p < lp)%Q).
Proof.
  induction n as [|n IH]; intros a acc Hlt Hacc Hafter; cbn [seq fold_left].
  - rewrite Nat.add_0_r. auto.
  - replace (a + S n) with (S a + n) by lia.
    destruct (l !! a) as [[t p]|] eqn:Ea.
    + destruct (Qlt_le_dec p lp) as [Hp|Hp].
      * apply IH; [lia|right; eauto|]. intros j t' p' Hj. lia.
      * apply IH; [lia|exact Hacc|]. intros j t' p' Hj Hl.
        destruct (Nat.eq_dec j a) as [->|Hne].
        -- rewrite Ea in Hl. injection Hl as <- <-. lra.
        -- apply (Hafter j t' p'); [lia|exact Hl].
    + apply IH; [lia|exact Hacc|]. intros j t' p' Hj Hl.
      destruct (Nat.eq_dec j a) as [->|Hne]; [congruence|].
      apply (Hafter j t' p'); [lia|exact Hl].
Qed.

Lemma lowest_index_spec (l : list (node * Q)) (lp : Q) :
  (l <> [] -> lowest_index l lp < length l) /\
  (lowest_index l lp = 0 \/
   exists t p, l !! lowest_index l lp = Some (t, p) /\ (p < lp)%Q) /\
  (forall j t p, lowest_index l lp < j -> l !! j = Some (t, p) ->
                 ~ (p < lp)%Q).
Proof.
  unfold lowest_index.
  destruct (lowest_index_fold l lp (length l - 1) 1 0) as (H1 & H2 & H3);
    [lia|now left|intros; lia|].
  split; [|split].
  - intros Hne. destruct l; [congruence|]. simpl in *. lia.
  - exact H2.
  - intros j t p Hj Hl. apply (H3 j t p); [|exact Hl].
    apply lookup_lt_Some in Hl. lia.
Qed.


Lemma find_is_terminal_ok gr (t : node) :
  tree_ok gr t = true -> exists b, find_is_terminal gr t = Ok b.
Proof.
  induction t as [g r cs IH] using node_ind'. intros H.
  apply tree_ok_unfold in H as [[rep Hrep] Hcs].
  cbn [find_is_terminal].
  assert (Hloop : exists b,
            (fix loop (l : list node) {struct l} : result bool :=
               match l with
               | [] => Ok true
               | c :: t =>
                   (b <- find_is_terminal gr c ;;
                    if b then loop t else Ok false)%res
               end) cs = Ok b).
  { clear Hrep. induction cs as [|c l IHl]; [eauto|].
    inversion IH as [|? ? Hc Hl]; subst.
    inversion Hcs as [|? ? Hc' Hl']; subst.
    destruct (Hc Hc') as [b ->]. simpl. destruct b; [now apply IHl|eauto]. }
  destruct cs as [|c0 cs0]; [rewrite Hrep; simpl; eauto|exact Hloop].
Qed.

Lemma probabilities_ok gr :
  forall l : list node,
    (forall q, In q l -> exists p, find_probability gr q = Ok p) ->
    exists pl, probabilities gr l = Ok pl /\ length pl = length l.
Proof.
  induction l as [|q l IH]; intros H; simpl; [eauto|].
  destruct (H q (or_introl eq_refl)) as [p ->]. simpl.
  destruct IH as (pl & -> & Hlen); [intros; apply H; now right|].
  simpl. eexists. split; [reflexivity|]. simpl. now rewrite Hlen.
Qed.

Lemma find_my_children_ok gr q_item :
  forall children : list node,
    (forall c, In c children ->
               tree_ok gr c = true /\ findMyParents c <> []) ->
    exists l, find_my_children gr q_item children = Ok l /\
              sublist l children.
Proof.
  induction children as [|child rest IH]; intros H; cbn [find_my_children].
  - exists []. split; [reflexivity|constructor].
  - destruct (H child (or_introl eq_refl)) as [Hok Hne].
    destruct (probabilities_ok gr (findMyParents child)) as (pl & -> & Hlen).
    { intros q Hq. now apply (findMyParents_ok gr child q Hok Hq). }
    cbn [rbind].
    assert (Hpl : pl <> []).
    { intros ->. simpl in Hlen. destruct (findMyParents child);
        [congruence|discriminate]. }
    destruct pl as [|first pl'] eqn:Epl; [congruence|].
    cbn [py_index lookup list_lookup rbind]. rewrite <- Epl.
    destruct (lowest_index_spec pl (snd first)) as (Hlt & _).
    specialize (Hlt ltac:(congruence)).
    destruct (lookup_lt_is_Some_2 _ _ Hlt) as [chosen Hch].
    unfold py_index at 1. rewrite Hch. cbn [rbind].
    destruct IH as (more & -> & Hsub); [intros; apply H; now right|].
    cbn [rbind].
    destruct (node_eqb (fst chosen) (parse_tree q_item)); eexists;
      (split; [reflexivity|]); now constructor.
Qed.

Lemma queue_items_ok gr :
  forall l : list node,
    (forall c, In c l -> tree_ok gr c = true) ->
    exists items,
      queue_items gr l = Ok items /\ map parse_tree items = l /\
      forall x, In x items ->
                find_probability gr (parse_tree x) = Ok (probability x) /\
                find_is_terminal gr (parse_tree x) = Ok (item_is_terminal x).
Proof.
  induction l as [|c l IH]; intros H; cbn [queue_items].
  - exists []. split; [reflexivity|]. split; [reflexivity|]. intros y [].
  - destruct (find_is_terminal_ok gr c (H c (or_introl eq_refl))) as [t Ht].
    destruct (find_probability_ok gr c (H c (or_introl eq_refl))) as [p Hp].
    rewrite Ht, Hp. cbn [rbind].
    destruct IH as (items & -> & Hmap & Hitems); [intros; apply H; now right|].
    cbn [rbind]. eexists. split; [reflexivity|]. split.
    + simpl. now rewrite Hmap.
    + intros x [<-|Hx]; [now split|auto].
Qed.

(** X28. For an item more probable than [max_probability] whose tree names
    existing replacements only, over a grammar that is well formed for
    expansion, [rebuild_from_max] raises nothing and leaves the queue as it
    is: it hands back queue items for some of the children that
    [find_children] returns, in their order, each with the probability and
    the terminal flag that [find_probability] and [find_is_terminal]
    compute for its tree. *)
Theorem rebuild_from_max_hands_back_children gr q_item q :
  expandable_ok gr -> tree_ok gr (parse_tree q_item) = true ->
  Qle_bool (probability q_item) (max_probability q) = false ->
  exists ret_list children,
    rebuild_from_max gr q_item q = (Ok ret_list, q) /\
    find_children gr (parse_tree q_item) = Ok children /\
    sublist (map parse_tree ret_list) children /\
    forall x, In x ret_list ->
              find_probability gr (parse_tree x) = Ok (probability x) /\
              find_is_terminal gr (parse_tree x) = Ok (item_is_terminal x).
Proof.
  intros Hgr Hok Hgt.
  destruct (find_children_ok gr _ Hgr Hok) as (children & Hch & Hchok).
  destruct (find_my_children_ok gr q_item children) as (mine & Hmine & Hsub).
  { intros c Hc. split; [now apply Hchok|].
    pose proof (find_children_parent gr _ children c Hgr Hch Hc) as Hin.
    intros E. rewrite E in Hin. destruct Hin. }
  destruct (queue_items_ok gr mine) as (items & Hitems & Hmap & Hall).
  { intros c Hc. apply Hchok. eapply sublist_In; eauto. }
  exists items, children. split; [|split; [exact Hch|split]].
  - unfold rebuild_from_max, sbind at 1. cbn [sget]. rewrite Hgt.
    unfold slift. rewrite Hch. cbn [rbind]. rewrite Hmine. cbn [rbind].
    now rewrite Hitems.
  - now rewrite Hmap.
  - exact Hall.
Qed.

Lemma rebuild_from_max_hands_back_children_witness :
  exists ret_list children,
    rebuild_from_max tie_grammar (mkItem false 1 (Node 2 0 []))
      (mkQueue [] (1 # 8) 0 2 1)
    = (Ok ret_list, mkQueue [] (1 # 8) 0 2 1) /\
    find_children tie_grammar (Node 2 0 []) = Ok children /\
    sublist (map parse_tree ret_list) children /\
    forall x, In x ret_list ->
              find_probability tie_grammar (parse_tree x)
              = Ok (probability x) /\
              find_is_terminal tie_grammar (parse_tree x)
              = Ok (item_is_terminal x).
Proof.
  apply (rebuild_from_max_hands_back_children tie_grammar
           (mkItem false 1 (Node 2 0 [])) (mkQueue [] (1 # 8) 0 2 1)).
  - exact tie_grammar_expandable.
  - reflexivity.
  - reflexivity.
Defined.

(** * The scorer: multiword training and [parse] *)

(** ** [Counter.most_common], as modelled, sorts *)







(** ** The loop over the ascending list *)








(** ** [parse] *)

Lemma Qmult_nonzero (a b : Q) :
  ~ (a * b == 0)%Q -> ~ (a == 0)%Q /\ ~ (b == 0)%Q.
Proof.
  intros H. split; intros E; apply H; rewrite E; ring.
Qed.

Lemma multiply_all_nonzero (lookup : string -> option Q) :
  forall items cur p,
    multiply_all lookup items cur = Some p -> ~ (p == 0)%Q ->
    ~ (cur == 0)%Q /\
    forall item, In item items ->
                 exists v, lookup item = Some v /\ ~ (v == 0)%Q.
Proof.
  induction items as [|item rest IH]; intros cur p H Hp; simpl in H.
  - injection H as <-. split; [exact Hp|intros item []].
  - destruct (lookup item) as [v|] eqn:Ev; [|discriminate].
    destruct (IH _ _ H Hp) as [Hcv Hrest].
    destruct (Qmult_nonzero _ _ Hcv) as [Hc Hv].
    split; [exact Hc|]. intros x [<-|Hx]; [eauto|auto].
Qed.

Lemma multiply_all_none (lookup : string -> option Q) :
  forall items cur,
    multiply_all lookup items cur = None ->
    exists item, In item items /\ lookup item = None.
Proof.
  induction items as [|item rest IH]; intros cur H; simpl in H;
    [discriminate|].
  destruct (lookup item) as [v|] eqn:Ev.
  - destruct (IH _ H) as (x & Hx & Hn). exists x. split; [now right|exact Hn].
  - exists item. split; [now left|exact Ev].
Qed.

Lemma multiply_all_total (f : string -> Q) :
  forall items cur, multiply_all (fun item => Some (f item)) items cur <> None.
Proof.
  induction items as [|item rest IH]; intros cur; simpl; [discriminate|].
  apply IH.
Qed.

(** X22. The [try] block of [parse]: a KeyError (caught, the probability
    becomes 0) arises only from a keyboard walk, alpha string, mask, digit
    string or other string whose length the table for it does not hold;
    and when the block yields a non-zero probability, every string found
    has its length class in its table and a non-zero entry there, every
    year and context-sensitive string has a non-zero entry, and so has the
    base structure. *)
Theorem transition_probability_needs_every_entry
    self walks years contexts alphas masks digits others base :
  match transition_probability self walks years contexts alphas masks digits
          others base with
  | None =>
      exists table items item,
        In (table, items)
           [(count_keyboard self, walks); (count_alpha self, alphas);
            (count_alpha_masks self, masks); (count_digits self, digits);
            (count_other self, others)] /\
        In item items /\ by_length table item = None
  | Some p =>
      ~ (p == 0)%Q ->
      (forall table items,
         In (table, items)
            [(count_keyboard self, walks); (count_alpha self, alphas);
             (count_alpha_masks self, masks); (count_digits self, digits);
             (count_other self, others)] ->
         forall item, In item items ->
           exists v, by_length table item = Some v /\ ~ (v == 0)%Q) /\
      (forall item, In item years ->
         ~ (counter_get (count_years self) item == 0)%Q) /\
      (forall item, In item contexts ->
         ~ (counter_get (count_context_sensitive self) item == 0)%Q) /\
      ~ (counter_get (count_base_structures self) base == 0)%Q
  end.
Proof.
  unfold transition_probability.
  destruct (multiply_all (by_length (count_keyboard self)) walks 1)
    as [p1|] eqn:E1.
  2:{ destruct (multiply_all_none _ _ _ E1) as (x & Hx & Hn).
      exists (count_keyboard self), walks, x. simpl. auto. }
  destruct (multiply_all _ years p1) as [p2|] eqn:E2;
    [|now apply multiply_all_total in E2].
  destruct (multiply_all _ contexts p2) as [p3|] eqn:E3;
    [|now apply multiply_all_total in E3].
  destruct (multiply_all (by_length (count_alpha self)) alphas p3)
    as [p4|] eqn:E4.
  2:{ destruct (multiply_all_none _ _ _ E4) as (x & Hx & Hn).
      exists (count_alpha self), alphas, x. simpl. auto. }
  destruct (multiply_all (by_length (count_alpha_masks self)) masks p4)
    as [p5|] eqn:E5.
  2:{ destruct (multiply_all_none _ _ _ E5) as (x & Hx & Hn).
      exists (count_alpha_masks self), masks, x. simpl. auto 6. }
  destruct (multiply_all (by_length (count_digits self)) digits p5)
    as [p6|] eqn:E6.
  2:{ destruct (multiply_all_none _ _ _ E6) as (x & Hx & Hn).
      exists (count_digits self), digits, x. simpl. auto 7. }
  destruct (multiply_all (by_length (count_other self)) others p6)
    as [p7|] eqn:E7.
  2:{ destruct (multiply_all_none _ _ _ E7) as (x & Hx & Hn).
      exists (count_other self), others, x. simpl. auto 8. }
  intros Hp.
  destruct (Qmult_nonzero _ _ Hp) as [Hp7 Hbase].
  destruct (multiply_all_nonzero _ _ _ _ E7 Hp7) as [Hp6 H7].
  destruct (multiply_all_nonzero _ _ _ _ E6 Hp6) as [Hp5 H6].
  destruct (multiply_all_nonzero _ _ _ _ E5 Hp5) as [Hp4 H5].
  destruct (multiply_all_nonzero _ _ _ _ E4 Hp4) as [Hp3 H4].
  destruct (multiply_all_nonzero _ _ _ _ E3 Hp3) as [Hp2 H3].
  destruct (multiply_all_nonzero _ _ _ _ E2 Hp2) as [Hp1 H2].
  destruct (multiply_all_nonzero _ _ _ _ E1 Hp1) as [_ H1].
  split; [|split; [|split; [|exact Hbase]]].
  - intros table items Hin.
    simpl in Hin.
    destruct Hin as [[= <- <-]|[[= <- <-]|[[= <- <-]|[[= <- <-]|[[= <- <-]|[]]]]]];
      assumption.
  - intros item Hitem. destruct (H2 item Hitem) as (v & [= <-] & Hv).
    exact Hv.
  - intros item Hitem. destruct (H3 item Hitem) as (v & [= <-] & Hv).
    exact Hv.
Qed.

Lemma transition_probability_without_base
    self walks years contexts alphas masks digits others base :
  count_base_structures self = [] ->
  match transition_probability self walks years contexts alphas masks digits
          others base with
  | Some p => (p == 0)%Q
  | None => True
  end.
Proof.
  intros Hbase. unfold transition_probability.
  destruct (multiply_all _ walks 1) as [p1|]; [|exact I].
  destruct (multiply_all _ years p1) as [p2|]; [|exact I].
  destruct (multiply_all _ contexts p2) as [p3|]; [|exact I].
  destruct (multiply_all _ alphas p3) as [p4|]; [|exact I].
  destruct (multiply_all _ masks p4) as [p5|]; [|exact I].
  destruct (multiply_all _ digits p5) as [p6|]; [|exact I].
  destruct (multiply_all _ others p6) as [p7|]; [|exact I].
  unfold counter_get. rewrite Hbase. simpl. ring.
Qed.

Section ScorerFacts.
Variable section_list : Type.
Variable MultiWordDetector : Type.
Variable detect_keyboard_walk : string -> section_list * list string.
Variable email_detection
  : section_list -> section_list * (list string * list string).
Variable website_detection
  : section_list -> section_list * (list string * list string * list string).
Variable year_detection : section_list -> section_list * list string.
Variable context_sensitive_detection
  : section_list -> section_list * list string.
Variable alpha_detection
  : section_list -> MultiWordDetector ->
    section_list * (list string * list string).
Variable digit_detection : section_list -> section_list * list string.
Variable other_detection : section_list -> section_list * list string.
Variable base_structure_creation
  : section_list -> section_list * (bool * string).

Lemma parse_classification
    self multiword_detector password pw category p :
  parse section_list MultiWordDetector detect_keyboard_walk email_detection
    website_detection year_detection context_sensitive_detection
    alpha_detection digit_detection other_detection base_structure_creation
    self multiword_detector password = Ok (pw, category, p) ->
  pw = password /\
  (category = "e"%string <-> found_emails section_list detect_keyboard_walk email_detection password <> []) /\
  (category = "w"%string <-> found_emails section_list detect_keyboard_walk email_detection password = [] /\ found_urls section_list detect_keyboard_walk email_detection
     website_detection password <> []) /\
  (category = "p"%string <-> ~ (p == 0)%Q) /\
  (category = "e" \/ category = "w" \/ category = "o" \/ category = "p")%string.
Proof.
  unfold parse, found_emails, found_urls.
  destruct (detect_keyboard_walk password) as [s0 walks]. cbn [fst snd].
  destruct (email_detection s0) as [s1 [fe fp]]. cbn [fst snd].
  destruct (website_detection s1) as [s2 [[fu fh] fx]]. cbn [fst snd].
  destruct fe as [|e fe].
  2:{ cbn. intros [= <- <- <-]. repeat split; try discriminate; auto;
        try (intros H; exfalso; apply H; reflexivity).
      intros [H _]. discriminate. }
  destruct fu as [|u fu].
  2:{ cbn. intros [= <- <- <-]. repeat split; try discriminate; auto;
        try (intros H; exfalso; apply H; reflexivity);
        intros H; congruence. }
  cbn [String.eqb Ascii.eqb Bool.eqb orb andb].
  destruct (year_detection s2) as [s3 fy].
  destruct (context_sensitive_detection s3) as [s4 fc].
  destruct multiword_detector as [detector|]; [|discriminate].
  destruct (alpha_detection s4 detector) as [s5 [fa fm]].
  destruct (digit_detection s5) as [s6 fd].
  destruct (other_detection s6) as [s7 fo].
  destruct (base_structure_creation s7) as [s8 [sup base]].
  destruct sup; cbn [negb].
  - destruct (Qeq_bool _ 0) eqn:E; cbn [negb]; intros [= <- <- <-].
    + apply Qeq_bool_iff in E.
      repeat split; try discriminate; auto; try congruence;
        try (intros H; exfalso; apply H; exact E); intros [_ H]; congruence.
    + apply Qeq_bool_neq in E.
      repeat split; try discriminate; auto; try congruence;
        intros [_ H]; congruence.
  - intros [= <- <- <-].
    repeat split; try discriminate; auto; try congruence;
      try (intros H; exfalso; apply H; reflexivity); intros [_ H]; congruence.
Qed.

(** X23. What [parse] returns, whatever the detectors find: the password
    as given; category e exactly when an e-mail was found, w exactly when a
    URL but no e-mail was found; category p exactly when the probability is
    not 0; and no category other than e, w, o and p. *)
Theorem parse_category_tells_the_probability
    self multiword_detector password pw category p :
  parse section_list MultiWordDetector detect_keyboard_walk email_detection
    website_detection year_detection context_sensitive_detection
    alpha_detection digit_detection other_detection base_structure_creation
    self multiword_detector password = Ok (pw, category, p) ->
  pw = password /\
  (category = "e"%string <-> found_emails section_list detect_keyboard_walk email_detection password <> []) /\
  (category = "w"%string <-> found_emails section_list detect_keyboard_walk email_detection password = [] /\ found_urls section_list detect_keyboard_walk email_detection
     website_detection password <> []) /\
  (category = "p"%string <-> ~ (p == 0)%Q) /\
  (category = "e" \/ category = "w" \/ category = "o" \/ category = "p")%string.
Proof. apply parse_classification. Qed.

(** X24. A grammar that holds no base structure, as [__init__] leaves it,
    rates nothing as a password: whatever [parse] returns has probability 0
    and a category other than p. *)
Theorem parse_without_base_structures_finds_no_password
    self multiword_detector password pw category p :
  count_base_structures self = [] ->
  parse section_list MultiWordDetector detect_keyboard_walk email_detection
    website_detection year_detection context_sensitive_detection
    alpha_detection digit_detection other_detection base_structure_creation
    self multiword_detector password = Ok (pw, category, p) ->
  (p == 0)%Q /\ category <> "p"%string.
Proof.
  intros Hbase H.
  assert (Hzero : (p == 0)%Q).
  { revert H. unfold parse.
    destruct (detect_keyboard_walk password) as [s0 walks].
    destruct (email_detection s0) as [s1 [fe fp]].
    destruct (website_detection s1) as [s2 [[fu fh] fx]].
    destruct (String.eqb _ "e" || String.eqb _ "w");
      [intros [= _ _ <-]; reflexivity|].
    destruct (year_detection s2) as [s3 fy].
    destruct (context_sensitive_detection s3) as [s4 fc].
    destruct multiword_detector as [detector|]; [|discriminate].
    destruct (alpha_detection s4 detector) as [s5 [fa fm]].
    destruct (digit_detection s5) as [s6 fd].
    destruct (other_detection s6) as [s7 fo].
    destruct (base_structure_creation s7) as [s8 [sup base]].
    destruct sup; cbn [negb]; [|intros [= _ _ <-]; reflexivity].
    intros [= _ _ <-].
    pose proof (transition_probability_without_base self walks fy fc fa fm fd
                  fo base Hbase) as Hp.
    destruct (transition_probability self walks fy fc fa fm fd fo base);
      [exact Hp|reflexivity]. }
  split; [exact Hzero|].
  intros ->.
  destruct (parse_classification _ _ _ _ _ _ H) as (_ & _ & _ & [Hp _] & _).
  exact (Hp eq_refl Hzero).
Qed.
End ScorerFacts.

Lemma parse_category_tells_the_probability_witness :
  parse (list string) unit toy_walk toy_none2 toy_none3 toy_none toy_none
    toy_alpha toy_none toy_none toy_base toy_PcfgGrammar (Some tt)
    "cat"%string
  = Ok ("cat"%string, "p"%string, 1 # 4) /\
  ~ (1 # 4 == 0)%Q.
Proof.
  split; [reflexivity|].
  apply (proj1 (proj1 (proj2 (proj2 (proj2
           (parse_category_tells_the_probability (list string) unit
              toy_walk toy_none2 toy_none3 toy_none toy_none toy_alpha
              toy_none toy_none toy_base toy_PcfgGrammar (Some tt)
              "cat"%string "cat"%string "p"%string (1 # 4) eq_refl)))))).
  reflexivity.
Defined.

Lemma parse_without_base_structures_finds_no_password_witness :
  parse (list string) unit toy_walk toy_none2 toy_none3 toy_none toy_none
    toy_alpha toy_none toy_none toy_base new_PcfgGrammar (Some tt)
    "cat"%string
  = Ok ("cat"%string, "o"%string, 0%Q) /\
  (0 == 0)%Q /\ "o"%string <> "p"%string.
Proof.
  split; [reflexivity|].
  apply (parse_without_base_structures_finds_no_password (list string) unit
           toy_walk toy_none2 toy_none3 toy_none toy_none toy_alpha
           toy_none toy_none toy_base new_PcfgGrammar (Some tt)
           "cat"%string "cat"%string "o"%string 0%Q eq_refl eq_refl).
Defined.
